(** * go-assets: the in-memory asset file system and its generator

    A shallow embedding of [file.go], [filesystem.go] and the generator
    ([Generator.addPath], [Generator.Add], [Generator.Write]) together with
    the properties of the specification that were checked against them.

    Layout:
    - [Go]        the parts of the Go language and standard library the
                  package calls (integers, [path], [strings], [bytes.Reader],
                  [time], file modes);
    - [Assets]    [File], [FileSystem] and their methods, over a store of
                  [File] objects addressed by pointers;
    - [Gen]       the generator: the walk over the real directory tree, the
                  serializer with the [fmt] verbs it prints with, and the
                  scenarios used as examples;
    - the theorems, claim by claim (C1 to C10 of the specification). *)

From Stdlib Require Import ZArith Lia Ascii.
From stdpp Require Import base option list strings gmap fin_maps pretty.

Local Open Scope Z_scope.

#[local] Set Warnings "-clear-no-such-hyp".

(* ===================================================================== *)
(** * The Go side: language and library functions used by the package    *)
(* ===================================================================== *)

Module Go.

(** Go's [error] values that occur in the package or come out of the
    library calls it makes. *)
Inductive error : Type :=
| ErrInvalid                (* os.ErrInvalid, "invalid argument" *)
| ErrNotExist               (* os.ErrNotExist, "file does not exist" *)
| ErrPermission             (* os.ErrPermission, "permission denied" *)
| EOF                       (* io.EOF *)
| ErrSeekWhence             (* "bytes.Reader.Seek: invalid whence" *)
| ErrSeekNegative           (* "bytes.Reader.Seek: negative position" *)
| ErrOther (msg : string).  (* any other error value *)

#[global] Instance error_eq_dec : EqDecision error.
Proof. solve_decision. Defined.

(** A call either returns or panics (a run-time panic unwinds the caller:
    nothing is returned). *)
Inductive outcome (A : Type) : Type :=
| Returns (a : A)
| Panics (msg : string).
Arguments Returns {A} a.
Arguments Panics {A} msg.

(** ** Integers: [int] and [int64] are 64 bits wide, two's complement. *)

Definition min_int : Z := - 2 ^ 63.
Definition max_int : Z := 2 ^ 63 - 1.

Definition wrap64 (z : Z) : Z := (z + 2 ^ 63) mod 2 ^ 64 - 2 ^ 63.

Definition int_add (a b : Z) : Z := wrap64 (a + b).
Definition int_sub (a b : Z) : Z := wrap64 (a - b).
Definition int_mul (a b : Z) : Z := wrap64 (a * b).

(** [len] of a slice and of a string, as an [int]. *)
Definition len {A} (l : list A) : Z := Z.of_nat (length l).
Definition len_string (s : string) : Z := Z.of_nat (String.length s).

(** ** Characters used to build the emitted text *)

Definition dquote : ascii := "034"%char.
Definition backslash : ascii := "092"%char.
Definition slash : ascii := "047"%char.
Definition tab : string := String "009"%char EmptyString.
Definition nl : string := String "010"%char EmptyString.

(** ** Package [strings] *)

(** [s[n:]] on a string. *)
Fixpoint drop_string (n : nat) (s : string) : string :=
  match n, s with
  | O, _ => s
  | S n', String _ s' => drop_string n' s'
  | S _, EmptyString => EmptyString
  end.

(** [strings.HasPrefix(s, prefix)]. *)
Definition HasPrefix (s prefix : string) : bool := String.prefix prefix s.

(** [strings.TrimPrefix(s, prefix)]: [s] without the leading [prefix], and
    [s] itself when it does not start with [prefix]. *)
Definition TrimPrefix (s prefix : string) : string :=
  if HasPrefix s prefix then drop_string (String.length prefix) s else s.

(** ** Package [path] *)

(** The slash-separated elements of a path ([strings.Split(s, "/")]). *)
Fixpoint split_slash (s : string) : list string :=
  match s with
  | EmptyString => [EmptyString]
  | String c s' =>
      if Ascii.eqb c slash then EmptyString :: split_slash s'
      else match split_slash s' with
           | [] => [String c EmptyString]
           | h :: t => String c h :: t
           end
  end.

(** One element of the path pushed on the elements kept so far (kept in
    reverse): empty and [.] elements vanish, [..] removes the element before
    it, is dropped at the root of a rooted path and is kept at the front of
    a relative one. *)
Definition clean_step (rooted : bool) (rev_out : list string) (e : string)
  : list string :=
  if String.eqb e "" || String.eqb e "." then rev_out
  else if String.eqb e ".." then
    match rev_out with
    | top :: rest =>
        if String.eqb top ".." then e :: rev_out else rest
    | [] => if rooted then [] else [e]
    end
  else e :: rev_out.

(** [path.Clean]: the shortest path equivalent to [p] by lexical
    processing; the empty path becomes [.]. *)
Definition Clean (p : string) : string :=
  match p with
  | EmptyString => "."
  | String c _ =>
      let rooted := Ascii.eqb c slash in
      let out := rev (fold_left (clean_step rooted) (split_slash p) []) in
      let body := String.concat "/" out in
      if rooted then String slash body
      else if String.eqb body "" then "." else body
  end.

(** [path.Join(a, b)]: empty elements are ignored, the rest is joined by
    slashes and cleaned. *)
Definition Join (a b : string) : string :=
  if String.eqb a "" then (if String.eqb b "" then "" else Clean b)
  else if String.eqb b "" then Clean a
  else Clean (a +:+ "/" +:+ b).

(** [path.Split]: the path cut after its last slash. *)
Fixpoint Split (p : string) : string * string :=
  match p with
  | EmptyString => (EmptyString, EmptyString)
  | String c p' =>
      let '(d, f) := Split p' in
      if String.eqb d "" then
        if Ascii.eqb c slash then (String c EmptyString, p')
        else (EmptyString, String c p')
      else (String c d, f)
  end.

(** [path.Dir]: everything but the last element, cleaned. *)
Definition Dir (p : string) : string := Clean (fst (Split p)).

(** The string without its trailing slashes. *)
Fixpoint trim_trailing_slashes (p : string) : string :=
  match p with
  | EmptyString => EmptyString
  | String c p' =>
      let r := trim_trailing_slashes p' in
      if String.eqb r "" && Ascii.eqb c slash then EmptyString
      else String c r
  end.

(** [path.Base]: the last element of the path. *)
Definition Base (p : string) : string :=
  if String.eqb p "" then "."
  else
    let q := snd (Split (trim_trailing_slashes p)) in
    if String.eqb q "" then "/" else q.

(** ** Package [bytes]: [bytes.Reader] *)

Record Reader : Type := mkReader {
  r_s : list Byte.byte;   (* the slice being read; shared, never written *)
  r_i : Z                 (* current reading index, an int64 *)
}.

Definition NewReader (b : list Byte.byte) : Reader := mkReader b 0.

(** [r.Read(b)] with [n = len(b)]: the bytes copied into [b] (their number
    is the returned count) and the error. *)
Definition Reader_Read (r : Reader) (n : nat)
  : Reader * (list Byte.byte * option error) :=
  if len (r_s r) <=? r_i r then (r, ([], Some EOF))
  else
    let chunk := take n (drop (Z.to_nat (r_i r)) (r_s r)) in
    (mkReader (r_s r) (int_add (r_i r) (len chunk)), (chunk, None)).

(** [io.SeekStart], [io.SeekCurrent] and [io.SeekEnd]. *)
Definition SeekStart : Z := 0.
Definition SeekCurrent : Z := 1.
Definition SeekEnd : Z := 2.

Definition Reader_Seek (r : Reader) (offset whence : Z)
  : Reader * (Z * option error) :=
  let abs :=
    if whence =? SeekStart then Some offset
    else if whence =? SeekCurrent then Some (int_add (r_i r) offset)
    else if whence =? SeekEnd then Some (int_add (len (r_s r)) offset)
    else None in
  match abs with
  | None => (r, (0, Some ErrSeekWhence))
  | Some a =>
      if a <? 0 then (r, (0, Some ErrSeekNegative))
      else (mkReader (r_s r) a, (a, None))
  end.

(** ** Package [time] *)

(** A [time.Time] as the instant it denotes: whole seconds since the Unix
    epoch and the nanoseconds within that second, in [0, 999999999]. *)
Record Time : Type := mkTime {
  t_sec : Z;
  t_nsec : Z
}.

#[global] Instance Time_eq_dec : EqDecision Time.
Proof. solve_decision. Defined.

Definition wf_Time (t : Time) : Prop := 0 <= t_nsec t < 1000000000.

(** [t.Unix()]: seconds since the epoch. *)
Definition Time_Unix (t : Time) : Z := t_sec t.

(** [t.Nanosecond()]: the nanosecond offset within the second. *)
Definition Time_Nanosecond (t : Time) : Z := t_nsec t.

(** [t.UnixNano()]: the whole instant in nanoseconds since the epoch. *)
Definition Time_UnixNano (t : Time) : Z :=
  int_add (int_mul (t_sec t) 1000000000) (t_nsec t).

(** [time.Unix(sec, nsec)]: the instant [sec] seconds and [nsec]
    nanoseconds after the epoch; [nsec] outside [0, 999999999] is carried
    into the seconds. Go's [/] truncates toward zero. *)
Definition time_Unix (sec nsec : Z) : Time :=
  if (nsec <? 0) || (1000000000 <=? nsec) then
    let n := Z.quot nsec 1000000000 in
    let sec := int_add sec n in
    let nsec := int_sub nsec (int_mul n 1000000000) in
    if nsec <? 0 then mkTime (int_sub sec 1) (int_add nsec 1000000000)
    else mkTime sec nsec
  else mkTime sec nsec.

(** ** Package [os]: file modes *)

(** [os.ModeDir], bit 31 of the 32-bit mode. *)
Definition ModeDir : Z := 2 ^ 31.

(** [m.IsDir()] is [m&ModeDir != 0]. *)
Definition FileMode_IsDir (m : Z) : bool := negb (Z.land m ModeDir =? 0).

(** ** Package [go/format]: what [Source] refuses

    [format.Source] parses the text before it prints it again, and returns
    the parser's error for a text that is not a Go file. Of the parser only
    the package clause is modelled: after the keyword [package] and the
    letters, digits and underscores that follow it, the clause has to end
    (white space, a newline, a semicolon or a comment may follow); any other
    ASCII character there is a syntax error. A text that passes this test is
    handed to [rest], which stands for everything else [Source] does. *)

Definition ErrSyntax : error := ErrOther "syntax error".

Definition is_ident_char (c : ascii) : bool :=
  let n := N_of_ascii c in
  ((97 <=? n) && (n <=? 122) || (65 <=? n) && (n <=? 90)
   || (48 <=? n) && (n <=? 57) || (n =? 95))%N.

(** A character after which the clause may still be well formed: space,
    tab, carriage return, newline, semicolon, the slash that can open a
    comment, and the bytes of a character outside ASCII (which can be a
    letter). *)
Definition may_end_clause (c : ascii) : bool :=
  let n := N_of_ascii c in
  ((n =? 32) || (n =? 9) || (n =? 13) || (n =? 10) || (n =? 59) || (n =? 47)
   || (128 <=? n))%N.

Fixpoint clause_refused (s : string) : bool :=
  match s with
  | EmptyString => false
  | String c s' =>
      if is_ident_char c then clause_refused s'
      else negb (may_end_clause c)
  end.

Definition package_clause_refused (src : string) : bool :=
  HasPrefix src "package " && clause_refused (drop_string 8 src).

Definition Source_checking (rest : string -> error + string) (src : string)
  : error + string :=
  if package_clause_refused src then inl ErrSyntax else rest src.

End Go.

Import Go.

(* ===================================================================== *)
(** * file.go and filesystem.go                                           *)
(* ===================================================================== *)

Module Assets.

(** A [*File]: the address of a [File] object in the store. *)
Abbreviation ptr := positive (only parsing).

(** [type FileSystem struct]: [Files] maps a path to a [*File]. *)
Record FileSystem : Type := mkFileSystem {
  Dirs : gmap string (list string);
  Files : gmap string ptr;
  Compressed : bool
}.

(** [type File struct]. [fs] is the [*FileSystem] back reference ([None]
    is the nil pointer; the file system is never written after it is
    built, so the reference is modelled by the value it points to) and
    [buf] the [*bytes.Reader] ([None] is nil). *)
Record File : Type := mkFile {
  Path : string;
  FileMode : Z;
  MTime : Time;
  Data : list Byte.byte;
  fs : option FileSystem;
  buf : option Reader
}.

(** The store of [File] objects: what the [*File] pointers point to. *)
Abbreviation Store := (gmap positive File) (only parsing).

Definition set_buf (f : File) (b : option Reader) : File :=
  mkFile (Path f) (FileMode f) (MTime f) (Data f) (fs f) b.

(** ** Implementation of [os.FileInfo] *)

Definition Name (f : File) : string := Base (Path f).
Definition Mode (f : File) : Z := FileMode f.
Definition ModTime (f : File) : Time := MTime f.
Definition IsDir (f : File) : bool := FileMode_IsDir (FileMode f).
Definition Size (f : File) : Z := len (Data f).

(** ** Implementation of [http.File]

    Every method takes the receiver pointer and the store, and gives back
    the store after the call with what the call returned; dereferencing a
    pointer that is not in the store (nil) panics. *)

(** [func (f *File) Close() error]. *)
Definition Close (p : ptr) (st : Store) : Store * outcome (option error) :=
  match st !! p with
  | None => (st, Panics "nil pointer dereference")
  | Some f => (<[p := set_buf f None]> st, Returns None)
  end.

(** [func (f *File) Stat() (os.FileInfo, error)]: the receiver itself. *)
Definition Stat (p : ptr) (st : Store) : Store * outcome (ptr * option error) :=
  (st, Returns (p, None)).

(** The largest capacity [make] accepts for a slice of [os.FileInfo]: 16
    bytes an element within the [1 << 48] bytes that the runtime can
    allocate on a platform with 64-bit integers. Allocation below that
    limit is taken to succeed. *)
Definition max_cap : Z := 2 ^ 44.

(** [func (f *FileSystem) readDir(p string, index int, count int)]: the
    elements are the [*File] values found in [Files] (nil, here [None],
    for a name that has no entry). *)
Fixpoint readDir_loop (f : FileSystem) (p : string) (d : list string)
    (iterations : nat) (i : Z) (ret : list (option ptr))
  : outcome (list (option ptr)) :=
  match iterations with
  | O => Returns ret
  | S n =>
      if (i <? 0) || (len d <=? i) then Panics "index out of range"
      else
        match d !! Z.to_nat i with
        | None => Panics "index out of range"
        | Some name =>
            readDir_loop f p d n (i + 1) (ret ++ [Files f !! Join p name])
        end
  end.

Definition readDir (f : FileSystem) (p : string) (index count : Z)
  : outcome (list (option ptr) * option error) :=
  match Dirs f !! p with
  | Some d =>
      let maxl := int_add index count in
      let maxl := if len d <? maxl then len d else maxl in
      (* make([]os.FileInfo, 0, maxl-index) panics on a negative capacity
         and on one beyond what can be allocated; a capacity within the
         length of the listing, which is itself allocated, is not beyond *)
      let capacity := int_sub maxl index in
      if (capacity <? 0) || ((len d <? capacity) && (max_cap <? capacity))
      then Panics "makeslice: cap out of range"
      else
        (* for i := index; i < maxl; i++ *)
        match readDir_loop f p d (Z.to_nat (maxl - index)) index [] with
        | Returns ret => Returns (ret, None)
        | Panics m => Panics m
        end
  | None => Returns ([], Some ErrNotExist)
  end.

(** [func (f *File) Readdir(count int) ([]os.FileInfo, error)]. The source
    calls [f.fs.readDir(f.Path)] with the path only, although [readDir]
    declares [index] and [count]; the model takes the two missing
    arguments as [index] and [count]. *)
Definition Readdir (p : ptr) (index count : Z) (st : Store)
  : Store * outcome (list (option ptr) * option error) :=
  match st !! p with
  | None => (st, Panics "nil pointer dereference")
  | Some f =>
      if IsDir f then
        match fs f with
        | None => (st, Panics "nil pointer dereference")
        | Some fsys => (st, readDir fsys (Path f) index count)
        end
      else (st, Returns ([], Some ErrInvalid))
  end.

(** [if f.buf == nil { f.buf = bytes.NewReader(f.Data) }], common to
    [Read] and [Seek]. *)
Definition ensure_buf (f : File) : Reader :=
  match buf f with
  | None => NewReader (Data f)
  | Some r => r
  end.

(** [func (f *File) Read(data []byte) (int, error)], [n = len(data)]: the
    bytes stored in [data] and the error. *)
Definition Read (p : ptr) (n : nat) (st : Store)
  : Store * outcome (list Byte.byte * option error) :=
  match st !! p with
  | None => (st, Panics "nil pointer dereference")
  | Some f =>
      let '(r, res) := Reader_Read (ensure_buf f) n in
      (<[p := set_buf f (Some r)]> st, Returns res)
  end.

(** [func (f *File) Seek(offset int64, whence int) (int64, error)]. *)
Definition Seek (p : ptr) (offset whence : Z) (st : Store)
  : Store * outcome (Z * option error) :=
  match st !! p with
  | None => (st, Panics "nil pointer dereference")
  | Some f =>
      let '(r, res) := Reader_Seek (ensure_buf f) offset whence in
      (<[p := set_buf f (Some r)]> st, Returns res)
  end.

(** ** Implementation of [http.FileSystem] *)

(** [func (f *FileSystem) Open(path string) (http.File, error)]. [fi] is a
    [*File], so [ret := fi] copies the pointer: [ret.buf = ...] writes the
    [buf] field of the one [File] object that [Files] points to, and that
    same pointer is returned. *)
Definition Open (f : FileSystem) (path : string) (st : Store)
  : Store * outcome (option ptr * option error) :=
  match Files f !! path with
  | Some fi =>
      match st !! fi with
      | None => (st, Panics "nil pointer dereference")
      | Some obj =>
          if negb (IsDir obj) then
            let ret := fi in
            (<[ret := set_buf obj (Some (NewReader (Data obj)))]> st,
             Returns (Some ret, None))
          else (st, Returns (Some fi, None))
      end
  | None => (st, Returns (None, Some ErrNotExist))
  end.

(** The read position of a handle: what [Seek(0, io.SeekCurrent)] reports,
    read off the store without changing it. *)
Definition position (p : ptr) (st : Store) : option Z :=
  match st !! p with
  | None => None
  | Some f => Some (r_i (ensure_buf f))
  end.

(** Reading a handle to the end, as [io.ReadAll] does: [Read] into a buffer
    of [n] bytes until an error comes back; [io.EOF] ends the loop without
    error. [fuel] bounds the number of [Read] calls. *)
Fixpoint read_all (fuel : nat) (n : nat) (p : ptr) (st : Store)
    (acc : list Byte.byte)
  : Store * option (outcome (list Byte.byte * option error)) :=
  match fuel with
  | O => (st, None)
  | S fuel' =>
      match Read p n st with
      | (st', Panics m) => (st', Some (Panics m))
      | (st', Returns (chunk, None)) => read_all fuel' n p st' (acc ++ chunk)
      | (st', Returns (chunk, Some e)) =>
          (st', Some (Returns (acc ++ chunk,
                               if decide (e = EOF) then None else Some e)))
      end
  end.

(** The entry that [readDir] resolves a listed name to. *)
Definition resolve (f : FileSystem) (p : string) (name : string) : option ptr :=
  Files f !! Join p name.

(** A [File] whose reader, when there is one, reads the file's own data
    from a position that [Seek] can have produced. *)
Definition wf_File (f : File) : Prop :=
  match buf f with
  | None => True
  | Some r => r_s r = Data f /\ 0 <= r_i r
  end.

(** ** Small file systems for the examples *)

(** A directory ["/"] that lists one child. *)
Definition one_child_fs : FileSystem :=
  mkFileSystem {[ "/" := ["a"] ]} {[ "/" := 1%positive; "/a" := 2%positive ]} false.

(** A file system with the one regular file ["/b.txt"], content "hi". *)
Definition hi_bytes : list Byte.byte := [Byte.x68; Byte.x69].
Definition hi_file : File :=
  mkFile "/b.txt" 420 (mkTime 0 0) hi_bytes None None.
Definition hi_fs : FileSystem :=
  mkFileSystem ∅ {[ "/b.txt" := 1%positive ]} false.
Definition hi_store : Store := {[ 1%positive := hi_file ]}.

(** A file system with the directory ["/"] and the regular file
    ["/b.txt"], as the generated initialization builds them: no reader, no
    data in the directory. *)
Definition root_dir : File :=
  mkFile "/" (ModeDir + 493) (mkTime 0 0) [] None None.
Definition dir_fs : FileSystem :=
  mkFileSystem {[ "/" := ["b.txt"] ]}
                      {[ "/" := 1%positive; "/b.txt" := 2%positive ]} false.
Definition dir_store : gmap positive File :=
  {[ 1%positive := root_dir; 2%positive := hi_file ]}.

(** [func (f *FileSystem) NewFile(path string, filemode os.FileMode,
    mtime time.Time, data []byte) *File]: a new [File] object with the back
    reference set and no reader, and the pointer to it. (The source spells
    the third field [Mtime] in the literal; the struct declares [MTime].) *)
Definition NewFile (f : FileSystem) (path : string) (filemode : Z)
    (mtime : Time) (data : list Byte.byte) (st : Store) : Store * ptr :=
  let p := fresh (dom st) in
  (<[p := mkFile path filemode mtime data (Some f) None]> st, p).

(** Two [File] objects that differ at most in their reader. *)
Definition same_file (f g : File) : Prop :=
  Path f = Path g /\ FileMode f = FileMode g /\ MTime f = MTime g /\
  Data f = Data g /\ fs f = fs g.

(** Two stores with the same objects up to their readers. *)
Definition same_files (st st' : Store) : Prop :=
  forall q : ptr,
    match st !! q, st' !! q with
    | Some f, Some g => same_file f g
    | None, None => True
    | _, _ => False
    end.

(** A store in which every reader is well formed and every [Data] slice
    has a length that fits an [int]. *)
Definition wf_store (st : Store) : Prop :=
  forall (q : ptr) (f : File),
    st !! q = Some f -> wf_File f /\ len (Data f) <= max_int.

End Assets.

(* ===================================================================== *)
(** * The generator                                                       *)
(* ===================================================================== *)

Module Gen.

(** Line numbers in this module are those of the source file that declares
    [type Generator]. *)

(** An [os.FileInfo] of the real file system. *)
Record FileInfo : Type := mkFileInfo {
  fi_Name : string;
  fi_Size : Z;
  fi_Mode : Z;
  fi_ModTime : Time
}.

Definition fi_IsDir (i : FileInfo) : bool := FileMode_IsDir (fi_Mode i).

(** The real directory tree as the walk meets it. A node carries its
    [os.FileInfo] and, consulted only when the node is a directory, what
    the operating system answers for it: the error of [os.Open(p)] ([None]
    when the directory opens) and the result of [Readdir(-1)] on the opened
    directory, entries in enumeration order and error. *)
#[warnings="-register-all"]
Inductive node : Type :=
| Node (info : FileInfo) (open_err : option error)
       (entries : list node) (readdir_err : option error).

Definition node_info (n : node) : FileInfo :=
  match n with Node info _ _ _ => info end.

(** [type Generator struct]; a nil map is [None]. *)
Record Generator : Type := mkGenerator {
  PackageName : string;
  VariableName : string;
  Compressed : bool;
  StripPrefix : string;
  fsDirsMap : option (gmap string (list string));
  fsFilesMap : option (gmap string FileInfo)
}.

(** Reading a map that may be nil: a nil map reads as the empty map. *)
Definition dirs_of (x : Generator) : gmap string (list string) :=
  default ∅ (fsDirsMap x).
Definition files_of (x : Generator) : gmap string FileInfo :=
  default ∅ (fsFilesMap x).

Definition set_dirs (x : Generator) (m : gmap string (list string)) : Generator :=
  mkGenerator (PackageName x) (VariableName x) (Compressed x) (StripPrefix x)
              (Some m) (fsFilesMap x).
Definition set_files (x : Generator) (m : gmap string FileInfo) : Generator :=
  mkGenerator (PackageName x) (VariableName x) (Compressed x) (StripPrefix x)
              (fsDirsMap x) (Some m).

(** [x.fsDirsMap[k]]: the nil slice for a missing key. *)
Definition listing (x : Generator) (k : string) : list string :=
  default [] (dirs_of x !! k).

(** [Readdir] of [os.File] returns [os.ErrInvalid] on a nil receiver. The
    source overwrites the error of [os.Open] with the error of [Readdir]
    before looking at it, so this is the only error that is ever examined. *)
Definition readdir_error (open_err readdir_err : option error) : option error :=
  match open_err with
  | Some _ => Some ErrInvalid
  | None => readdir_err
  end.

(** Lines 40-48 of [addPath]: both maps allocated, [info] stored under
    [p]. *)
Definition registered (x : Generator) (p : string) (info : FileInfo) : Generator :=
  let x := set_files x (files_of x) in
  let x := set_dirs x (dirs_of x) in
  set_files x (<[p := info]> (files_of x)).

(** [func (x *Generator) addPath(parent string, info os.FileInfo) error].
    The generator is returned together with the error: what was registered
    before an error stays registered. *)
Fixpoint addPath (x : Generator) (parent : string) (n : node) {struct n}
  : Generator * option error :=
  match n with
  | Node info open_err entries readdir_err =>
      let p := Join parent (fi_Name info) in
      let x := registered x p info in
      if fi_IsDir info then
        match readdir_error open_err readdir_err with
        | Some err => (x, Some err)
        | None =>
            let x := set_dirs x (<[p := []]> (dirs_of x)) in
            (fix range (x : Generator) (fi : list node) {struct fi}
               : Generator * option error :=
               match fi with
               | [] => (x, None)
               | f :: fi' =>
                   match addPath x p f with
                   | (x', Some err) => (x', Some err)
                   | (x', None) => range x' fi'
                   end
               end) x entries
        end
      else
        (set_dirs x (<[parent := listing x parent ++ [fi_Name info]]> (dirs_of x)),
         None)
  end.

(** The [for _, f := range fi] loop of [addPath], by name. *)
Fixpoint addPath_range (x : Generator) (p : string) (fi : list node)
  : Generator * option error :=
  match fi with
  | [] => (x, None)
  | f :: fi' =>
      match addPath x p f with
      | (x', Some err) => (x', Some err)
      | (x', None) => addPath_range x' p fi'
      end
  end.

(** [func (x *Generator) Add(p string) error]; [os_Stat] is [os.Stat] on the
    real file system: the node found at a path, or the error. *)
Definition Add (os_Stat : string -> error + node) (x : Generator) (p : string)
  : Generator * option error :=
  let p := Clean p in
  match os_Stat p with
  | inl err => (x, Some err)
  | inr n => addPath x (Dir p) n
  end.

(** ** [Generator.Write] *)

(** What [Write] calls outside the package. *)
Record Env : Type := mkEnv {
  (* os.Open(k) and reading the file to its end (io.Copy or ioutil.ReadAll):
     the content, or the first error *)
  read_file : string -> error + list Byte.byte;
  (* the bytes a gzip.Writer has written when it is closed *)
  gzip_bytes : list Byte.byte -> list Byte.byte;
  (* fmt's %x of the SHA-1 sum of a string *)
  sha1_hex : string -> string;
  (* fmt's %#v of a string: the Go-syntax quoted string *)
  Quote : string -> string;
  (* go/format's Source *)
  format_Source : string -> error + string
}.

(** The order in which each [range] over a map meets the entries, which Go
    leaves unspecified, and the order in which fmt prints the entries of a
    map (the range order in older releases of Go, the order of the keys
    since Go 1.12; any order is allowed here). *)
Record Schedule : Type := mkSchedule {
  range_blobs : list (string * FileInfo);        (* lines 119-160 *)
  range_dirs : list (string * list string);      (* lines 180-198 *)
  print_dirs : list (string * list string);      (* %#v of dirmap, line 200 *)
  range_files : list (string * FileInfo)         (* lines 204-224 *)
}.

Fixpoint tabs (n : nat) : string :=
  match n with
  | O => EmptyString
  | S n' => tab +:+ tabs n'
  end.

Definition quoted (s : string) : string :=
  String dquote s +:+ String dquote EmptyString.

(** fmt's [%#v] of an [int64]: decimal. *)
Definition fmt_int64 (z : Z) : string := pretty z.

(** fmt's [%#v] of a [bool]. *)
Definition fmt_bool (b : bool) : string := if b then "true" else "false".

Definition hex_digit (d : N) : ascii :=
  match d with
  | 0%N => "0" | 1%N => "1" | 2%N => "2" | 3%N => "3" | 4%N => "4"
  | 5%N => "5" | 6%N => "6" | 7%N => "7" | 8%N => "8" | 9%N => "9"
  | 10%N => "a" | 11%N => "b" | 12%N => "c" | 13%N => "d" | 14%N => "e"
  | _ => "f"
  end%char.

Fixpoint hex_go (fuel : nat) (n : N) (acc : string) : string :=
  match fuel with
  | O => acc
  | S fuel' =>
      let acc := String (hex_digit (n mod 16)%N) acc in
      if (n / 16 =? 0)%N then acc else hex_go fuel' (n / 16)%N acc
  end.

(** fmt's [%#v] of an [os.FileMode] (a [uint32] without [GoString]):
    [0x] and the lower-case hexadecimal digits. *)
Definition fmt_FileMode (m : Z) : string :=
  "0x" +:+ hex_go 16 (Z.to_N m) EmptyString.

(** fmt's [%#v] of a [[]string] and of a [map[string][]string]. *)
Definition fmt_strings (E : Env) (v : list string) : string :=
  "[]string{" +:+ String.concat ", " (map (Quote E) v) +:+ "}".

Definition fmt_dirmap (E : Env) (kvs : list (string * list string)) : string :=
  "map[string][]string{" +:+
  String.concat ", " (map (fun kv => Quote E kv.1 +:+ ":" +:+ fmt_strings E kv.2) kvs)
  +:+ "}".

(** Lines 105-110: package clause and imports. *)
Definition header (p : string) : string :=
  "package " +:+ p +:+ nl +:+ nl +:+
  "import (" +:+ nl +:+
  tab +:+ quoted "github.com/jessevdk/go-assets" +:+ nl +:+
  tab +:+ quoted "time" +:+ nl +:+
  ")" +:+ nl +:+
  nl.

(** Line 159: one embedded blob. *)
Definition blob_decl (E : Env) (vname : string) (data : list Byte.byte) : string :=
  "var " +:+ vname +:+ " = []byte(" +:+ Quote E (String.string_of_list_byte data) +:+ ")" +:+ nl.

(** Line 156. *)
Definition blob_name (E : Env) (variableName k : string) : string :=
  "__" +:+ variableName +:+ sha1_hex E k.

(** Lines 119-160: the loop over [x.fsFilesMap] that reads the files and
    writes the blobs; an unreadable file ends [Write] with its error. *)
Fixpoint write_blobs (E : Env) (compressed : bool) (variableName : string)
    (kvs : list (string * FileInfo)) (vnames : gmap string string) (w : string)
  : error + (gmap string string * string) :=
  match kvs with
  | [] => inr (vnames, w)
  | (k, v) :: rest =>
      if fi_IsDir v then write_blobs E compressed variableName rest vnames w
      else
        match read_file E k with
        | inl err => inl err
        | inr content =>
            let data := if compressed then gzip_bytes E content else content in
            let vname := blob_name E variableName k in
            write_blobs E compressed variableName rest
                        (<[k := vname]> vnames)
                        (w +:+ blob_decl E vname data)
        end
  end.

(** Lines 184-188: a listed name as it is emitted. *)
Definition listed_name (prefix vi : string) : string :=
  let vvi := TrimPrefix vi prefix in
  if len_string vvi =? 0 then "/" else vvi.

(** Lines 191-195: a key of the directory map as it is emitted. *)
Definition dir_key (prefix k : string) : string :=
  let kk := TrimPrefix k prefix in
  if len_string kk =? 0 then "/" else kk.

(** Lines 205-209: a key of the [Files] map as it is emitted. *)
Definition file_key (prefix k : string) : string :=
  let kk := TrimPrefix k prefix in
  if len_string kk =? 0 then "/" else kk.

(** Lines 178-198: [dirmap], built in the order the range meets the keys
    (a later key that strips to the same string overwrites). *)
Definition build_dirmap (prefix : string) (kvs : list (string * list string))
  : gmap string (list string) :=
  fold_left (fun dirmap kv =>
               <[dir_key prefix kv.1 := map (listed_name prefix) kv.2]> dirmap)
            kvs ∅.

(** One [&assets.File{...}] literal of the emitted [Files] map: its key
    and fields. [lit_MTime] holds the two arguments of the emitted call
    [time.Unix(_, _)]; [lit_Data] is the blob variable named, when there is
    a [Data] field. *)
Record FileLit : Type := mkFileLit {
  lit_key : string;
  lit_Path : string;
  lit_FileMode : Z;
  lit_MTime : Z * Z;
  lit_Data : option string
}.

(** Lines 205-221: the literal for one entry of [x.fsFilesMap]. *)
Definition entry_lit (prefix : string) (vnames : gmap string string)
    (k : string) (v : FileInfo) : FileLit :=
  let kk := file_key prefix k in
  let mt := fi_ModTime v in
  mkFileLit kk kk (fi_Mode v) (Time_Unix mt, Time_UnixNano mt)
            (if negb (fi_IsDir v) then Some (default EmptyString (vnames !! k))
             else None).

(** Lines 211-223: the text of one literal. *)
Definition print_entry (E : Env) (l : FileLit) : string :=
  tabs 3 +:+ Quote E (lit_key l) +:+ ": &assets.File{" +:+ nl +:+
  tabs 4 +:+ "Path:     " +:+ Quote E (lit_Path l) +:+ "," +:+ nl +:+
  tabs 4 +:+ "FileMode: " +:+ fmt_FileMode (lit_FileMode l) +:+ "," +:+ nl +:+
  tabs 4 +:+ "MTime:    time.Unix(" +:+ fmt_int64 (lit_MTime l).1 +:+ ", "
         +:+ fmt_int64 (lit_MTime l).2 +:+ ")," +:+ nl +:+
  match lit_Data l with
  | Some vname => tabs 4 +:+ "Data:     " +:+ vname +:+ "," +:+ nl
  | None => EmptyString
  end +:+
  tabs 3 +:+ "}," +:+ nl.

(** The literals of the emitted [Files] map, in emission order. *)
Definition entry_lits (prefix : string) (vnames : gmap string string)
    (kvs : list (string * FileInfo)) : list FileLit :=
  map (fun kv => entry_lit prefix vnames kv.1 kv.2) kvs.

(** Lines 204-224. *)
Definition write_entries (E : Env) (prefix : string) (vnames : gmap string string)
    (kvs : list (string * FileInfo)) (w : string) : string :=
  fold_left (fun w kv => w +:+ print_entry E (entry_lit prefix vnames kv.1 kv.2))
            kvs w.

(** Lines 90-100: an option left empty takes its default. *)
Definition or_default (option_value fallback : string) : string :=
  if len_string option_value =? 0 then fallback else option_value.

(** Lines 90-229: the text in [writer] when [format.Source] is called, or
    the error that ended [Write] before. *)
Definition Write_buffer (E : Env) (x : Generator) (s : Schedule) : error + string :=
  let p := or_default (PackageName x) "main" in
  let variableName := or_default (VariableName x) "Assets" in
  let w := header p in
  let blobs :=
    match fsFilesMap x with
    | Some _ =>
        match write_blobs E (Compressed x) variableName (range_blobs s) ∅ w with
        | inl err => inl err
        | inr (vnames, w) => inr (vnames, w +:+ nl)
        end
    | None => inr (∅, w)
    end in
  match blobs with
  | inl err => inl err
  | inr (vnames, w) =>
      let w := w +:+ "var " +:+ variableName +:+ " assets.FileSystem" +:+ nl +:+ nl in
      let w := w +:+ "func init() {" +:+ nl in
      let w := w +:+ tab +:+ variableName +:+ " = assets.FileSystem{" +:+ nl in
      let w := w +:+ tabs 2 +:+ "Dirs: " +:+ fmt_dirmap E (print_dirs s) +:+ "," +:+ nl in
      let w := w +:+ tabs 2 +:+ "Files: map[string]*assets.File{" +:+ nl in
      let w := write_entries E (StripPrefix x) vnames (range_files s) w in
      let w := w +:+ tabs 2 +:+ "}," +:+ nl in
      let w := w +:+ tabs 2 +:+ "Compressed: " +:+ fmt_bool (Compressed x) +:+ "," +:+ nl in
      let w := w +:+ tab +:+ "}" +:+ nl in
      inr (w +:+ "}" +:+ nl)
  end.

(** [func (x *Generator) Write(wr io.Writer) error]: the error, or the text
    handed to [wr.Write]. Lines 170-176 leave both maps of the generator
    allocated once the blobs are written. *)
Definition Write (E : Env) (x : Generator) (s : Schedule)
  : Generator * (error + string) :=
  match Write_buffer E x s with
  | inl err => (x, inl err)
  | inr w =>
      let x := set_dirs x (dirs_of x) in
      let x := set_files x (files_of x) in
      (x, format_Source E w)
  end.

(** A schedule the language allows for [x]: every range meets each entry
    of its map exactly once, in some order. *)
Definition valid_schedule (x : Generator) (s : Schedule) : Prop :=
  range_blobs s ≡ₚ map_to_list (files_of x) ∧
  range_dirs s ≡ₚ map_to_list (dirs_of x) ∧
  print_dirs s ≡ₚ map_to_list (build_dirmap (StripPrefix x) (range_dirs s)) ∧
  range_files s ≡ₚ map_to_list (files_of x).

(** What a run of [Write] can return. *)
Definition Write_returns (E : Env) (x : Generator) (r : error + string) : Prop :=
  ∃ s, valid_schedule x s ∧ (Write E x s).2 = r.

(** ** Executing the emitted initialization *)

(** The [File] that one emitted literal denotes when [init] runs: the
    fields are the literal's values, [MTime] is the value of the emitted
    call [time.Unix(_, _)], [Data] is the value of the blob variable named
    ([blobs] maps a variable name to its bytes); the unexported fields are
    left nil. *)
Definition init_File (blobs : gmap string (list Byte.byte)) (l : FileLit)
  : Assets.File :=
  Assets.mkFile (lit_Path l) (lit_FileMode l)
                (time_Unix (lit_MTime l).1 (lit_MTime l).2)
                (match lit_Data l with
                 | Some vname => default [] (blobs !! vname)
                 | None => []
                 end)
                None None.

(** ** The walk, seen from outside *)

Definition is_file (n : node) : bool := negb (fi_IsDir (node_info n)).
Definition node_name (n : node) : string := fi_Name (node_info n).

(** The names [addPath] appends to the listing of a directory whose
    enumeration is [entries]: those of the entries that are not
    directories, in enumeration order. *)
Definition file_names (entries : list node) : list string :=
  map node_name (filter (fun c => is_file c = true) entries).

(** The directories that a walk of [n] under [parent] enters when no error
    stops it: the path each is registered under and its enumeration. *)
Fixpoint walked_dirs (parent : string) (n : node) : list (string * list node) :=
  match n with
  | Node info _ entries _ =>
      if fi_IsDir info then
        let p := Join parent (fi_Name info) in
        (p, entries) :: flat_map (walked_dirs p) entries
      else []
  end.

(** Every path that such a walk registers. *)
Fixpoint walked_paths (parent : string) (n : node) : list string :=
  match n with
  | Node info _ entries _ =>
      let p := Join parent (fi_Name info) in
      if fi_IsDir info then p :: flat_map (walked_paths p) entries
      else [p]
  end.

(** ** A concrete environment for the examples *)

Definition hex_byte (n : N) : string :=
  String (hex_digit (n / 16)%N) (String (hex_digit (n mod 16)%N) EmptyString).

(** [strconv.Quote] on one byte of an ASCII string. *)
Definition quote_char (c : ascii) : string :=
  let n := N_of_ascii c in
  if Ascii.eqb c dquote then String backslash (String dquote EmptyString)
  else if Ascii.eqb c backslash then String backslash (String backslash EmptyString)
  else if ((32 <=? n) && (n <=? 126))%N then String c EmptyString
  else if (n =? 7)%N then String backslash "a"
  else if (n =? 8)%N then String backslash "b"
  else if (n =? 12)%N then String backslash "f"
  else if (n =? 10)%N then String backslash "n"
  else if (n =? 13)%N then String backslash "r"
  else if (n =? 9)%N then String backslash "t"
  else if (n =? 11)%N then String backslash "v"
  else String backslash (String "x" (hex_byte n)).

Fixpoint quote_chars (s : string) : string :=
  match s with
  | EmptyString => EmptyString
  | String c s' => quote_char c +:+ quote_chars s'
  end.

(** [strconv.Quote] for strings of ASCII bytes (a byte above 127 is
    escaped as Go escapes a byte that is not part of a valid UTF-8
    sequence). *)
Definition Quote_ascii (s : string) : string := quoted (quote_chars s).

(** An environment for examples in which no regular file is serialized:
    no file can be read, and [format.Source] accepts the text and leaves
    its layout as it is. The gzip and SHA-1 fields are never called in such
    examples. *)
Definition bare_env : Env :=
  mkEnv (fun _ => inl ErrNotExist) (fun b => b) (fun _ => EmptyString)
        Quote_ascii (fun w => inr w).

(** ** The scenario of the specification: directory [a] with the file
    [a/b.txt] and the empty directory [a/c], prefix ["a"]. *)
Definition scenario_b : node :=
  Node (mkFileInfo "b.txt" 2 420 (mkTime 1700000000 5)) None [] None.
Definition scenario_c : node :=
  Node (mkFileInfo "c" 4096 (ModeDir + 493) (mkTime 1700000000 5)) None [] None.
Definition scenario_a : node :=
  Node (mkFileInfo "a" 4096 (ModeDir + 493) (mkTime 1700000000 5)) None
       [scenario_b; scenario_c] None.
Definition scenario_Stat (p : string) : error + node :=
  if String.eqb p "a" then inr scenario_a else inl ErrNotExist.
Definition scenario_gen : Generator :=
  mkGenerator EmptyString EmptyString false "a" None None.
Definition scenario_collected : Generator :=
  (Add scenario_Stat scenario_gen "a").1.

(** The same tree with a subdirectory [a/c] that cannot be opened. *)
Definition locked_c : node :=
  Node (mkFileInfo "c" 4096 (ModeDir + 448) (mkTime 1700000000 5))
       (Some ErrPermission) [] None.
Definition locked_a : node :=
  Node (mkFileInfo "a" 4096 (ModeDir + 493) (mkTime 1700000000 5)) None
       [scenario_b; locked_c] None.
Definition locked_Stat (p : string) : error + node :=
  if String.eqb p "a" then inr locked_a else inl ErrNotExist.

(** The enumeration of every map in the order [map_to_list] gives: one of
    the schedules the language allows. *)
Definition default_schedule (x : Generator) : Schedule :=
  mkSchedule (map_to_list (files_of x)) (map_to_list (dirs_of x))
             (map_to_list (build_dirmap (StripPrefix x) (map_to_list (dirs_of x))))
             (map_to_list (files_of x)).

(** The text written for a generator without any path, package [p],
    variable [v]. *)
Definition empty_source (p v : string) (compressed : bool) : string :=
  "package " +:+ p +:+ nl +:+
  nl +:+
  "import (" +:+ nl +:+
  tab +:+ quoted "github.com/jessevdk/go-assets" +:+ nl +:+
  tab +:+ quoted "time" +:+ nl +:+
  ")" +:+ nl +:+
  nl +:+
  "var " +:+ v +:+ " assets.FileSystem" +:+ nl +:+
  nl +:+
  "func init() {" +:+ nl +:+
  tab +:+ v +:+ " = assets.FileSystem{" +:+ nl +:+
  tab +:+ tab +:+ "Dirs: map[string][]string{}," +:+ nl +:+
  tab +:+ tab +:+ "Files: map[string]*assets.File{" +:+ nl +:+
  tab +:+ tab +:+ "}," +:+ nl +:+
  tab +:+ tab +:+ "Compressed: " +:+ (if compressed then "true" else "false") +:+ "," +:+ nl +:+
  tab +:+ "}" +:+ nl +:+
  "}" +:+ nl.

(** The text written for a generator without any path whose maps an
    earlier [Write] has left allocated: the section of the blobs, empty,
    still ends in its blank line (line 162). *)
Definition empty_source_again (p v : string) (compressed : bool) : string :=
  "package " +:+ p +:+ nl +:+
  nl +:+
  "import (" +:+ nl +:+
  tab +:+ quoted "github.com/jessevdk/go-assets" +:+ nl +:+
  tab +:+ quoted "time" +:+ nl +:+
  ")" +:+ nl +:+
  nl +:+
  nl +:+
  "var " +:+ v +:+ " assets.FileSystem" +:+ nl +:+
  nl +:+
  "func init() {" +:+ nl +:+
  tab +:+ v +:+ " = assets.FileSystem{" +:+ nl +:+
  tab +:+ tab +:+ "Dirs: map[string][]string{}," +:+ nl +:+
  tab +:+ tab +:+ "Files: map[string]*assets.File{" +:+ nl +:+
  tab +:+ tab +:+ "}," +:+ nl +:+
  tab +:+ tab +:+ "Compressed: " +:+ (if compressed then "true" else "false") +:+ "," +:+ nl +:+
  tab +:+ "}" +:+ nl +:+
  "}" +:+ nl.

(** ** The text of a successful [Write], piece by piece *)

(** The blob declaration that the loop of lines 119-160 writes when it
    meets one entry of [x.fsFilesMap]: none for a directory. *)
Definition blob_of (E : Env) (compressed : bool) (variableName : string)
    (kv : string * FileInfo) : option string :=
  if fi_IsDir kv.2 then None
  else match read_file E kv.1 with
       | inl _ => None
       | inr content =>
           Some (blob_decl E (blob_name E variableName kv.1)
                           (if compressed then gzip_bytes E content else content))
       end.

Definition blob_decls (E : Env) (compressed : bool) (variableName : string)
    (kvs : list (string * FileInfo)) : list string :=
  omap (blob_of E compressed variableName) kvs.

(** [vnames] once the loop has met every entry: the regular files, each
    with the name of its blob variable. *)
Definition blob_vnames (E : Env) (variableName : string) (m : gmap string FileInfo)
  : gmap string string :=
  map_imap (fun k v => if fi_IsDir v then None
                       else Some (blob_name E variableName k)) m.

Definition concat_all (l : list string) : string :=
  fold_right String.append EmptyString l.

(** The whole text: header, blob declarations (with the empty line that
    follows them when [fsFilesMap] is not nil), variable, [init] with the
    printed directory map and the entry literals. *)
Definition assemble (p variableName : string) (blobs : option (list string))
    (dirs : string) (entries : list string) (compressed : bool) : string :=
  header p +:+
  match blobs with
  | Some decls => concat_all decls +:+ nl
  | None => EmptyString
  end +:+
  "var " +:+ variableName +:+ " assets.FileSystem" +:+ nl +:+ nl +:+
  "func init() {" +:+ nl +:+
  tab +:+ variableName +:+ " = assets.FileSystem{" +:+ nl +:+
  tabs 2 +:+ "Dirs: " +:+ dirs +:+ "," +:+ nl +:+
  tabs 2 +:+ "Files: map[string]*assets.File{" +:+ nl +:+
  concat_all entries +:+
  tabs 2 +:+ "}," +:+ nl +:+
  tabs 2 +:+ "Compressed: " +:+ fmt_bool compressed +:+ "," +:+ nl +:+
  tab +:+ "}" +:+ nl +:+
  "}" +:+ nl.

(** The text of a run of [Write] on [x] that follows the schedule [s] and
    reads every file. *)
Definition serialized (E : Env) (x : Generator) (s : Schedule) : string :=
  let variableName := or_default (VariableName x) "Assets" in
  assemble (or_default (PackageName x) "main") variableName
           (match fsFilesMap x with
            | Some _ => Some (blob_decls E (Compressed x) variableName (range_blobs s))
            | None => None
            end)
           (fmt_dirmap E (print_dirs s))
           (print_entry E <$>
              entry_lits (StripPrefix x) (blob_vnames E variableName (files_of x))
                         (range_files s))
           (Compressed x).

(** No two directory paths of the collector strip to the same key. *)
Definition dir_keys_distinct (x : Generator) : Prop :=
  forall k1 k2, k1 ∈ dom (dirs_of x) -> k2 ∈ dom (dirs_of x) ->
                dir_key (StripPrefix x) k1 = dir_key (StripPrefix x) k2 -> k1 = k2.

(** The scenario without its file: the two directories [a] and [a/c]. A
    second run may meet the two entries of [fsFilesMap] in the other order
    when it writes the [Files] literals. *)
Definition two_dirs : Generator :=
  (addPath scenario_gen "." (Node (node_info scenario_a) None [scenario_c] None)).1.
Definition two_dirs_swapped : Schedule :=
  let s := default_schedule two_dirs in
  mkSchedule (range_blobs s) (range_dirs s) (print_dirs s) (rev (range_files s)).

(** An entry of [x.fsFilesMap] that does not stop the loop of lines
    119-160: a directory, or a file that can be read. *)
Definition readable (E : Env) (kv : string * FileInfo) : Prop :=
  fi_IsDir kv.2 = true \/ exists content, read_file E kv.1 = inr content.

(** [vnames] after that loop has met the entries [kvs]. *)
Definition vnames_after (E : Env) (variableName : string)
    (kvs : list (string * FileInfo)) (vnames : gmap string string)
  : gmap string string :=
  fold_left (fun acc kv => if fi_IsDir kv.2 then acc
                           else <[kv.1 := blob_name E variableName kv.1]> acc)
            kvs vnames.

(** ** The effect of a walk on the two maps *)

(** What a successful walk of [n] under [parent] from [x] to [x'] does. *)
Definition walk_effect (n : node) : Prop :=
  forall (x : Generator) (parent : string) (x' : Generator),
    addPath x parent n = (x', None) ->
    (* the entries: nothing is lost, every path of the walk is registered *)
    ((forall q, q ∈ dom (files_of x) -> q ∈ dom (files_of x')) /\
     (forall q, q ∈ walked_paths parent n -> q ∈ dom (files_of x'))) /\
    (* a file: its name is appended to the listing of [parent] *)
    (is_file n = true ->
     dirs_of x' = <[parent := listing x parent ++ [node_name n]]> (dirs_of x)) /\
    (* a directory: only the listings of the directories walked change,
       and each ends up with the names of its own files *)
    (is_file n = false ->
     (forall q, q ∉ (walked_dirs parent n).*1 -> dirs_of x' !! q = dirs_of x !! q) /\
     (NoDup (walked_dirs parent n).*1 ->
      forall q es, (q, es) ∈ walked_dirs parent n ->
                   dirs_of x' !! q = Some (file_names es))).

(** The same for the loop over the entries of a directory [p]. *)
Definition range_effect (p : string) (entries : list node) : Prop :=
  forall (x x' : Generator),
    addPath_range x p entries = (x', None) ->
    ((forall q, q ∈ dom (files_of x) -> q ∈ dom (files_of x')) /\
     (forall q, q ∈ flat_map (walked_paths p) entries -> q ∈ dom (files_of x'))) /\
    (forall q, q ≠ p -> q ∉ (flat_map (walked_dirs p) entries).*1 ->
               dirs_of x' !! q = dirs_of x !! q) /\
    (NoDup (p :: (flat_map (walked_dirs p) entries).*1) ->
     (forall l0, dirs_of x !! p = Some l0 ->
                 dirs_of x' !! p = Some (l0 ++ file_names entries)) /\
     (forall q es, (q, es) ∈ flat_map (walked_dirs p) entries ->
                   dirs_of x' !! q = Some (file_names es))).

(** ** More views of the walk and of the emitted declarations *)

(** The options of a generator, which no method writes. *)
Definition same_options (x x' : Generator) : Prop :=
  PackageName x' = PackageName x /\ VariableName x' = VariableName x /\
  Compressed x' = Compressed x /\ StripPrefix x' = StripPrefix x.

(** Both maps of the generator are allocated. *)
Definition allocated (x : Generator) : Prop :=
  is_Some (fsDirsMap x) /\ is_Some (fsFilesMap x).

(** Every path that a walk of [n] under [parent] registers when no error
    stops it, with the [os.FileInfo] stored under it. *)
Fixpoint walked_entries (parent : string) (n : node) : list (string * FileInfo) :=
  match n with
  | Node info _ entries _ =>
      let p := Join parent (fi_Name info) in
      if fi_IsDir info then (p, info) :: flat_map (walked_entries p) entries
      else [(p, info)]
  end.

(** The variable that the loop of lines 119-160 declares when it meets one
    entry of [x.fsFilesMap], and the bytes the declaration gives it (the
    quoted literal of line 159 denotes the bytes it was printed from). *)
Definition blob_value (E : Env) (compressed : bool) (variableName : string)
    (kv : string * FileInfo) : option (string * list Byte.byte) :=
  if fi_IsDir kv.2 then None
  else match read_file E kv.1 with
       | inl _ => None
       | inr content =>
           Some (blob_name E variableName kv.1,
                 if compressed then gzip_bytes E content else content)
       end.

(** The package-level variables of the emitted file once it is
    initialized: each blob variable with its bytes. *)
Definition declared_blobs (E : Env) (compressed : bool) (variableName : string)
    (kvs : list (string * FileInfo)) : gmap string (list Byte.byte) :=
  list_to_map (omap (blob_value E compressed variableName) kvs).

(** No two registered paths get the same blob variable (the SHA-1 sums of
    two registered paths differ). *)
Definition blob_names_distinct (E : Env) (x : Generator) : Prop :=
  let variableName := or_default (VariableName x) "Assets" in
  forall k1 k2, k1 ∈ dom (files_of x) -> k2 ∈ dom (files_of x) ->
                blob_name E variableName k1 = blob_name E variableName k2 -> k1 = k2.

(** An environment for the examples in which every file holds "hi" and the
    name of a blob is the path itself. *)
Definition hi_env : Env :=
  mkEnv (fun _ => inr Assets.hi_bytes) (fun b => b) (fun k => k)
        Quote_ascii (fun w => inr w).

(** What every call of [addPath] keeps, whether it returns an error or
    not. *)
Definition keeps (x x' : Generator) : Prop :=
  same_options x x' /\
  (forall q, q ∈ dom (files_of x) -> q ∈ dom (files_of x')) /\
  (forall q, q ∈ dom (dirs_of x) -> q ∈ dom (dirs_of x')) /\
  (allocated x -> allocated x').

(** What a successful walk leaves in the entries map. *)
Definition files_effect (n : node) : Prop :=
  forall (x : Generator) (parent : string) (x' : Generator),
    addPath x parent n = (x', None) ->
    (forall q, q ∉ (walked_entries parent n).*1 ->
               files_of x' !! q = files_of x !! q) /\
    (NoDup (walked_entries parent n).*1 ->
     forall q info, (q, info) ∈ walked_entries parent n ->
                    files_of x' !! q = Some info).

(** ** Trees with the names a real directory enumerates *)

Fixpoint has_slash (s : string) : bool :=
  match s with
  | EmptyString => false
  | String c s' => Ascii.eqb c slash || has_slash s'
  end.

(** A name as [Readdir] reports it: not empty, not [.] or [..], without a
    slash. *)
Definition simple_name (s : string) : Prop :=
  s <> EmptyString /\ s <> "." /\ s <> ".." /\ has_slash s = false.

(** A tree in which every node has such a name and the entries of every
    directory have pairwise distinct names. *)
#[warnings="-register-all"]
Inductive well_named : node -> Prop :=
| well_named_Node (info : FileInfo) (open_err : option error)
    (entries : list node) (readdir_err : option error) :
    simple_name (fi_Name info) ->
    NoDup (node_name <$> entries) ->
    Forall well_named entries ->
    well_named (Node info open_err entries readdir_err).

(** The names from the root of the walk down to every node that a walk of
    [n] meets below the directories named [above], when no error stops
    it. *)
Fixpoint walked_names (above : list string) (n : node) : list (list string) :=
  match n with
  | Node info _ entries _ =>
      let here := above ++ [fi_Name info] in
      if fi_IsDir info then here :: flat_map (walked_names here) entries
      else [here]
  end.

(** The path of the directory reached by the names [above] from the
    current directory. *)
Definition parent_of (above : list string) : string :=
  match above with
  | [] => "."
  | _ => String.concat "/" above
  end.

(** ** The two maps of the collector, taken together *)

(** Every name listed under a directory has an entry of its own: the path
    that [addPath] joins for it is a key of [fsFilesMap]. *)
Definition listed_resolve (x : Generator) : Prop :=
  forall d m, m ∈ listing x d -> is_Some (files_of x !! Join d m).

(** No key of [fsDirsMap] and no listed name is the empty string. *)
Definition names_nonempty (x : Generator) : Prop :=
  forall d names, dirs_of x !! d = Some names ->
                  d <> EmptyString /\ Forall (fun m => m <> EmptyString) names.

(** The collector of the scenario without [StripPrefix]. *)
Definition plain_gen : Generator :=
  mkGenerator EmptyString EmptyString false EmptyString None None.
Definition plain_collected : Generator :=
  (Add scenario_Stat plain_gen "a").1.

(** A file system as the text emitted for [plain_collected] initializes
    it, every entry at the address 1 (the entries are not looked at). *)
Definition plain_fs : Assets.FileSystem :=
  Assets.mkFileSystem
    (build_dirmap EmptyString (range_dirs (default_schedule plain_collected)))
    (list_to_map
       ((fun l => (lit_key l, 1%positive))
          <$> entry_lits EmptyString ∅ (range_files (default_schedule plain_collected))))
    false.

End Gen.

(* ===================================================================== *)
(** * Properties of the runtime: [File] and [FileSystem]                  *)
(* ===================================================================== *)

Section IntFacts.

Lemma wrap64_id (z : Z) : min_int <= z <= max_int -> wrap64 z = z.
Proof.
  unfold min_int, max_int, wrap64. intros Hz.
  rewrite Z.mod_small by lia. lia.
Qed.

Lemma len_nonneg {A} (l : list A) : 0 <= len l.
Proof. unfold len. lia. Qed.

End IntFacts.

Section ReadDir.
Import Assets.

Variable f : FileSystem.
Variable p : string.
Variable d : list string.


Lemma readDir_loop_in_range (n : nat) :
  forall (i : Z) (ret : list (option ptr)),
    0 <= i -> i + Z.of_nat n <= len d ->
    readDir_loop f p d n i ret
    = Returns (ret ++ map (resolve f p) (take n (drop (Z.to_nat i) d))).
Proof.
  induction n as [|n IH]; intros i ret Hi Hn; simpl.
  - now rewrite app_nil_r.
  - assert (Hlt : (Z.to_nat i < length d)%nat) by (unfold len in Hn; lia).
    destruct (lookup_lt_is_Some_2 d (Z.to_nat i) Hlt) as [name Hname].
    replace ((i <? 0) || (len d <=? i)) with false
      by (symmetry; apply orb_false_iff; split;
          [apply Z.ltb_ge | apply Z.leb_gt]; unfold len in *; lia).
    rewrite Hname, IH by lia.
    f_equal. rewrite <- app_assoc. f_equal.
    replace (Z.to_nat (i + 1)) with (S (Z.to_nat i)) by lia.
    rewrite (drop_S d name (Z.to_nat i) Hname). reflexivity.
Qed.

(** Within the listing the clamp works: [readDir] returns the entries of
    the names [d[index : min(index+count, len d)]]; nothing is read past
    the end, and [index = len d] gives the empty slice. *)
Lemma readDir_in_range (index count : Z) :
  Dirs f !! p = Some d ->
  0 <= index <= len d -> 0 <= count -> index + count <= max_int ->
  readDir f p index count
  = Returns (map (resolve f p) (take (Z.to_nat count) (drop (Z.to_nat index) d)), None).
Proof.
  intros Hd Hi Hc Hsum. unfold readDir. rewrite Hd.
  unfold int_add, int_sub.
  rewrite (wrap64_id (index + count)) by (unfold min_int, max_int in *; lia).
  pose proof (len_nonneg d) as Hlen.
  destruct (Z.ltb_spec (len d) (index + count)) as [Hclamp|Hclamp].
  - rewrite wrap64_id by (unfold min_int, max_int in *; lia).
    destruct (Z.ltb_spec (len d - index) 0); [lia|].
    destruct (Z.ltb_spec (len d) (len d - index)); [lia|].
    cbn [orb andb].
    rewrite readDir_loop_in_range by lia. simpl.
    do 3 f_equal.
    rewrite !take_ge; try reflexivity;
      rewrite length_drop; unfold len in *; lia.
  - rewrite wrap64_id by (unfold min_int, max_int in *; lia).
    destruct (Z.ltb_spec (index + count - index) 0); [lia|].
    destruct (Z.ltb_spec (len d) (index + count - index)); [lia|].
    cbn [orb andb].
    rewrite readDir_loop_in_range by lia. simpl.
    do 4 f_equal. lia.
Qed.

End ReadDir.

(** C3 (as the code behaves). For a directory with [n = len d] children, a
    start index beyond the end of the listing, [index > n], makes [readDir]
    panic: the upper bound is clamped to [n], the capacity [maxl - index]
    handed to [make] is negative. The specification promises the empty
    sequence there. *)
Theorem readDir_index_past_end_panics
    (f : Assets.FileSystem) (p : string) (d : list string) (index count : Z) :
  Assets.Dirs f !! p = Some d ->
  len d < index -> 0 <= count -> index + count <= max_int ->
  Assets.readDir f p index count = Panics "makeslice: cap out of range".
Proof.
  intros Hd Hi Hc Hsum. unfold Assets.readDir. rewrite Hd.
  pose proof (len_nonneg d) as Hlen.
  unfold int_add, int_sub.
  rewrite (wrap64_id (index + count)) by (unfold min_int, max_int in *; lia).
  destruct (Z.ltb_spec (len d) (index + count)) as [_|Hge]; [|lia].
  rewrite wrap64_id by (unfold min_int, max_int in *; lia).
  destruct (Z.ltb_spec (len d - index) 0); [reflexivity|lia].
Qed.


Lemma readDir_index_past_end_panics_witness :
  Assets.readDir Assets.one_child_fs "/" 2 1 = Panics "makeslice: cap out of range".
Proof.
  apply (readDir_index_past_end_panics Assets.one_child_fs "/" ["a"] 2 1);
    [reflexivity | vm_compute; reflexivity | lia | vm_compute; discriminate].
Defined.

Section Handles.
Import Assets.


Lemma IsDir_set_buf (f : File) (b : option Reader) : IsDir (set_buf f b) = IsDir f.
Proof. reflexivity. Qed.

Lemma Open_regular (fsys : FileSystem) (st : Store) (path : string) (fi : ptr) (obj : File) :
  Files fsys !! path = Some fi -> st !! fi = Some obj -> IsDir obj = false ->
  Open fsys path st
  = (<[fi := set_buf obj (Some (NewReader (Data obj)))]> st, Returns (Some fi, None)).
Proof. intros Hf Hs Hd. unfold Open. now rewrite Hf, Hs, Hd. Qed.

Lemma Open_directory (fsys : FileSystem) (st : Store) (path : string) (fi : ptr) (obj : File) :
  Files fsys !! path = Some fi -> st !! fi = Some obj -> IsDir obj = true ->
  Open fsys path st = (st, Returns (Some fi, None)).
Proof. intros Hf Hs Hd. unfold Open. now rewrite Hf, Hs, Hd. Qed.

(** [position] is what [Seek(0, io.SeekCurrent)] returns. *)
Lemma position_is_Seek_current (p : ptr) (st : Store) (i : Z) :
  position p st = Some i -> 0 <= i <= max_int ->
  (Seek p 0 SeekCurrent st).2 = Returns (i, None).
Proof.
  unfold position, Seek. destruct (st !! p) as [f|]; [|discriminate].
  intros [= <-] Hi. unfold Reader_Seek. simpl. unfold int_add.
  rewrite wrap64_id by (unfold min_int, max_int in *; lia).
  rewrite Z.add_0_r.
  destruct (Z.ltb_spec (r_i (ensure_buf f)) 0); [lia|reflexivity].
Qed.

Lemma take_drop_chunk {A} (n : nat) (l : list A) :
  take n l ++ drop (length (take n l)) l = l.
Proof.
  revert n. induction l as [|a l IH]; intros [|n]; simpl; try reflexivity.
  f_equal. apply IH.
Qed.

(** Reading to the end from position [i] of the data gives the rest of the
    data; [length data - i + 1] calls of [Read] are enough whatever the
    size [n > 0] of the buffer. *)
Lemma read_all_from (p : ptr) (n : nat) (Hn : (0 < n)%nat) (fuel : nat) :
  forall (st : Store) (g : File) (acc : list Byte.byte) (i : Z),
    st !! p = Some g ->
    ensure_buf g = mkReader (Data g) i ->
    0 <= i <= len (Data g) -> len (Data g) <= max_int ->
    (length (Data g) - Z.to_nat i < fuel)%nat ->
    exists st', read_all fuel n p st acc
                = (st', Some (Returns (acc ++ drop (Z.to_nat i) (Data g), None))).
Proof.
  induction fuel as [|fuel IH]; intros st g acc i Hst Hens Hi Hmax Hfuel; [lia|].
  simpl. unfold Read. rewrite Hst. unfold Reader_Read. rewrite Hens. simpl.
  destruct (Z.leb_spec (len (Data g)) i) as [Hend|Hmore].
  - eexists. rewrite decide_True by reflexivity.
    rewrite drop_ge by (unfold len in *; lia). reflexivity.
  - set (chunk := take n (drop (Z.to_nat i) (Data g))).
    assert (Hchunk : 0 < len chunk <= len (Data g) - i).
    { unfold chunk, len in *. rewrite length_take, length_drop. lia. }
    unfold int_add. rewrite wrap64_id by (unfold min_int, max_int in *; lia).
    set (g' := set_buf g (Some (mkReader (Data g) (i + len chunk)))).
    destruct (IH (<[p := g']> st) g' (acc ++ chunk) (i + len chunk)) as [st' Hst'].
    + apply lookup_insert_eq.
    + reflexivity.
    + simpl. lia.
    + exact Hmax.
    + simpl. unfold len in *. lia.
    + exists st'. rewrite Hst'. simpl. do 4 f_equal.
      rewrite <- app_assoc. f_equal.
      replace (Z.to_nat (i + len chunk)) with (Z.to_nat i + length chunk)%nat
        by (unfold len; lia).
      rewrite <- drop_drop. apply take_drop_chunk.
Qed.

End Handles.

(** C1 (as the code behaves). [Open] hands out the pointer stored in
    [Files]: two calls for the path of a regular file return the same
    [*File], whose one [buf] both callers use. A read through the first
    handle moves the read position seen through the second. The
    specification promises independent cursors (and the source comments
    the assignment with "Make a copy for reading"). *)
Theorem Open_twice_shares_cursor
    (fsys : Assets.FileSystem) (st : Assets.Store) (path : string)
    (fi : Assets.ptr) (obj : Assets.File) (n : nat) :
  Assets.Files fsys !! path = Some fi ->
  st !! fi = Some obj ->
  Assets.IsDir obj = false ->
  Assets.Data obj <> [] -> len (Assets.Data obj) <= max_int ->
  (0 < n)%nat ->
  exists st1 h1 st2 h2 st3 chunk,
    Assets.Open fsys path st = (st1, Returns (Some h1, None)) /\
    Assets.Open fsys path st1 = (st2, Returns (Some h2, None)) /\
    h1 = h2 /\
    Assets.position h2 st2 = Some 0 /\
    Assets.Read h1 n st2 = (st3, Returns (chunk, None)) /\
    0 < len chunk /\
    Assets.position h2 st3 = Some (len chunk).
Proof.
  intros Hf Hs Hd Hne Hmax Hn.
  set (obj1 := Assets.set_buf obj (Some (NewReader (Assets.Data obj)))).
  set (st1 := <[fi := obj1]> st).
  set (chunk := take n (Assets.Data obj)).
  assert (Hchunk : 0 < len chunk <= len (Assets.Data obj)).
  { unfold chunk, len. rewrite length_take.
    destruct (Assets.Data obj); [congruence|simpl; lia]. }
  exists st1, fi, (<[fi := obj1]> st1), fi.
  exists (<[fi := Assets.set_buf obj1 (Some (mkReader (Assets.Data obj) (len chunk)))]>
            (<[fi := obj1]> st1)), chunk.
  split; [exact (Open_regular fsys st path fi obj Hf Hs Hd)|].
  split.
  { rewrite (Open_regular fsys st1 path fi obj1 Hf); [reflexivity| |exact Hd].
    apply lookup_insert_eq. }
  split; [reflexivity|].
  split.
  { unfold Assets.position. now rewrite lookup_insert_eq. }
  split.
  { unfold Assets.Read. rewrite lookup_insert_eq. simpl.
    unfold Reader_Read. simpl.
    destruct (Z.leb_spec (len (Assets.Data obj)) 0) as [H0|_]; [exfalso; lia|].
    change (drop (Z.to_nat 0) (Assets.Data obj)) with (Assets.Data obj).
    fold chunk. unfold int_add.
    rewrite wrap64_id by (unfold min_int, max_int in *; lia). reflexivity. }
  split; [lia|].
  unfold Assets.position. now rewrite lookup_insert_eq.
Qed.


Lemma Open_twice_shares_cursor_witness :
  exists st1 h1 st2 h2 st3 chunk,
    Assets.Open Assets.hi_fs "/b.txt" Assets.hi_store = (st1, Returns (Some h1, None)) /\
    Assets.Open Assets.hi_fs "/b.txt" st1 = (st2, Returns (Some h2, None)) /\
    h1 = h2 /\
    Assets.position h2 st2 = Some 0 /\
    Assets.Read h1 1 st2 = (st3, Returns (chunk, None)) /\
    0 < len chunk /\
    Assets.position h2 st3 = Some (len chunk).
Proof.
  apply (Open_twice_shares_cursor Assets.hi_fs Assets.hi_store "/b.txt" 1%positive Assets.hi_file 1);
    [reflexivity | reflexivity | reflexivity | discriminate
    | vm_compute; discriminate | lia].
Defined.

(** C7. For every file handle, [Close] succeeds, and reading after it does
    not fail: the first [Read] builds a new reader at position 0, it
    returns what it returns after a fresh [Open], and reading to the end
    yields the whole data, as after a fresh [Open]. *)
Theorem Close_then_read_all
    (st : Assets.Store) (p : Assets.ptr) (f : Assets.File) (n fuel : nat) :
  st !! p = Some f ->
  len (Assets.Data f) <= max_int ->
  (0 < n)%nat -> (length (Assets.Data f) < fuel)%nat ->
  exists st1 st2,
    Assets.Close p st = (st1, Returns None) /\
    (Assets.Read p n st1).2 = Returns (Reader_Read (NewReader (Assets.Data f)) n).2 /\
    Assets.read_all fuel n p st1 [] = (st2, Some (Returns (Assets.Data f, None))) /\
    forall (fsys : Assets.FileSystem) (path : string),
      Assets.Files fsys !! path = Some p -> Assets.IsDir f = false ->
      exists so so2,
        Assets.Open fsys path st = (so, Returns (Some p, None)) /\
        (Assets.Read p n so).2 = (Assets.Read p n st1).2 /\
        Assets.read_all fuel n p so [] = (so2, Some (Returns (Assets.Data f, None))).
Proof.
  intros Hst Hmax Hn Hfuel.
  pose proof (len_nonneg (Assets.Data f)) as Hlen.
  set (st1 := <[p := Assets.set_buf f None]> st).
  assert (Hread1 : (Assets.Read p n st1).2
                   = Returns (Reader_Read (NewReader (Assets.Data f)) n).2).
  { unfold Assets.Read, st1. rewrite lookup_insert_eq.
    unfold Assets.ensure_buf. simpl.
    destruct (Reader_Read (NewReader (Assets.Data f)) n). reflexivity. }
  destruct (read_all_from p n Hn fuel st1 (Assets.set_buf f None) [] 0)
    as [st2 Hst2]; try (simpl; lia).
  { apply lookup_insert_eq. }
  { reflexivity. }
  exists st1, st2. split; [|split; [exact Hread1|split; [exact Hst2|]]].
  { unfold Assets.Close. now rewrite Hst. }
  intros fsys path Hf Hd.
  set (fo := Assets.set_buf f (Some (NewReader (Assets.Data f)))).
  destruct (read_all_from p n Hn fuel (<[p := fo]> st) fo [] 0)
    as [so2 Hso2]; try (simpl; lia).
  { apply lookup_insert_eq. }
  { reflexivity. }
  exists (<[p := fo]> st), so2.
  split; [exact (Open_regular fsys st path p f Hf Hst Hd)|].
  split; [|exact Hso2].
  rewrite Hread1. unfold Assets.Read. rewrite lookup_insert_eq.
  unfold Assets.ensure_buf. simpl.
  destruct (Reader_Read (NewReader (Assets.Data f)) n). reflexivity.
Qed.

Lemma Close_then_read_all_witness :
  exists st1 st2,
    Assets.Close 1%positive Assets.hi_store = (st1, Returns None) /\
    (Assets.Read 1%positive 1 st1).2 = Returns (Reader_Read (NewReader Assets.hi_bytes) 1).2 /\
    Assets.read_all 3 1 1%positive st1 [] = (st2, Some (Returns (Assets.hi_bytes, None))) /\
    forall (fsys : Assets.FileSystem) (path : string),
      Assets.Files fsys !! path = Some 1%positive -> Assets.IsDir Assets.hi_file = false ->
      exists so so2,
        Assets.Open fsys path Assets.hi_store = (so, Returns (Some 1%positive, None)) /\
        (Assets.Read 1%positive 1 so).2 = (Assets.Read 1%positive 1 st1).2 /\
        Assets.read_all 3 1 1%positive so [] = (so2, Some (Returns (Assets.hi_bytes, None))).
Proof.
  apply (Close_then_read_all Assets.hi_store 1%positive Assets.hi_file 1 3);
    [reflexivity | vm_compute; discriminate | lia | simpl; lia].
Defined.


(** C6, the claim as stated fails: on the handle of the directory ["/"],
    [Read] returns end of file and [Seek] succeeds; neither fails with
    [ErrInvalid]. *)
Lemma directory_Read_is_not_invalid :
  exists st h,
    Assets.Open Assets.dir_fs "/" Assets.dir_store = (st, Returns (Some h, None)) /\
    (Assets.Read h 8 st).2 = Returns ([], Some EOF) /\
    (Assets.Seek h 0 SeekStart st).2 = Returns (0, None) /\
    Some EOF <> Some ErrInvalid.
Proof.
  exists Assets.dir_store, 1%positive. repeat split; discriminate.
Qed.

(** C6 (amended). [Read] and [Seek] have no directory check. On the handle
    obtained by opening a directory (an entry without data) they work on a
    reader over the empty data: [Read] returns no byte and [io.EOF], a
    [Seek] to a non-negative offset from the start succeeds. [Stat]
    succeeds and returns the handle, which is the directory's entry itself.
    On the handle obtained by opening a regular file, [Readdir] fails with
    [os.ErrInvalid]. *)
Theorem directory_handle_reads_as_empty_file
    (fsys : Assets.FileSystem) (st : gmap positive Assets.File) (path : string)
    (fi : positive) (obj : Assets.File) :
  Assets.Files fsys !! path = Some fi ->
  st !! fi = Some obj ->
  Assets.IsDir obj = true -> Assets.Data obj = [] -> Assets.wf_File obj ->
  Assets.Open fsys path st = (st, Returns (Some fi, None)) /\
  (forall n, (Assets.Read fi n st).2 = Returns ([], Some EOF)) /\
  (forall offset, 0 <= offset ->
     (Assets.Seek fi offset SeekStart st).2 = Returns (offset, None)) /\
  Assets.Stat fi st = (st, Returns (fi, None)) /\
  Assets.Size obj = 0 /\
  (forall path' fj objf,
     Assets.Files fsys !! path' = Some fj -> st !! fj = Some objf ->
     Assets.IsDir objf = false ->
     exists st',
       Assets.Open fsys path' st = (st', Returns (Some fj, None)) /\
       forall index count,
         Assets.Readdir fj index count st' = (st', Returns ([], Some ErrInvalid))).
Proof.
  intros Hf Hs Hd Hdata Hwf.
  assert (Hens : r_s (Assets.ensure_buf obj) = [] /\ 0 <= r_i (Assets.ensure_buf obj)).
  { unfold Assets.ensure_buf, Assets.wf_File in *.
    destruct (Assets.buf obj) as [r|]; simpl.
    - destruct Hwf as [-> ?]. now rewrite Hdata.
    - rewrite Hdata. split; [reflexivity|lia]. }
  destruct Hens as [Hrs Hri].
  split; [exact (Open_directory fsys st path fi obj Hf Hs Hd)|].
  split.
  { intros n. unfold Assets.Read. rewrite Hs. unfold Reader_Read. rewrite Hrs.
    destruct (Z.leb_spec (len (@nil Byte.byte)) (r_i (Assets.ensure_buf obj)));
      [reflexivity|]. unfold len in *. simpl in *. lia. }
  split.
  { intros offset Hoff. unfold Assets.Seek. rewrite Hs. unfold Reader_Seek. simpl.
    destruct (Z.ltb_spec offset 0); [lia|reflexivity]. }
  split; [reflexivity|].
  split; [unfold Assets.Size; now rewrite Hdata|].
  intros path' fj objf Hf' Hs' Hd'.
  eexists. split; [exact (Open_regular fsys st path' fj objf Hf' Hs' Hd')|].
  intros index count. unfold Assets.Readdir.
  rewrite lookup_insert_eq, IsDir_set_buf, Hd'. reflexivity.
Qed.

Lemma directory_handle_reads_as_empty_file_witness :
  Assets.Open Assets.dir_fs "/" Assets.dir_store = (Assets.dir_store, Returns (Some 1%positive, None)) /\
  (forall n, (Assets.Read 1%positive n Assets.dir_store).2 = Returns ([], Some EOF)) /\
  (forall offset, 0 <= offset ->
     (Assets.Seek 1%positive offset SeekStart Assets.dir_store).2 = Returns (offset, None)) /\
  Assets.Stat 1%positive Assets.dir_store = (Assets.dir_store, Returns (1%positive, None)) /\
  Assets.Size Assets.root_dir = 0 /\
  (forall path' fj objf,
     Assets.Files Assets.dir_fs !! path' = Some fj -> Assets.dir_store !! fj = Some objf ->
     Assets.IsDir objf = false ->
     exists st',
       Assets.Open Assets.dir_fs path' Assets.dir_store = (st', Returns (Some fj, None)) /\
       forall index count,
         Assets.Readdir fj index count st' = (st', Returns ([], Some ErrInvalid))).
Proof.
  apply (directory_handle_reads_as_empty_file Assets.dir_fs Assets.dir_store "/" 1%positive Assets.root_dir);
    [reflexivity | reflexivity | reflexivity | reflexivity | exact I].
Defined.

(* ===================================================================== *)
(** * Properties of the generator: the walk                               *)
(* ===================================================================== *)

Section Walk.
Import Gen.

(** [addPath], with its loop by name. *)
Lemma addPath_eq (x : Generator) (parent : string) (info : FileInfo)
    (open_err : option error) (entries : list node) (readdir_err : option error) :
  addPath x parent (Node info open_err entries readdir_err)
  = let p := Join parent (fi_Name info) in
    let x1 := registered x p info in
    if fi_IsDir info then
      match readdir_error open_err readdir_err with
      | Some err => (x1, Some err)
      | None => addPath_range (set_dirs x1 (<[p := []]> (dirs_of x1))) p entries
      end
    else (set_dirs x1 (<[parent := listing x1 parent ++ [fi_Name info]]> (dirs_of x1)),
          None).
Proof.
  simpl.
  destruct (fi_IsDir info); [|reflexivity].
  destruct (readdir_error open_err readdir_err); [reflexivity|].
  match goal with |- _ ?x0 entries = _ => generalize x0 end.
  induction entries as [|c cs IH]; intros x0; simpl; [reflexivity|].
  destruct (addPath x0 _ c) as [x' [err|]]; [reflexivity|apply IH].
Qed.

Lemma addPath_range_app (x : Generator) (p : string) (l1 l2 : list node) :
  addPath_range x p (l1 ++ l2)
  = match addPath_range x p l1 with
    | (x', Some err) => (x', Some err)
    | (x', None) => addPath_range x' p l2
    end.
Proof.
  revert x. induction l1 as [|c l1 IH]; intros x; simpl; [reflexivity|].
  destruct (addPath x p c) as [x' [err|]]; [reflexivity|apply IH].
Qed.

(** Registering something that is not a directory cannot fail. *)
Lemma addPath_file_ok (x : Generator) (parent : string) (n : node) :
  is_file n = true -> (addPath x parent n).2 = None.
Proof.
  destruct n as [info oe entries re]. unfold is_file. simpl node_info.
  intros Hf. rewrite addPath_eq. simpl.
  destruct (fi_IsDir info); [discriminate|reflexivity].
Qed.

Lemma addPath_range_files_ok (p : string) (l : list node) :
  Forall (fun c => is_file c = true) l ->
  forall x, (addPath_range x p l).2 = None.
Proof.
  induction 1 as [|c l Hc _ IH]; intros x; simpl; [reflexivity|].
  pose proof (addPath_file_ok x p c Hc) as Hok.
  destruct (addPath x p c) as [x' [err|]]; [discriminate|apply IH].
Qed.

(** The walk stops at the first entry whose registration fails and returns
    that entry's error. *)
Lemma addPath_range_stops (x : Generator) (p : string) (pre post : list node)
    (c : node) (x1 x2 : Generator) (err : error) :
  addPath_range x p pre = (x1, None) ->
  addPath x1 p c = (x2, Some err) ->
  addPath_range x p (pre ++ c :: post) = (x2, Some err).
Proof.
  intros Hpre Hc. rewrite addPath_range_app, Hpre. simpl. now rewrite Hc.
Qed.

(** A directory that [os.Open] cannot open: its error is overwritten, the
    error returned is the [os.ErrInvalid] of [Readdir] on the nil handle. *)
Lemma addPath_open_failure (x : Generator) (parent : string) (info : FileInfo)
    (e : error) (entries : list node) (re : option error) :
  fi_IsDir info = true ->
  (addPath x parent (Node info (Some e) entries re)).2 = Some ErrInvalid.
Proof. intros Hd. rewrite addPath_eq. simpl. now rewrite Hd. Qed.

(** What [Add] does get right: the error of [os.Stat] and the error of
    [Readdir] are returned as they are. *)
Lemma Add_Stat_error (os_Stat : string -> error + node) (x : Generator)
    (p : string) (e : error) :
  os_Stat (Clean p) = inl e -> Add os_Stat x p = (x, Some e).
Proof. intros H. unfold Add. now rewrite H. Qed.

Lemma addPath_Readdir_error (x : Generator) (parent : string) (info : FileInfo)
    (e : error) (entries : list node) :
  fi_IsDir info = true ->
  (addPath x parent (Node info None entries (Some e))).2 = Some e.
Proof. intros Hd. rewrite addPath_eq. simpl. now rewrite Hd. Qed.

End Walk.

(** C8 (as the code behaves). When the walk reaches a subdirectory that
    [os.Open] fails to open with error [e], the walk stops, but the error
    returned by [Add] is [os.ErrInvalid], whatever [e] is: [addPath]
    assigns the error of [os.Open] and overwrites it with the error of
    [Readdir] on the nil handle before testing it. The specification says
    the first error met, the failure to open, is what the caller gets. *)
Theorem Add_subdirectory_open_failure
    (os_Stat : string -> error + Gen.node) (x : Gen.Generator) (p : string)
    (info sinfo : Gen.FileInfo) (pre post sentries : list Gen.node)
    (e : error) (sre : option error) :
  os_Stat (Clean p)
  = inr (Gen.Node info None
                  (pre ++ Gen.Node sinfo (Some e) sentries sre :: post) None) ->
  Gen.fi_IsDir info = true ->
  Gen.fi_IsDir sinfo = true ->
  Forall (fun c => Gen.is_file c = true) pre ->
  (Gen.Add os_Stat x p).2 = Some ErrInvalid.
Proof.
  intros Hstat Hd Hsd Hpre. unfold Gen.Add. rewrite Hstat, addPath_eq. simpl.
  rewrite Hd. simpl.
  match goal with |- (Gen.addPath_range ?x0 ?q _).2 = _ =>
    pose proof (addPath_range_files_ok q pre Hpre x0) as Hok;
    destruct (Gen.addPath_range x0 q pre) as [x1 o] eqn:Hrange
  end.
  simpl in Hok. subst o.
  pose proof (addPath_open_failure x1 (Join (Dir (Clean p)) (Gen.fi_Name info))
                sinfo e sentries sre Hsd) as Hsub.
  destruct (Gen.addPath x1 _ (Gen.Node sinfo (Some e) sentries sre))
    as [x2 o] eqn:Hc.
  simpl in Hsub. subst o.
  now rewrite (addPath_range_stops _ _ pre post _ x1 x2 ErrInvalid Hrange Hc).
Qed.

Lemma Add_subdirectory_open_failure_witness :
  (Gen.Add Gen.locked_Stat Gen.scenario_gen "a").2 = Some ErrInvalid.
Proof.
  apply (Add_subdirectory_open_failure Gen.locked_Stat Gen.scenario_gen "a"
           (Gen.node_info Gen.locked_a) (Gen.node_info Gen.locked_c)
           [Gen.scenario_b] [] [] ErrPermission None);
    [reflexivity | reflexivity | reflexivity
    | repeat constructor].
Defined.

(* ===================================================================== *)
(** * Properties of the generator: the emitted modification time          *)
(* ===================================================================== *)

Section ModTime.

Lemma wrap64_add_l (a b : Z) : wrap64 (wrap64 a + b) = wrap64 (a + b).
Proof.
  unfold wrap64.
  replace ((a + 2 ^ 63) mod 2 ^ 64 - 2 ^ 63 + b + 2 ^ 63)
    with ((a + 2 ^ 63) mod 2 ^ 64 + b) by lia.
  rewrite Zplus_mod_idemp_l. do 2 f_equal. lia.
Qed.

(** [t.UnixNano()] is the whole instant in nanoseconds when that fits an
    [int64]. *)
Lemma Time_UnixNano_exact (t : Time) :
  min_int <= t_sec t * 1000000000 + t_nsec t <= max_int ->
  Time_UnixNano t = t_sec t * 1000000000 + t_nsec t.
Proof.
  intros Hr. unfold Time_UnixNano, int_add, int_mul.
  rewrite wrap64_add_l. now apply wrap64_id.
Qed.

(** [time.Unix(sec, sec*1e9 + nsec)] is the instant [2*sec] seconds and
    [nsec] nanoseconds after the epoch. *)
Lemma time_Unix_of_UnixNano (sec nsec : Z) :
  0 <= nsec < 1000000000 ->
  min_int <= sec * 1000000000 + nsec <= max_int ->
  time_Unix sec (sec * 1000000000 + nsec) = mkTime (2 * sec) nsec.
Proof.
  intros Hn Hr. unfold time_Unix, min_int, max_int in *.
  set (a := sec * 1000000000 + nsec) in *.
  pose proof (Z.quot_rem' a 1000000000) as Hqr.
  set (q := Z.quot a 1000000000) in *. set (r := Z.rem a 1000000000) in *.
  assert (Hrem : (0 <= a -> 0 <= r < 1000000000) /\
                 (a <= 0 -> -1000000000 < r <= 0)).
  { split; intros Ha.
    - apply Z.rem_bound_pos; lia.
    - pose proof (Z.rem_bound_pos (- a) 1000000000) as Hb.
      rewrite Z.rem_opp_l' in Hb. fold r in Hb. lia. }
  destruct Hrem as [Hpos Hneg].
  destruct ((a <? 0) || (1000000000 <=? a)) eqn:Hout.
  - unfold int_add, int_sub, int_mul.
    rewrite (wrap64_id (q * 1000000000)) by (unfold min_int, max_int; lia).
    rewrite (wrap64_id (a - q * 1000000000)) by (unfold min_int, max_int; lia).
    rewrite (wrap64_id (sec + q)) by (unfold min_int, max_int; lia).
    apply orb_true_iff in Hout as [Hlt|Hge].
    + apply Z.ltb_lt in Hlt.
      destruct (Z.ltb_spec (a - q * 1000000000) 0).
      * rewrite !wrap64_id by (unfold min_int, max_int; lia). f_equal; lia.
      * f_equal; lia.
    + apply Z.leb_le in Hge.
      destruct (Z.ltb_spec (a - q * 1000000000) 0); [lia|]. f_equal; lia.
  - apply orb_false_iff in Hout as [Hlt Hge].
    apply Z.ltb_ge in Hlt. apply Z.leb_gt in Hge. f_equal; lia.
Qed.

(** The call the generator would have to emit: seconds and nanosecond
    offset give the instant back. *)
Lemma time_Unix_of_parts (t : Time) :
  wf_Time t -> time_Unix (Time_Unix t) (Time_Nanosecond t) = t.
Proof.
  destruct t as [sec nsec]. unfold wf_Time, time_Unix, Time_Unix, Time_Nanosecond.
  simpl. intros Hn.
  destruct (Z.ltb_spec nsec 0); [lia|].
  destruct (Z.leb_spec 1000000000 nsec); [lia|reflexivity].
Qed.

End ModTime.

(** C4 (as the code behaves). The emitted literal carries
    [time.Unix(mt.Unix(), mt.UnixNano())]: the second argument is the whole
    instant in nanoseconds, not the nanosecond offset. Executing it gives
    the instant [2 * seconds] after the epoch (same nanosecond offset), so
    the modification time of the entry equals the captured one only for
    instants within the first second of the epoch. The specification says
    the reconstruction equals the original timestamp. *)
Theorem emitted_MTime_doubles_seconds
    (prefix : string) (vnames : gmap string string)
    (blobs : gmap string (list Byte.byte)) (k : string) (v : Gen.FileInfo) :
  wf_Time (Gen.fi_ModTime v) ->
  min_int <= t_sec (Gen.fi_ModTime v) * 1000000000 + t_nsec (Gen.fi_ModTime v)
          <= max_int ->
  Assets.MTime (Gen.init_File blobs (Gen.entry_lit prefix vnames k v))
  = mkTime (2 * t_sec (Gen.fi_ModTime v)) (t_nsec (Gen.fi_ModTime v))
  /\ (Assets.MTime (Gen.init_File blobs (Gen.entry_lit prefix vnames k v))
      = Gen.fi_ModTime v <-> t_sec (Gen.fi_ModTime v) = 0).
Proof.
  intros Hwf Hr. unfold Gen.init_File, Gen.entry_lit. simpl.
  unfold Time_Unix. rewrite Time_UnixNano_exact by exact Hr.
  rewrite time_Unix_of_UnixNano by assumption.
  split; [reflexivity|].
  destruct (Gen.fi_ModTime v) as [sec nsec]. simpl.
  split; [intros [= H]; lia|intros ->; reflexivity].
Qed.

Lemma emitted_MTime_doubles_seconds_witness :
  Assets.MTime (Gen.init_File ∅ (Gen.entry_lit "a" ∅ "a/b.txt" (Gen.node_info Gen.scenario_b)))
  = mkTime 3400000000 5
  /\ (Assets.MTime (Gen.init_File ∅ (Gen.entry_lit "a" ∅ "a/b.txt" (Gen.node_info Gen.scenario_b)))
      = mkTime 1700000000 5 <-> 1700000000 = 0).
Proof.
  apply (emitted_MTime_doubles_seconds "a" ∅ ∅ "a/b.txt" (Gen.node_info Gen.scenario_b));
    [unfold wf_Time; simpl; lia | vm_compute; split; discriminate].
Defined.

(* ===================================================================== *)
(** * Properties of the generator: the emitted keys                       *)
(* ===================================================================== *)

Section Keys.
Import Gen.

Lemma HasPrefix_refl (s : string) : HasPrefix s s = true.
Proof.
  unfold HasPrefix. induction s as [|c s IH]; simpl; [reflexivity|].
  destruct (ascii_dec c c); [exact IH|congruence].
Qed.

Lemma drop_string_all (s : string) : drop_string (String.length s) s = EmptyString.
Proof. induction s as [|c s IH]; simpl; [reflexivity|exact IH]. Qed.

Lemma TrimPrefix_self (s : string) : TrimPrefix s s = EmptyString.
Proof. unfold TrimPrefix. rewrite HasPrefix_refl. apply drop_string_all. Qed.

(** The three copies of the stripping code compute the same string. *)
Lemma dir_key_file_key (prefix k : string) : dir_key prefix k = file_key prefix k.
Proof. reflexivity. Qed.

Lemma dir_key_prefix (prefix : string) : dir_key prefix prefix = "/".
Proof. unfold dir_key. now rewrite TrimPrefix_self. Qed.

(** The keys of [dirmap] are the stripped keys of the pairs ranged over. *)
Lemma dom_fold_dirmap (prefix : string) (kvs : list (string * list string)) :
  forall m : gmap string (list string),
    dom (fold_left (fun dirmap kv =>
                      <[dir_key prefix kv.1 := map (listed_name prefix) kv.2]> dirmap)
                   kvs m)
    = dom m ∪ list_to_set (dir_key prefix <$> kvs.*1).
Proof.
  induction kvs as [|[k v] kvs IH]; intros m; simpl.
  - set_solver.
  - rewrite IH, dom_insert_L. set_solver.
Qed.

Lemma dom_build_dirmap (prefix : string) (kvs : list (string * list string)) :
  dom (build_dirmap prefix kvs) = list_to_set (dir_key prefix <$> kvs.*1).
Proof. unfold build_dirmap. rewrite dom_fold_dirmap. set_solver. Qed.

(** A range over a map meets every key of the map, and only those. *)
Lemma range_meets_dom {V} (m : gmap string V) (kvs : list (string * V)) (k : string) :
  kvs ≡ₚ map_to_list m -> (k ∈ kvs.*1 <-> k ∈ dom m).
Proof.
  intros Hp. rewrite Hp, elem_of_dom. split.
  - intros [[k' v] [-> Hin]]%list_elem_of_fmap.
    apply elem_of_map_to_list in Hin. now exists v.
  - intros [v Hv]. apply list_elem_of_fmap. exists (k, v).
    split; [reflexivity|now apply elem_of_map_to_list].
Qed.

Lemma lit_keys (prefix : string) (vnames : gmap string string)
    (kvs : list (string * FileInfo)) :
  lit_key <$> entry_lits prefix vnames kvs = file_key prefix <$> kvs.*1.
Proof.
  unfold entry_lits. induction kvs as [|[k v] kvs IH]; simpl; [reflexivity|].
  f_equal. exact IH.
Qed.

(** Every registered path is emitted as a key of the [Files] map, and
    every directory path of the collector as a key of the directory map. *)
Lemma entries_key_emitted (x : Generator) (s : Schedule)
    (vnames : gmap string string) (k : string) :
  valid_schedule x s -> k ∈ dom (files_of x) ->
  file_key (StripPrefix x) k
  ∈ lit_key <$> entry_lits (StripPrefix x) vnames (range_files s).
Proof.
  intros (_ & _ & _ & Hfiles) Hk. rewrite lit_keys.
  apply list_elem_of_fmap. exists k. split; [reflexivity|].
  now apply (range_meets_dom _ _ _ Hfiles).
Qed.

Lemma dirmap_key_emitted (x : Generator) (s : Schedule) (k : string) :
  valid_schedule x s -> k ∈ dom (dirs_of x) ->
  dir_key (StripPrefix x) k ∈ dom (build_dirmap (StripPrefix x) (range_dirs s)).
Proof.
  intros (_ & Hdirs & _ & _) Hk. rewrite dom_build_dirmap.
  apply elem_of_list_to_set, list_elem_of_fmap. exists k.
  split; [reflexivity|]. now apply (range_meets_dom _ _ _ Hdirs).
Qed.

End Keys.

Section Stripping.
Import Gen.

Lemma string_app_cons (c : ascii) (a b : string) :
  String c a +:+ b = String c (a +:+ b).
Proof. reflexivity. Qed.

Lemma HasPrefix_app (prefix rest : string) : HasPrefix (prefix +:+ rest) prefix = true.
Proof.
  unfold HasPrefix. induction prefix as [|c prefix IH].
  - change (EmptyString +:+ rest) with rest. now destruct rest.
  - rewrite string_app_cons. simpl.
    destruct (ascii_dec c c); [exact IH|congruence].
Qed.

Lemma drop_string_app (prefix rest : string) :
  drop_string (String.length prefix) (prefix +:+ rest) = rest.
Proof. induction prefix as [|c prefix IH]; [reflexivity|exact IH]. Qed.

Lemma TrimPrefix_app (prefix rest : string) : TrimPrefix (prefix +:+ rest) prefix = rest.
Proof. unfold TrimPrefix. rewrite HasPrefix_app. apply drop_string_app. Qed.

Lemma len_string_pos (s : string) : s <> EmptyString -> 0 < len_string s.
Proof. destruct s; [congruence|]. unfold len_string. simpl. lia. Qed.

Lemma stripped_nonempty (prefix k : string) : 0 < len_string (dir_key prefix k).
Proof.
  unfold dir_key.
  destruct (Z.eqb_spec (len_string (TrimPrefix k prefix)) 0) as [_|Hne].
  - reflexivity.
  - unfold len_string in *. lia.
Qed.

(** A string that has the prefix is the prefix followed by a rest. *)
Lemma HasPrefix_inv (prefix : string) :
  forall k, HasPrefix k prefix = true -> exists rest, k = prefix +:+ rest.
Proof.
  unfold HasPrefix. induction prefix as [|c prefix IH]; intros k H.
  - now exists k.
  - destruct k as [|c' k]; simpl in H; [discriminate|].
    destruct (ascii_dec c c') as [<-|]; [|discriminate].
    destruct (IH k H) as [rest ->]. now exists rest.
Qed.

(** The emitted key of a path that is the prefix and a non-empty rest, and
    of a non-empty path that does not begin with the prefix. *)
Lemma dir_key_app (prefix rest : string) :
  rest <> EmptyString -> dir_key prefix (prefix +:+ rest) = rest.
Proof.
  intros Hrest. unfold dir_key. rewrite TrimPrefix_app.
  pose proof (len_string_pos rest Hrest).
  destruct (Z.eqb_spec (len_string rest) 0); [lia|reflexivity].
Qed.

Lemma dir_key_other (prefix k : string) :
  k <> EmptyString -> (forall rest, k <> prefix +:+ rest) -> dir_key prefix k = k.
Proof.
  intros Hk Hno. unfold dir_key, TrimPrefix.
  destruct (HasPrefix k prefix) eqn:Hp.
  - destruct (HasPrefix_inv prefix k Hp) as [rest ->]. now destruct (Hno rest).
  - pose proof (len_string_pos k Hk).
    destruct (Z.eqb_spec (len_string k) 0); [lia|reflexivity].
Qed.

Lemma dir_key_of_empty (prefix : string) : dir_key prefix EmptyString = "/".
Proof.
  unfold dir_key, TrimPrefix.
  destruct (HasPrefix "" prefix); [now destruct prefix|reflexivity].
Qed.

End Stripping.

(** C9. The serializer strips directory-map keys and [Files] keys in the
    same way: for every path the two emitted key strings are equal. Every
    directory path of the collector is emitted (and printed) under that
    string, every registered path is emitted as an entries key under it,
    every key of the emitted directory map is the entries-key string of the
    directory path it comes from, and a path equal to the strip prefix is
    emitted as ["/"] in both mappings. Stripping removes the prefix: a path
    that is the prefix followed by a non-empty rest is emitted as that
    rest, a non-empty path that does not begin with the prefix is emitted
    as it is, the empty path as ["/"], and no emitted key is empty. *)
Theorem emitted_keys_agree
    (x : Gen.Generator) (s : Gen.Schedule) (vnames : gmap string string) :
  Gen.valid_schedule x s ->
  let prefix := Gen.StripPrefix x in
  let dirmap := Gen.build_dirmap prefix (Gen.range_dirs s) in
  let entries_keys :=
    Gen.lit_key <$> Gen.entry_lits prefix vnames (Gen.range_files s) in
  (forall k, Gen.dir_key prefix k = Gen.file_key prefix k) /\
  (forall k, k ∈ dom (Gen.dirs_of x) ->
             Gen.dir_key prefix k ∈ dom dirmap /\
             Gen.dir_key prefix k ∈ (Gen.print_dirs s).*1) /\
  (forall k, k ∈ dom (Gen.files_of x) -> Gen.file_key prefix k ∈ entries_keys) /\
  (forall kk, kk ∈ (Gen.print_dirs s).*1 ->
              exists k, k ∈ dom (Gen.dirs_of x) /\ kk = Gen.dir_key prefix k /\
                        kk = Gen.file_key prefix k /\
                        (k ∈ dom (Gen.files_of x) -> kk ∈ entries_keys)) /\
  Gen.dir_key prefix prefix = "/" /\ Gen.file_key prefix prefix = "/" /\
  (forall rest, rest <> EmptyString ->
     Gen.dir_key prefix (prefix +:+ rest) = rest /\
     Gen.file_key prefix (prefix +:+ rest) = rest) /\
  (forall k, k <> EmptyString -> (forall rest, k <> prefix +:+ rest) ->
     Gen.dir_key prefix k = k /\ Gen.file_key prefix k = k) /\
  Gen.dir_key prefix EmptyString = "/" /\ Gen.file_key prefix EmptyString = "/" /\
  (forall k, Gen.dir_key prefix k <> EmptyString /\
             Gen.file_key prefix k <> EmptyString).
Proof.
  intros Hvalid prefix dirmap entries_keys.
  assert (Hentries : forall k, k ∈ dom (Gen.files_of x) ->
                               Gen.file_key prefix k ∈ entries_keys).
  { intros k Hk. now apply entries_key_emitted. }
  assert (Hdom : forall k, k ∈ dom (Gen.dirs_of x) -> Gen.dir_key prefix k ∈ dom dirmap).
  { intros k Hk. now apply dirmap_key_emitted. }
  pose proof Hvalid as (Hblobs & Hdirs & Hprint & Hfiles).
  split; [intros k; apply dir_key_file_key|].
  split.
  { intros k Hk. split; [now apply Hdom|].
    apply (range_meets_dom _ _ _ Hprint). now apply Hdom. }
  split; [exact Hentries|].
  split.
  { intros kk Hkk. apply (range_meets_dom _ _ _ Hprint) in Hkk.
    fold prefix in Hkk. rewrite dom_build_dirmap in Hkk.
    apply elem_of_list_to_set, list_elem_of_fmap in Hkk as [k [-> Hk]].
    exists k. apply (range_meets_dom _ _ _ Hdirs) in Hk.
    split; [exact Hk|]. split; [reflexivity|]. split; [reflexivity|].
    intros Hin. rewrite dir_key_file_key. now apply Hentries. }
  split; [apply dir_key_prefix|]. split; [apply dir_key_prefix|].
  split; [intros rest Hrest; split; now apply dir_key_app|].
  split; [intros k Hk Hno; split; now apply dir_key_other|].
  split; [apply dir_key_of_empty|]. split; [apply dir_key_of_empty|].
  intros k.
  assert (H : Gen.dir_key prefix k <> EmptyString).
  { pose proof (stripped_nonempty prefix k) as Hpos. intros He.
    rewrite He in Hpos. unfold len_string in Hpos. simpl in Hpos. lia. }
  split; exact H.
Qed.

Lemma emitted_keys_agree_witness :
  let x := Gen.scenario_collected in
  let s := Gen.default_schedule x in
  let prefix := Gen.StripPrefix x in
  let dirmap := Gen.build_dirmap prefix (Gen.range_dirs s) in
  let entries_keys := Gen.lit_key <$> Gen.entry_lits prefix ∅ (Gen.range_files s) in
  (forall k, Gen.dir_key prefix k = Gen.file_key prefix k) /\
  (forall k, k ∈ dom (Gen.dirs_of x) ->
             Gen.dir_key prefix k ∈ dom dirmap /\
             Gen.dir_key prefix k ∈ (Gen.print_dirs s).*1) /\
  (forall k, k ∈ dom (Gen.files_of x) -> Gen.file_key prefix k ∈ entries_keys) /\
  (forall kk, kk ∈ (Gen.print_dirs s).*1 ->
              exists k, k ∈ dom (Gen.dirs_of x) /\ kk = Gen.dir_key prefix k /\
                        kk = Gen.file_key prefix k /\
                        (k ∈ dom (Gen.files_of x) -> kk ∈ entries_keys)) /\
  Gen.dir_key prefix prefix = "/" /\ Gen.file_key prefix prefix = "/" /\
  (forall rest, rest <> EmptyString ->
     Gen.dir_key prefix (prefix +:+ rest) = rest /\
     Gen.file_key prefix (prefix +:+ rest) = rest) /\
  (forall k, k <> EmptyString -> (forall rest, k <> prefix +:+ rest) ->
     Gen.dir_key prefix k = k /\ Gen.file_key prefix k = k) /\
  Gen.dir_key prefix EmptyString = "/" /\ Gen.file_key prefix EmptyString = "/" /\
  (forall k, Gen.dir_key prefix k <> EmptyString /\
             Gen.file_key prefix k <> EmptyString).
Proof.
  apply (emitted_keys_agree Gen.scenario_collected
           (Gen.default_schedule Gen.scenario_collected) ∅).
  repeat split; reflexivity.
Defined.

(* ===================================================================== *)
(** * Properties of the serializer: the text                              *)
(* ===================================================================== *)

Section Text.
Import Gen.

Lemma string_app_assoc (a b c : string) : (a +:+ b) +:+ c = a +:+ (b +:+ c).
Proof.
  induction a as [|ch a IH]; [reflexivity|].
  change (String ch ((a +:+ b) +:+ c) = String ch (a +:+ (b +:+ c))).
  now rewrite IH.
Qed.

Lemma string_app_nil_r (a : string) : a +:+ EmptyString = a.
Proof.
  induction a as [|ch a IH]; [reflexivity|].
  change (String ch (a +:+ EmptyString) = String ch a). now rewrite IH.
Qed.

(** Only the empty list enumerates the empty map. *)
Lemma range_of_empty {V} (kvs : list (string * V)) :
  kvs ≡ₚ map_to_list (∅ : gmap string V) -> kvs = [].
Proof. rewrite map_to_list_empty. apply Permutation_nil_r. Qed.

End Text.

(** C10, the claim as stated fails: [Write] on a generator to which no
    path was added does not always succeed. With the package name
    [my-pkg] the text starts with a package clause that is not one, and
    [format.Source] refuses it: [Write] returns that error and writes
    nothing, whatever the rest of the environment is. *)
Lemma Write_empty_generator_refused :
  Gen.valid_schedule (Gen.mkGenerator "my-pkg" "" false "" None None)
    (Gen.default_schedule (Gen.mkGenerator "my-pkg" "" false "" None None)) /\
  forall read gz sha quote rest,
    Gen.Write (Gen.mkEnv read gz sha quote (Source_checking rest))
              (Gen.mkGenerator "my-pkg" "" false "" None None)
              (Gen.default_schedule (Gen.mkGenerator "my-pkg" "" false "" None None))
    = (Gen.mkGenerator "my-pkg" "" false "" (Some ∅) (Some ∅), inl ErrSyntax).
Proof.
  split; [repeat split; reflexivity|].
  intros read gz sha quote rest. vm_compute. reflexivity.
Qed.

(** C10 (amended). [Write] on a generator to which no path was added (both
    maps nil, or left allocated and empty by an earlier [Write]) never
    fails before [format.Source] and opens no file: the text it hands over
    is [empty_source] ([empty_source_again] once the maps are allocated),
    which declares the variable with an empty [Dirs] map, an empty [Files]
    map and [Compressed] equal to the option. [Write] returns what
    [format.Source] makes of that text: it succeeds and writes the
    formatted text when [Source] accepts the text, and returns the error of
    [Source], writing nothing, when it does not. Either way both maps of
    the generator are left allocated and empty. *)
Theorem Write_empty_generator
    (E : Gen.Env) (pkg var prefix : string) (compressed : bool)
    (dm : option (gmap string (list string)))
    (fm : option (gmap string Gen.FileInfo)) (s : Gen.Schedule) :
  let x := Gen.mkGenerator pkg var compressed prefix dm fm in
  let p := Gen.or_default pkg "main" in
  let v := Gen.or_default var "Assets" in
  let text := match fm with
              | None => Gen.empty_source p v compressed
              | Some _ => Gen.empty_source_again p v compressed
              end in
  Gen.dirs_of x = ∅ -> Gen.files_of x = ∅ ->
  Gen.valid_schedule x s ->
  Gen.Write_buffer E x s = inr text /\
  Gen.Write E x s
  = (Gen.mkGenerator pkg var compressed prefix (Some ∅) (Some ∅),
     Gen.format_Source E text) /\
  (forall t, Gen.format_Source E text = inr t -> (Gen.Write E x s).2 = inr t) /\
  (forall e, Gen.format_Source E text = inl e -> (Gen.Write E x s).2 = inl e) /\
  Gen.build_dirmap prefix (Gen.range_dirs s) = ∅ /\
  Gen.entry_lits prefix ∅ (Gen.range_files s) = [].
Proof.
  intros x p v text Hd Hf (Hblobs & Hdirs & Hprint & Hfiles).
  rewrite Hf in Hblobs, Hfiles. rewrite Hd in Hdirs.
  apply range_of_empty in Hblobs, Hdirs, Hfiles.
  simpl in Hprint. rewrite Hdirs in Hprint. apply range_of_empty in Hprint.
  assert (Hbuf : Gen.Write_buffer E x s = inr text).
  { unfold Gen.Write_buffer. simpl. rewrite Hblobs, Hprint, Hfiles.
    unfold text. destruct fm as [m|]; simpl;
      unfold Gen.empty_source, Gen.empty_source_again, Gen.header,
             Gen.fmt_dirmap, Gen.fmt_bool;
      simpl; f_equal; rewrite !string_app_assoc; reflexivity. }
  assert (Hw : Gen.Write E x s
               = (Gen.mkGenerator pkg var compressed prefix (Some ∅) (Some ∅),
                  Gen.format_Source E text)).
  { unfold Gen.Write. rewrite Hbuf. cbv zeta.
    change (Gen.files_of (Gen.set_dirs x (Gen.dirs_of x))) with (Gen.files_of x).
    rewrite Hd, Hf. reflexivity. }
  split; [exact Hbuf|]. split; [exact Hw|].
  split; [intros t Ht; now rewrite Hw|].
  split; [intros e He; now rewrite Hw|].
  now rewrite Hdirs, Hfiles.
Qed.

Lemma Write_empty_generator_witness :
  let x := Gen.mkGenerator "" "" true "" None None in
  let text := Gen.empty_source "main" "Assets" true in
  Gen.Write_buffer Gen.bare_env x (Gen.default_schedule x) = inr text /\
  Gen.Write Gen.bare_env x (Gen.default_schedule x)
  = (Gen.mkGenerator "" "" true "" (Some ∅) (Some ∅),
     Gen.format_Source Gen.bare_env text) /\
  (forall t, Gen.format_Source Gen.bare_env text = inr t ->
             (Gen.Write Gen.bare_env x (Gen.default_schedule x)).2 = inr t) /\
  (forall e, Gen.format_Source Gen.bare_env text = inl e ->
             (Gen.Write Gen.bare_env x (Gen.default_schedule x)).2 = inl e) /\
  Gen.build_dirmap "" (Gen.range_dirs (Gen.default_schedule x)) = ∅ /\
  Gen.entry_lits "" ∅ (Gen.range_files (Gen.default_schedule x)) = [].
Proof.
  apply (Write_empty_generator Gen.bare_env "" "" "" true None None
           (Gen.default_schedule (Gen.mkGenerator "" "" true "" None None)));
    [reflexivity | reflexivity | repeat split; reflexivity].
Defined.

Section Pieces.
Import Gen.

Variable E : Env.

Lemma concat_all_app (l1 l2 : list string) :
  concat_all (l1 ++ l2) = concat_all l1 +:+ concat_all l2.
Proof.
  induction l1 as [|a l1 IH]; [reflexivity|].
  change (a +:+ concat_all (l1 ++ l2) = (a +:+ concat_all l1) +:+ concat_all l2).
  now rewrite IH, string_app_assoc.
Qed.

(** The loop over the blobs, when every entry it meets is readable. *)
Lemma write_blobs_readable (compressed : bool) (variableName : string)
    (kvs : list (string * FileInfo)) :
  Forall (readable E) kvs ->
  forall (vnames : gmap string string) (w : string),
    write_blobs E compressed variableName kvs vnames w
    = inr (vnames_after E variableName kvs vnames,
           w +:+ concat_all (blob_decls E compressed variableName kvs)).
Proof.
  induction 1 as [|[k v] kvs Hkv _ IH]; intros vnames w.
  - simpl. now rewrite string_app_nil_r.
  - unfold blob_decls. simpl. unfold blob_of. simpl.
    destruct Hkv as [Hdir|[content Hread]]; simpl in *.
    + rewrite Hdir. apply IH.
    + destruct (fi_IsDir v); [apply IH|].
      rewrite Hread, IH. do 2 f_equal.
      now rewrite string_app_assoc.
Qed.

(** The loop ends without error only if every entry was readable. *)
Lemma write_blobs_inr (compressed : bool) (variableName : string)
    (kvs : list (string * FileInfo)) :
  forall (vnames : gmap string string) (w : string) r,
    write_blobs E compressed variableName kvs vnames w = inr r ->
    Forall (readable E) kvs.
Proof.
  induction kvs as [|[k v] kvs IH]; intros vnames w r Hr; [constructor|].
  simpl in Hr. destruct (fi_IsDir v) eqn:Hdir.
  - constructor; [now left|eauto].
  - destruct (read_file E k) as [err|content] eqn:Hread; [discriminate|].
    constructor; [right; now exists content|eauto].
Qed.

Lemma vnames_after_keeps (variableName : string) (kvs : list (string * FileInfo))
    (k : string) :
  forall vnames,
    vnames !! k = Some (blob_name E variableName k) ->
    vnames_after E variableName kvs vnames !! k = Some (blob_name E variableName k).
Proof.
  unfold vnames_after.
  induction kvs as [|[k' v'] kvs IH]; intros vnames Hv; simpl; [exact Hv|].
  apply IH. destruct (fi_IsDir v'); [exact Hv|].
  destruct (decide (k' = k)) as [->|Hne].
  - apply lookup_insert_eq.
  - now rewrite lookup_insert_ne.
Qed.

Lemma vnames_after_file (variableName : string) (kvs : list (string * FileInfo))
    (k : string) (v : FileInfo) :
  (k, v) ∈ kvs -> fi_IsDir v = false ->
  forall vnames,
    vnames_after E variableName kvs vnames !! k = Some (blob_name E variableName k).
Proof.
  intros Hin Hfile.
  induction kvs as [|[k' v'] kvs IH]; intros vnames; [now apply elem_of_nil in Hin|].
  apply elem_of_cons in Hin as [[= <- <-]|Hin].
  - unfold vnames_after. simpl. rewrite Hfile.
    apply vnames_after_keeps. apply lookup_insert_eq.
  - unfold vnames_after. simpl. now apply IH.
Qed.

Lemma vnames_after_other (variableName : string) (kvs : list (string * FileInfo))
    (k : string) :
  (forall v, (k, v) ∈ kvs -> fi_IsDir v = true) ->
  forall vnames, vnames_after E variableName kvs vnames !! k = vnames !! k.
Proof.
  unfold vnames_after.
  induction kvs as [|[k' v'] kvs IH]; intros Hdirs vnames; simpl; [reflexivity|].
  rewrite IH by (intros v Hv; apply Hdirs; now right).
  destruct (fi_IsDir v') eqn:Hd; [reflexivity|].
  destruct (decide (k' = k)) as [->|Hne].
  - rewrite (Hdirs v') in Hd by now left. discriminate.
  - now rewrite lookup_insert_ne.
Qed.

(** Whatever the order, the loop leaves the same [vnames]. *)
Lemma vnames_after_range (variableName : string) (m : gmap string FileInfo)
    (kvs : list (string * FileInfo)) :
  kvs ≡ₚ map_to_list m ->
  vnames_after E variableName kvs ∅ = blob_vnames E variableName m.
Proof.
  intros Hp. apply map_eq. intros k. unfold blob_vnames.
  rewrite map_lookup_imap.
  assert (Hin : forall v, (k, v) ∈ kvs <-> m !! k = Some v).
  { intros v. rewrite Hp. apply elem_of_map_to_list. }
  destruct (m !! k) as [v|] eqn:Hk; simpl.
  - destruct (fi_IsDir v) eqn:Hd.
    + rewrite vnames_after_other; [apply lookup_empty|].
      intros v' Hv'. apply Hin in Hv'. congruence.
    + apply (vnames_after_file variableName kvs k v); [now apply Hin|exact Hd].
  - rewrite vnames_after_other; [apply lookup_empty|].
    intros v' Hv'. apply Hin in Hv'. discriminate.
Qed.

Lemma write_entries_eq (prefix : string) (vnames : gmap string string)
    (kvs : list (string * FileInfo)) :
  forall w,
    write_entries E prefix vnames kvs w
    = w +:+ concat_all (print_entry E <$> entry_lits prefix vnames kvs).
Proof.
  unfold write_entries, entry_lits.
  induction kvs as [|[k v] kvs IH]; intros w; simpl.
  - now rewrite string_app_nil_r.
  - rewrite IH. now rewrite string_app_assoc.
Qed.

(** A run that reads every file writes the text [serialized]. *)
Lemma Write_buffer_serialized (x : Generator) (s : Schedule) :
  valid_schedule x s ->
  Forall (readable E) (range_blobs s) ->
  Write_buffer E x s = inr (serialized E x s).
Proof.
  intros (Hblobs & _ & _ & _) Hread.
  unfold Write_buffer, serialized, assemble.
  destruct (fsFilesMap x) as [m|] eqn:Hm.
  - rewrite write_blobs_readable by exact Hread.
    rewrite (vnames_after_range _ (files_of x)) by exact Hblobs.
    rewrite write_entries_eq. f_equal.
    rewrite !string_app_assoc. reflexivity.
  - assert (Hfiles : files_of x = ∅) by (unfold files_of; now rewrite Hm).
    rewrite Hfiles. unfold blob_vnames. rewrite map_imap_empty.
    rewrite write_entries_eq. f_equal.
    rewrite !string_app_assoc. reflexivity.
Qed.

(** A run that reaches [format.Source] has read every file. *)
Lemma Write_buffer_inr_readable (x : Generator) (s : Schedule) (w : string) :
  valid_schedule x s ->
  Write_buffer E x s = inr w ->
  Forall (readable E) (range_blobs s).
Proof.
  intros (Hblobs & _ & _ & _) Hw. unfold Write_buffer in Hw.
  destruct (fsFilesMap x) as [m|] eqn:Hm.
  - destruct (write_blobs E (Compressed x) (or_default (VariableName x) "Assets")
                          (range_blobs s) ∅ _) as [err|r] eqn:Hb; [discriminate|].
    exact (write_blobs_inr _ _ _ _ _ _ Hb).
  - assert (Hfiles : files_of x = ∅) by (unfold files_of; now rewrite Hm).
    rewrite Hfiles in Hblobs. apply range_of_empty in Hblobs.
    rewrite Hblobs. constructor.
Qed.

End Pieces.

Section DirMap.
Import Gen.

Variable prefix : string.

Lemma fold_dirmap_other (kvs : list (string * list string)) (kk : string) :
  kk ∉ dir_key prefix <$> kvs.*1 ->
  forall m : gmap string (list string),
    fold_left (fun dirmap kv =>
                 <[dir_key prefix kv.1 := map (listed_name prefix) kv.2]> dirmap)
              kvs m !! kk
    = m !! kk.
Proof.
  induction kvs as [|[k v] kvs IH]; intros Hnot m; simpl; [reflexivity|].
  simpl in Hnot. apply not_elem_of_cons in Hnot as [Hne Hnot].
  rewrite IH by exact Hnot. now rewrite lookup_insert_ne.
Qed.

Lemma fold_dirmap_lookup (kvs : list (string * list string)) (k : string)
    (v : list string) :
  NoDup (dir_key prefix <$> kvs.*1) -> (k, v) ∈ kvs ->
  forall m : gmap string (list string),
    fold_left (fun dirmap kv =>
                 <[dir_key prefix kv.1 := map (listed_name prefix) kv.2]> dirmap)
              kvs m !! dir_key prefix k
    = Some (map (listed_name prefix) v).
Proof.
  induction kvs as [|[k' v'] kvs IH]; intros Hnd Hin m;
    [now apply elem_of_nil in Hin|].
  simpl in Hnd. apply NoDup_cons in Hnd as [Hfresh Hnd].
  apply elem_of_cons in Hin as [[= <- <-]|Hin]; simpl.
  - rewrite fold_dirmap_other by exact Hfresh. apply lookup_insert_eq.
  - now apply IH.
Qed.

(** When no two keys strip to the same string, [dirmap] holds, under the
    stripped key of every pair, the stripped names of that pair. *)
Lemma build_dirmap_lookup (kvs : list (string * list string)) (k : string)
    (v : list string) :
  NoDup (dir_key prefix <$> kvs.*1) -> (k, v) ∈ kvs ->
  build_dirmap prefix kvs !! dir_key prefix k = Some (map (listed_name prefix) v).
Proof. intros Hnd Hin. now apply fold_dirmap_lookup. Qed.

(** ... and then the order of the range does not matter. *)
Lemma build_dirmap_perm (kvs1 kvs2 : list (string * list string)) :
  NoDup (dir_key prefix <$> kvs1.*1) -> kvs1 ≡ₚ kvs2 ->
  build_dirmap prefix kvs1 = build_dirmap prefix kvs2.
Proof.
  intros Hnd Hp. apply map_eq. intros kk.
  assert (Hnd2 : NoDup (dir_key prefix <$> kvs2.*1)) by now rewrite <- Hp.
  destruct (decide (kk ∈ dir_key prefix <$> kvs1.*1)) as [Hin|Hnot].
  - apply list_elem_of_fmap in Hin as [k [-> Hin]].
    apply list_elem_of_fmap in Hin as [[k' v] [-> Hin]]. simpl.
    rewrite (build_dirmap_lookup kvs1 k' v Hnd Hin).
    rewrite Hp in Hin. now rewrite (build_dirmap_lookup kvs2 k' v Hnd2 Hin).
  - unfold build_dirmap. rewrite fold_dirmap_other by exact Hnot.
    rewrite Hp in Hnot. now rewrite fold_dirmap_other by exact Hnot.
Qed.

End DirMap.

Section Schedules.
Import Gen.

Lemma range_dirs_NoDup (x : Generator) (kvs : list (string * list string)) :
  dir_keys_distinct x -> kvs ≡ₚ map_to_list (dirs_of x) ->
  NoDup (dir_key (StripPrefix x) <$> kvs.*1).
Proof.
  intros Hinj Hp. apply NoDup_fmap_2_strong.
  - intros k1 k2 H1 H2. apply Hinj; now apply (range_meets_dom _ _ _ Hp).
  - rewrite Hp. apply NoDup_fst_map_to_list.
Qed.

Lemma default_schedule_valid (x : Generator) : valid_schedule x (default_schedule x).
Proof. repeat split; reflexivity. Qed.

End Schedules.

(** C5, the claim as stated fails: for one collector state (the two
    directories [a] and [a/c]), one set of options and no file content at
    all, two runs that meet the entries of the maps in different orders
    write different texts. *)
Lemma Write_order_changes_text :
  exists r1 r2,
    Gen.Write_returns Gen.bare_env Gen.two_dirs (inr r1) /\
    Gen.Write_returns Gen.bare_env Gen.two_dirs (inr r2) /\
    r1 <> r2.
Proof.
  exists (Gen.serialized Gen.bare_env Gen.two_dirs (Gen.default_schedule Gen.two_dirs)),
         (Gen.serialized Gen.bare_env Gen.two_dirs Gen.two_dirs_swapped).
  split; [|split].
  - exists (Gen.default_schedule Gen.two_dirs).
    split; [apply default_schedule_valid|]. vm_compute. reflexivity.
  - exists Gen.two_dirs_swapped. split; [|vm_compute; reflexivity].
    repeat split; try reflexivity. vm_compute. apply perm_swap.
  - vm_compute. discriminate.
Qed.

(** C5 (amended). The serializer is deterministic up to the order in which
    the maps are enumerated. For a fixed collector state, fixed options and
    fixed file contents, if one run reaches [format.Source] then every run
    does, each with the text [serialized] of its enumeration order; two
    runs write the same blob declarations and the same entry literals,
    possibly in another order, and print the same directory map (in some
    order) when no two directory paths strip to the same key; runs that
    enumerate in the same order write the same text. *)
Theorem Write_deterministic_up_to_order
    (E : Gen.Env) (x : Gen.Generator) (s1 s2 : Gen.Schedule) (w1 : string) :
  Gen.valid_schedule x s1 -> Gen.valid_schedule x s2 ->
  Gen.Write_buffer E x s1 = inr w1 ->
  let variableName := Gen.or_default (Gen.VariableName x) "Assets" in
  let vnames := Gen.blob_vnames E variableName (Gen.files_of x) in
  w1 = Gen.serialized E x s1 /\
  Gen.Write_buffer E x s2 = inr (Gen.serialized E x s2) /\
  Gen.blob_decls E (Gen.Compressed x) variableName (Gen.range_blobs s1)
    ≡ₚ Gen.blob_decls E (Gen.Compressed x) variableName (Gen.range_blobs s2) /\
  Gen.entry_lits (Gen.StripPrefix x) vnames (Gen.range_files s1)
    ≡ₚ Gen.entry_lits (Gen.StripPrefix x) vnames (Gen.range_files s2) /\
  (Gen.dir_keys_distinct x -> Gen.print_dirs s1 ≡ₚ Gen.print_dirs s2) /\
  (Gen.range_blobs s1 = Gen.range_blobs s2 ->
   Gen.print_dirs s1 = Gen.print_dirs s2 ->
   Gen.range_files s1 = Gen.range_files s2 ->
   Gen.Write_buffer E x s2 = inr w1).
Proof.
  intros Hv1 Hv2 Hw1 variableName vnames.
  pose proof (Write_buffer_inr_readable E x s1 w1 Hv1 Hw1) as Hread1.
  pose proof Hv1 as (Hb1 & Hd1 & Hp1 & Hf1).
  pose proof Hv2 as (Hb2 & Hd2 & Hp2 & Hf2).
  assert (Hread2 : Forall (Gen.readable E) (Gen.range_blobs s2)).
  { rewrite Hb2, <- Hb1. exact Hread1. }
  pose proof (Write_buffer_serialized E x s1 Hv1 Hread1) as Hs1.
  pose proof (Write_buffer_serialized E x s2 Hv2 Hread2) as Hs2.
  assert (Hw : w1 = Gen.serialized E x s1) by congruence.
  split; [exact Hw|]. split; [exact Hs2|].
  split; [unfold Gen.blob_decls; now rewrite Hb1, Hb2|].
  split; [unfold Gen.entry_lits; now rewrite Hf1, Hf2|].
  split.
  - intros Hinj. rewrite Hp1, Hp2.
    rewrite (build_dirmap_perm (Gen.StripPrefix x) (Gen.range_dirs s1) (Gen.range_dirs s2));
      [reflexivity|now apply range_dirs_NoDup|now rewrite Hd1, Hd2].
  - intros Eb Ep Ef. rewrite Hs2, Hw. f_equal.
    unfold Gen.serialized. now rewrite Eb, Ep, Ef.
Qed.

Lemma Write_deterministic_up_to_order_witness :
  let E := Gen.bare_env in
  let x := Gen.two_dirs in
  let s1 := Gen.default_schedule x in
  let s2 := Gen.two_dirs_swapped in
  let w1 := Gen.serialized E x s1 in
  let variableName := Gen.or_default (Gen.VariableName x) "Assets" in
  let vnames := Gen.blob_vnames E variableName (Gen.files_of x) in
  w1 = Gen.serialized E x s1 /\
  Gen.Write_buffer E x s2 = inr (Gen.serialized E x s2) /\
  Gen.blob_decls E (Gen.Compressed x) variableName (Gen.range_blobs s1)
    ≡ₚ Gen.blob_decls E (Gen.Compressed x) variableName (Gen.range_blobs s2) /\
  Gen.entry_lits (Gen.StripPrefix x) vnames (Gen.range_files s1)
    ≡ₚ Gen.entry_lits (Gen.StripPrefix x) vnames (Gen.range_files s2) /\
  (Gen.dir_keys_distinct x -> Gen.print_dirs s1 ≡ₚ Gen.print_dirs s2) /\
  (Gen.range_blobs s1 = Gen.range_blobs s2 ->
   Gen.print_dirs s1 = Gen.print_dirs s2 ->
   Gen.range_files s1 = Gen.range_files s2 ->
   Gen.Write_buffer E x s2 = inr w1).
Proof.
  apply (Write_deterministic_up_to_order Gen.bare_env Gen.two_dirs
           (Gen.default_schedule Gen.two_dirs) Gen.two_dirs_swapped
           (Gen.serialized Gen.bare_env Gen.two_dirs (Gen.default_schedule Gen.two_dirs)));
    [repeat split; reflexivity
    | repeat split; try reflexivity; vm_compute; apply perm_swap
    | vm_compute; reflexivity].
Defined.

(* ===================================================================== *)
(** * Properties of the generator: what a walk leaves in the maps         *)
(* ===================================================================== *)

Section WalkInvariant.
Import Gen.

(** Induction over a directory tree. *)
Lemma node_induction (P : node -> Prop)
    (step : forall info open_err entries readdir_err,
        Forall P entries -> P (Node info open_err entries readdir_err)) :
  forall n : node, P n.
Proof.
  fix IH 1. intros [info open_err entries readdir_err]. apply step.
  induction entries as [|c cs IHcs]; constructor; [apply IH|exact IHcs].
Qed.

Lemma dirs_of_registered (x : Generator) (p : string) (info : FileInfo) :
  dirs_of (registered x p info) = dirs_of x.
Proof. reflexivity. Qed.

Lemma files_of_registered (x : Generator) (p : string) (info : FileInfo) :
  files_of (registered x p info) = <[p := info]> (files_of x).
Proof. reflexivity. Qed.

Lemma listing_registered (x : Generator) (p q : string) (info : FileInfo) :
  listing (registered x p info) q = listing x q.
Proof. reflexivity. Qed.

Lemma files_of_set_dirs (x : Generator) (m : gmap string (list string)) :
  files_of (set_dirs x m) = files_of x.
Proof. reflexivity. Qed.

Lemma dirs_of_set_dirs (x : Generator) (m : gmap string (list string)) :
  dirs_of (set_dirs x m) = m.
Proof. reflexivity. Qed.

Ltac maps_of :=
  rewrite ?files_of_set_dirs, ?dirs_of_set_dirs, ?files_of_registered,
          ?dirs_of_registered, ?listing_registered.



Lemma walked_dirs_file (parent : string) (n : node) :
  is_file n = true -> walked_dirs parent n = [].
Proof.
  destruct n as [info oe entries re]. unfold is_file. simpl.
  now destruct (fi_IsDir info).
Qed.

Lemma file_names_cons (c : node) (cs : list node) :
  file_names (c :: cs)
  = if is_file c then node_name c :: file_names cs else file_names cs.
Proof.
  unfold file_names. rewrite filter_cons.
  destruct (is_file c); simpl; [|reflexivity].
  destruct (decide (true = true)); [reflexivity|congruence].
Qed.

Lemma range_effect_of_entries (p : string) (entries : list node) :
  Forall walk_effect entries -> range_effect p entries.
Proof.
  induction 1 as [|c cs Hc _ IH]; intros x x' Hrange.
  - simpl in Hrange. injection Hrange as <-.
    split; [split; [auto|intros q Hq; now apply elem_of_nil in Hq]|].
    split; [reflexivity|]. intros _. split.
    + intros l0 Hl0. now rewrite app_nil_r.
    + intros q es Hq. now apply elem_of_nil in Hq.
  - simpl in Hrange.
    destruct (addPath x p c) as [x1 [err|]] eqn:Hadd; [discriminate|].
    destruct (Hc x p x1 Hadd) as ((Hmono1 & Hpaths1) & Hfile1 & Hdir1).
    destruct (IH x1 x' Hrange) as ((Hmono2 & Hpaths2) & Hframe2 & Hlist2).
    split; [split|split].
    + auto.
    + intros q Hq. simpl in Hq. apply elem_of_app in Hq as [Hq|Hq]; auto.
    + intros q Hne Hq. simpl in Hq. rewrite fmap_app in Hq.
      apply not_elem_of_app in Hq as [Hq1 Hq2].
      rewrite Hframe2 by assumption.
      destruct (is_file c) eqn:Hfc.
      * rewrite (Hfile1 eq_refl). now rewrite lookup_insert_ne.
      * now apply (Hdir1 eq_refl).
    + intros Hnd. simpl in Hnd. rewrite fmap_app in Hnd.
      apply NoDup_cons in Hnd as [Hp Hnd].
      apply not_elem_of_app in Hp as [Hp1 Hp2].
      apply NoDup_app in Hnd as (Hnd1 & Hdisj & Hnd2).
      assert (Hnd2' : NoDup (p :: (flat_map (walked_dirs p) cs).*1))
        by now apply NoDup_cons.
      destruct (Hlist2 Hnd2') as [Hp' Hothers].
      rewrite file_names_cons. split.
      * intros l0 Hl0. destruct (is_file c) eqn:Hfc.
        -- rewrite (Hp' (l0 ++ [node_name c])).
           ++ now rewrite <- app_assoc.
           ++ rewrite (Hfile1 eq_refl), lookup_insert_eq.
              unfold listing. now rewrite Hl0.
        -- apply Hp'. destruct (Hdir1 eq_refl) as [Hframe1 _].
           now rewrite Hframe1.
      * intros q es Hq. simpl in Hq. apply elem_of_app in Hq as [Hq|Hq].
        -- assert (Hq1 : q ∈ (walked_dirs p c).*1).
           { apply list_elem_of_fmap. now exists (q, es). }
           rewrite Hframe2.
           ++ destruct (is_file c) eqn:Hfc.
              ** rewrite (walked_dirs_file p c Hfc) in Hq.
                 now apply elem_of_nil in Hq.
              ** destruct (Hdir1 eq_refl) as [_ Hlist1]. now apply Hlist1.
           ++ intros ->. contradiction.
           ++ now apply Hdisj.
        -- now apply Hothers.
Qed.

Lemma walk_effect_all (n : node) : walk_effect n.
Proof.
  induction n as [info oe entries re IH] using node_induction.
  intros x parent x' Hadd. rewrite addPath_eq in Hadd. simpl in Hadd.
  unfold is_file, node_name. simpl node_info. simpl walked_dirs. simpl walked_paths.
  set (p := Join parent (fi_Name info)) in *.
  destruct (fi_IsDir info) eqn:Hd; simpl.
  - destruct (readdir_error oe re) as [err|]; [discriminate|].
    destruct (range_effect_of_entries p entries IH _ _ Hadd)
      as ((Hmono & Hpaths) & Hframe & Hlist).
    assert (Hreg : forall q, q ∈ dom (<[p := info]> (files_of x)) ->
                             q ∈ dom (files_of x')).
    { intros q Hq. apply Hmono. now maps_of. }
    split; [split|split; [discriminate|intros _; split]].
    + intros q Hq. apply Hreg. rewrite dom_insert_L. set_solver.
    + intros q Hq. apply elem_of_cons in Hq as [->|Hq]; [|auto].
      apply Hreg. rewrite dom_insert_L. set_solver.
    + intros q Hq. apply not_elem_of_cons in Hq as [Hne Hq].
      rewrite Hframe by assumption. maps_of. now rewrite lookup_insert_ne.
    + intros Hnd q es Hq. destruct (Hlist Hnd) as [Hp' Hothers].
      apply elem_of_cons in Hq as [[= -> ->]|Hq]; [|now apply Hothers].
      apply (Hp' []). maps_of. apply lookup_insert_eq.
  - injection Hadd as <-. maps_of.
    split; [split|split; [reflexivity|discriminate]].
    + intros q Hq. rewrite dom_insert_L. set_solver.
    + intros q Hq. apply list_elem_of_singleton in Hq as ->.
      rewrite dom_insert_L. set_solver.
Qed.

(** The paths under which the walk registers the entries of a directory
    it enters are paths of the walk, and so is the directory's. *)
Lemma walked_dirs_paths (n : node) :
  forall parent q es,
    (q, es) ∈ walked_dirs parent n ->
    q ∈ walked_paths parent n /\
    forall c, c ∈ es -> Join q (node_name c) ∈ walked_paths parent n.
Proof.
  induction n as [info oe entries re IH] using node_induction.
  intros parent q es Hq. simpl in *.
  set (p := Join parent (fi_Name info)) in *.
  destruct (fi_IsDir info); [|now apply elem_of_nil in Hq].
  assert (Hsub : forall l, Forall (fun c => forall parent q es,
                     (q, es) ∈ walked_dirs parent c ->
                     q ∈ walked_paths parent c /\
                     forall c', c' ∈ es -> Join q (node_name c') ∈ walked_paths parent c) l ->
                 forall q es, (q, es) ∈ flat_map (walked_dirs p) l ->
                   q ∈ flat_map (walked_paths p) l /\
                   forall c', c' ∈ es ->
                     Join q (node_name c') ∈ flat_map (walked_paths p) l).
  { induction 1 as [|c l Hc _ IHl]; intros q' es' Hq'; simpl in *;
      [now apply elem_of_nil in Hq'|].
    apply elem_of_app in Hq' as [Hq'|Hq'].
    - destruct (Hc p q' es' Hq') as [H1 H2].
      split; [apply elem_of_app; now left|].
      intros c' Hc'. apply elem_of_app. left. now apply H2.
    - destruct (IHl q' es' Hq') as [H1 H2].
      split; [apply elem_of_app; now right|].
      intros c' Hc'. apply elem_of_app. right. now apply H2. }
  assert (Hchild : forall l c, c ∈ l ->
                     Join p (node_name c) ∈ flat_map (walked_paths p) l).
  { induction l as [|c0 l IHl]; intros c Hc; [now apply elem_of_nil in Hc|].
    simpl. apply elem_of_app. apply elem_of_cons in Hc as [->|Hc].
    - left. destruct c0 as [i o e r]. unfold node_name. simpl.
      destruct (fi_IsDir i); [left|apply list_elem_of_singleton; reflexivity].
    - right. now apply IHl. }
  apply elem_of_cons in Hq as [[= -> ->]|Hq].
  - split; [left|]. intros c Hc. right. now apply Hchild.
  - destruct (Hsub entries IH q es Hq) as [H1 H2].
    split; [now right|]. intros c Hc. right. now apply H2.
Qed.

End WalkInvariant.

Section Listings.
Import Gen.

(** With distinct stripped keys, the emitted directory map holds each
    listing of the collector under its stripped key, names stripped. *)
Lemma dirmap_listing_emitted (x : Generator) (s : Schedule) (k : string)
    (v : list string) :
  dir_keys_distinct x -> valid_schedule x s -> dirs_of x !! k = Some v ->
  build_dirmap (StripPrefix x) (range_dirs s) !! dir_key (StripPrefix x) k
  = Some (map (listed_name (StripPrefix x)) v).
Proof.
  intros Hinj (_ & Hdirs & _ & _) Hk.
  apply build_dirmap_lookup; [now apply range_dirs_NoDup|].
  rewrite Hdirs. now apply elem_of_map_to_list.
Qed.

Lemma NoDup_filter_eq_once {A} `{EqDecision A} (l : list A) (a : A) :
  NoDup l -> a ∈ l -> length (filter (fun b => b = a) l) = 1%nat.
Proof.
  induction 1 as [|b l Hb Hnd IH]; intros Ha; [now apply elem_of_nil in Ha|].
  rewrite filter_cons. destruct (decide (b = a)) as [->|Hne].
  - simpl. f_equal. clear IH Ha Hnd.
    induction l as [|c l IHl]; [reflexivity|].
    apply not_elem_of_cons in Hb as [Hne Hb].
    rewrite filter_cons_False by congruence. now apply IHl.
  - apply elem_of_cons in Ha as [->|Ha]; [congruence|now apply IH].
Qed.

Lemma NoDup_fmap_elem_inj {A B} (f : A -> B) (l : list A) (a b : A) :
  NoDup (f <$> l) -> a ∈ l -> b ∈ l -> f a = f b -> a = b.
Proof.
  induction l as [|c l IH]; intros Hnd Ha Hb Hf; [now apply elem_of_nil in Ha|].
  simpl in Hnd. apply NoDup_cons in Hnd as [Hc Hnd].
  apply elem_of_cons in Ha as [->|Ha]; apply elem_of_cons in Hb as [->|Hb].
  - reflexivity.
  - exfalso. apply Hc. rewrite Hf. now apply list_elem_of_fmap_2.
  - exfalso. apply Hc. rewrite <- Hf. now apply list_elem_of_fmap_2.
  - now apply IH.
Qed.

Lemma file_names_elem (entries : list node) (nm : string) :
  nm ∈ file_names entries <->
  exists c, c ∈ entries /\ is_file c = true /\ node_name c = nm.
Proof.
  unfold file_names. rewrite list_elem_of_fmap. split.
  - intros [c [-> Hc]]. apply list_elem_of_filter in Hc as [Hf Hc]. now exists c.
  - intros [c (Hc & Hf & <-)]. exists c. split; [reflexivity|].
    now apply list_elem_of_filter.
Qed.

Lemma file_names_NoDup (entries : list node) :
  NoDup (node_name <$> entries) -> NoDup (file_names entries).
Proof.
  unfold file_names. intros Hnd. apply (sublist_NoDup _ _ Hnd).
  apply fmap_sublist, sublist_filter.
Qed.

(** In a directory whose entries have distinct names, the name of a file
    occurs once in [file_names], the name of a subdirectory never. *)
Lemma file_names_once (entries : list node) (c : node) :
  NoDup (node_name <$> entries) -> c ∈ entries ->
  if is_file c
  then length (filter (fun nm => nm = node_name c) (file_names entries)) = 1%nat
  else node_name c ∉ file_names entries.
Proof.
  intros Hnd Hc. destruct (is_file c) eqn:Hf.
  - apply NoDup_filter_eq_once; [now apply file_names_NoDup|].
    apply file_names_elem. now exists c.
  - intros [c' (Hc' & Hf' & Hname)]%file_names_elem.
    assert (c' = c) by now apply (NoDup_fmap_elem_inj node_name entries).
    congruence.
Qed.

Lemma scenario_dirs :
  dirs_of scenario_collected = {[ "a" := ["b.txt"]; "a/c" := [] ]}.
Proof. vm_compute. reflexivity. Qed.

Lemma scenario_dir_keys_distinct : dir_keys_distinct scenario_collected.
Proof.
  intros k1 k2. rewrite scenario_dirs, dom_insert_L, dom_singleton_L.
  rewrite !elem_of_union, !elem_of_singleton.
  intros [->| ->] [->| ->]; vm_compute; congruence.
Qed.

End Listings.

(** C2, the claim as stated fails: in the scenario of the specification
    (directory [a] with the file [a/b.txt] and the empty directory [a/c],
    prefix ["a"]) the walk succeeds and, whatever the order of the ranges,
    the emitted listing of ["/"] is [["b.txt"]]: the subdirectory [c] is an
    entries key (["/c"]) with its own empty listing, but its name is not in
    the listing of its parent. *)
Lemma scenario_listing_omits_subdirectory :
  Gen.Add Gen.scenario_Stat Gen.scenario_gen "a" = (Gen.scenario_collected, None) /\
  (forall s, Gen.valid_schedule Gen.scenario_collected s ->
     Gen.build_dirmap "a" (Gen.range_dirs s) !! "/" = Some ["b.txt"] /\
     Gen.build_dirmap "a" (Gen.range_dirs s) !! "/c" = Some [] /\
     (forall kk, kk ∈ Gen.lit_key <$> Gen.entry_lits "a" ∅ (Gen.range_files s)
                 <-> kk ∈ ["/"; "/b.txt"; "/c"])) /\
  ["b.txt"] <> ["b.txt"; "c"].
Proof.
  split; [vm_compute; reflexivity|]. split; [|discriminate].
  intros s Hs. split; [|split].
  - exact (dirmap_listing_emitted Gen.scenario_collected s "a" ["b.txt"]
             scenario_dir_keys_distinct Hs (eq_refl _)).
  - exact (dirmap_listing_emitted Gen.scenario_collected s "a/c" []
             scenario_dir_keys_distinct Hs (eq_refl _)).
  - destruct Hs as (_ & _ & _ & Hfiles). intros kk.
    rewrite lit_keys, Hfiles.
    change (Gen.file_key "a" <$> (map_to_list (Gen.files_of Gen.scenario_collected)).*1)
      with ["/c"; "/b.txt"; "/"].
    rewrite !elem_of_cons. pose proof (not_elem_of_nil kk). tauto.
Qed.

(** C2 (amended). After a successful [Add] of a tree whose directories
    get pairwise distinct paths, every path of the walk is a key of the
    entries map; every directory of the walk, so the parent of every
    non-root path, is a key of the entries map and of the listing map;
    the listing of a directory is the names of its entries that are not
    directories, in enumeration order. With distinct names in a directory,
    the name of a file is in the listing of its parent exactly once, and
    the name of a subdirectory is not in it. The keys are emitted
    stripped, as entries key and as directory key, and when no two
    directory keys strip to the same string the emitted listing is the
    listing with every name stripped. *)
Theorem Add_registers_tree
    (os_Stat : string -> error + Gen.node) (x0 x : Gen.Generator)
    (p0 : string) (n : Gen.node) :
  os_Stat (Clean p0) = inr n ->
  Gen.Add os_Stat x0 p0 = (x, None) ->
  NoDup (Gen.walked_dirs (Dir (Clean p0)) n).*1 ->
  let prefix := Gen.StripPrefix x in
  (forall q, q ∈ Gen.walked_paths (Dir (Clean p0)) n -> q ∈ dom (Gen.files_of x)) /\
  (forall p entries,
     (p, entries) ∈ Gen.walked_dirs (Dir (Clean p0)) n ->
     p ∈ dom (Gen.files_of x) /\
     Gen.dirs_of x !! p = Some (Gen.file_names entries) /\
     (forall c, c ∈ entries ->
        Join p (Gen.node_name c) ∈ dom (Gen.files_of x) /\
        (NoDup (Gen.node_name <$> entries) ->
         if Gen.is_file c
         then length (filter (fun nm => nm = Gen.node_name c)
                             (Gen.file_names entries)) = 1%nat
         else Gen.node_name c ∉ Gen.file_names entries)) /\
     (forall s vnames,
        Gen.valid_schedule x s ->
        Gen.file_key prefix p
        ∈ Gen.lit_key <$> Gen.entry_lits prefix vnames (Gen.range_files s) /\
        Gen.dir_key prefix p ∈ dom (Gen.build_dirmap prefix (Gen.range_dirs s)) /\
        (Gen.dir_keys_distinct x ->
         Gen.build_dirmap prefix (Gen.range_dirs s) !! Gen.dir_key prefix p
         = Some (map (Gen.listed_name prefix) (Gen.file_names entries))))).
Proof.
  intros Hstat Hadd Hnd prefix. unfold Gen.Add in Hadd. rewrite Hstat in Hadd.
  destruct (walk_effect_all n x0 (Dir (Clean p0)) x Hadd)
    as ((_ & Hpaths) & _ & Hdir).
  split; [exact Hpaths|].
  intros p entries Hp.
  assert (Hisdir : Gen.is_file n = false).
  { destruct (Gen.is_file n) eqn:Hf; [|reflexivity].
    rewrite (walked_dirs_file _ _ Hf) in Hp. now apply elem_of_nil in Hp. }
  destruct (Hdir Hisdir) as [_ Hlist].
  destruct (walked_dirs_paths n _ p entries Hp) as [Hpw Hchildren].
  assert (Hpdom : p ∈ dom (Gen.files_of x)) by now apply Hpaths.
  assert (Hplist : Gen.dirs_of x !! p = Some (Gen.file_names entries))
    by now apply Hlist.
  split; [exact Hpdom|]. split; [exact Hplist|]. split.
  - intros c Hc. split; [apply Hpaths; now apply Hchildren|].
    intros Hnames. now apply file_names_once.
  - intros s vnames Hs. split; [now apply entries_key_emitted|].
    split.
    + apply dirmap_key_emitted; [exact Hs|]. apply elem_of_dom.
      exists (Gen.file_names entries). exact Hplist.
    + intros Hinj. now apply dirmap_listing_emitted.
Qed.

Lemma Add_registers_tree_witness :
  let x := Gen.scenario_collected in
  let prefix := Gen.StripPrefix x in
  (forall q, q ∈ Gen.walked_paths (Dir (Clean "a")) Gen.scenario_a ->
             q ∈ dom (Gen.files_of x)) /\
  (forall p entries,
     (p, entries) ∈ Gen.walked_dirs (Dir (Clean "a")) Gen.scenario_a ->
     p ∈ dom (Gen.files_of x) /\
     Gen.dirs_of x !! p = Some (Gen.file_names entries) /\
     (forall c, c ∈ entries ->
        Join p (Gen.node_name c) ∈ dom (Gen.files_of x) /\
        (NoDup (Gen.node_name <$> entries) ->
         if Gen.is_file c
         then length (filter (fun nm => nm = Gen.node_name c)
                             (Gen.file_names entries)) = 1%nat
         else Gen.node_name c ∉ Gen.file_names entries)) /\
     (forall s vnames,
        Gen.valid_schedule x s ->
        Gen.file_key prefix p
        ∈ Gen.lit_key <$> Gen.entry_lits prefix vnames (Gen.range_files s) /\
        Gen.dir_key prefix p ∈ dom (Gen.build_dirmap prefix (Gen.range_dirs s)) /\
        (Gen.dir_keys_distinct x ->
         Gen.build_dirmap prefix (Gen.range_dirs s) !! Gen.dir_key prefix p
         = Some (map (Gen.listed_name prefix) (Gen.file_names entries))))).
Proof.
  apply (Add_registers_tree Gen.scenario_Stat Gen.scenario_gen
           Gen.scenario_collected "a" Gen.scenario_a);
    [reflexivity | vm_compute; reflexivity
    | apply (bool_decide_unpack _); vm_compute; reflexivity].
Defined.

(* ===================================================================== *)
(** * More on the runtime                                                 *)
(* ===================================================================== *)

(** X1. Within the listing [readDir] clamps: for a start index not beyond
    the end it returns, without error, the entries of the names
    [d[index : min(index+count, len d)]] in listing order, that is
    [min(count, len d - index)] of them. *)
Theorem readDir_returns_clamped_slice
    (f : Assets.FileSystem) (p : string) (d : list string) (index count : Z) :
  Assets.Dirs f !! p = Some d ->
  0 <= index <= len d -> 0 <= count -> index + count <= max_int ->
  exists ret,
    Assets.readDir f p index count = Returns (ret, None) /\
    ret = map (Assets.resolve f p) (take (Z.to_nat count) (drop (Z.to_nat index) d)) /\
    len ret = Z.min count (len d - index).
Proof.
  intros Hd Hi Hc Hsum. eexists.
  split; [exact (readDir_in_range f p d index count Hd Hi Hc Hsum)|].
  split; [reflexivity|].
  unfold len in *. rewrite length_map, length_take, length_drop. lia.
Qed.

Lemma readDir_returns_clamped_slice_witness :
  exists ret,
    Assets.readDir Assets.dir_fs "/" 0 5 = Returns (ret, None) /\
    ret = map (Assets.resolve Assets.dir_fs "/") (take (Z.to_nat 5) (drop (Z.to_nat 0) ["b.txt"])) /\
    len ret = Z.min 5 (len ["b.txt"] - 0).
Proof.
  apply (readDir_returns_clamped_slice Assets.dir_fs "/" ["b.txt"] 0 5);
    [reflexivity | vm_compute; split; discriminate | lia | vm_compute; discriminate].
Defined.

Section ReadOnly.
Import Assets.

Lemma same_file_set_buf (f : File) (b : option Reader) : same_file f (set_buf f b).
Proof. repeat split. Qed.

Lemma same_files_refl (st : Store) : same_files st st.
Proof. intros q. destruct (st !! q); [repeat split|exact I]. Qed.

Lemma same_files_set_buf (st : Store) (p : ptr) (f : File) (b : option Reader) :
  st !! p = Some f -> same_files st (<[p := set_buf f b]> st).
Proof.
  intros Hp q. destruct (decide (p = q)) as [<-|Hne].
  - rewrite Hp, lookup_insert_eq. apply same_file_set_buf.
  - rewrite lookup_insert_ne by exact Hne.
    destruct (st !! q); [repeat split|exact I].
Qed.

Lemma wf_store_insert (st : Store) (p : ptr) (f g : File) :
  wf_store st -> st !! p = Some f -> Data g = Data f -> wf_File g ->
  wf_store (<[p := g]> st).
Proof.
  intros Hwf Hp Hdata Hg q h Hq. destruct (decide (p = q)) as [<-|Hne].
  - rewrite lookup_insert_eq in Hq. injection Hq as <-.
    split; [exact Hg|]. rewrite Hdata. now apply (Hwf p f).
  - rewrite lookup_insert_ne in Hq by exact Hne. now apply (Hwf q h).
Qed.

(** [Reader_Read] and [Reader_Seek] keep a reader on its slice at a
    position that is not negative. *)
Lemma Reader_Read_wf (r : Reader) (n : nat) :
  0 <= r_i r -> len (r_s r) <= max_int ->
  r_s (Reader_Read r n).1 = r_s r /\ 0 <= r_i (Reader_Read r n).1.
Proof.
  intros Hi Hmax. unfold Reader_Read.
  destruct (Z.leb_spec (len (r_s r)) (r_i r)); simpl; [now split|].
  split; [reflexivity|].
  set (chunk := take n (drop (Z.to_nat (r_i r)) (r_s r))).
  assert (0 <= len chunk <= len (r_s r) - r_i r).
  { unfold chunk, len in *. rewrite length_take, length_drop. lia. }
  unfold int_add. rewrite wrap64_id by (unfold min_int, max_int in *; lia). lia.
Qed.

Lemma Reader_Seek_wf (r : Reader) (offset whence : Z) :
  0 <= r_i r ->
  r_s (Reader_Seek r offset whence).1 = r_s r /\
  0 <= r_i (Reader_Seek r offset whence).1.
Proof.
  intros Hi. unfold Reader_Seek.
  destruct (whence =? SeekStart); [|destruct (whence =? SeekCurrent);
    [|destruct (whence =? SeekEnd)]];
    try (match goal with |- context [?a <? 0] =>
           destruct (Z.ltb_spec a 0) end; simpl; split; (reflexivity || lia)).
  simpl. now split.
Qed.

Lemma ensure_buf_wf (f : File) :
  wf_File f -> r_s (ensure_buf f) = Data f /\ 0 <= r_i (ensure_buf f).
Proof.
  unfold wf_File, ensure_buf. destruct (buf f); [tauto|].
  intros _. simpl. split; [reflexivity|lia].
Qed.

End ReadOnly.

(** X2. The file system is read-only through its handles: [Open], [Read],
    [Seek] and [Close] change at most the reader of the object they are
    called on (path, mode, modification time, data and back reference of
    every object stay what they were, and no object appears or vanishes),
    every other object stays exactly as it was, its reader included ([Open]
    acts on the object that [Files] holds for the path, the other three on
    their receiver), and [Stat] and [Readdir] do not change the store at
    all. *)
Theorem handle_operations_keep_files
    (fsys : Assets.FileSystem) (path : string) (p : positive) (n : nat)
    (offset whence index count : Z) (st : gmap positive Assets.File) :
  Assets.same_files st (Assets.Open fsys path st).1 /\
  Assets.same_files st (Assets.Read p n st).1 /\
  Assets.same_files st (Assets.Seek p offset whence st).1 /\
  Assets.same_files st (Assets.Close p st).1 /\
  (Assets.Stat p st).1 = st /\
  (Assets.Readdir p index count st).1 = st /\
  (forall q, Assets.Files fsys !! path <> Some q ->
             (Assets.Open fsys path st).1 !! q = st !! q) /\
  (forall q, q <> p ->
             (Assets.Read p n st).1 !! q = st !! q /\
             (Assets.Seek p offset whence st).1 !! q = st !! q /\
             (Assets.Close p st).1 !! q = st !! q).
Proof.
  split; [|split; [|split; [|split; [|split; [|split; [|split]]]]]];
    [| | | | | | |intros q Hq; split; [|split]].
  7: { intros q Hq. unfold Assets.Open.
       destruct (Assets.Files fsys !! path) as [fi|]; [|reflexivity].
       destruct (st !! fi) as [obj|]; [|reflexivity].
       destruct (Assets.IsDir obj); simpl; [reflexivity|].
       apply lookup_insert_ne. congruence. }
  7: { unfold Assets.Read. destruct (st !! p) as [f|]; [|reflexivity].
       destruct (Reader_Read (Assets.ensure_buf f) n) as [r res].
       now apply lookup_insert_ne. }
  7: { unfold Assets.Seek. destruct (st !! p) as [f|]; [|reflexivity].
       destruct (Reader_Seek (Assets.ensure_buf f) offset whence) as [r res].
       now apply lookup_insert_ne. }
  7: { unfold Assets.Close. destruct (st !! p) as [f|]; [|reflexivity].
       now apply lookup_insert_ne. }
  - unfold Assets.Open. destruct (Assets.Files fsys !! path) as [fi|];
      [|apply same_files_refl].
    destruct (st !! fi) as [obj|] eqn:Hfi; [|apply same_files_refl].
    destruct (Assets.IsDir obj); simpl;
      [apply same_files_refl|now apply same_files_set_buf].
  - unfold Assets.Read. destruct (st !! p) as [f|] eqn:Hp; [|apply same_files_refl].
    destruct (Reader_Read (Assets.ensure_buf f) n) as [r res].
    now apply same_files_set_buf.
  - unfold Assets.Seek. destruct (st !! p) as [f|] eqn:Hp; [|apply same_files_refl].
    destruct (Reader_Seek (Assets.ensure_buf f) offset whence) as [r res].
    now apply same_files_set_buf.
  - unfold Assets.Close. destruct (st !! p) as [f|] eqn:Hp; [|apply same_files_refl].
    now apply same_files_set_buf.
  - reflexivity.
  - unfold Assets.Readdir. destruct (st !! p) as [f|]; [|reflexivity].
    destruct (Assets.IsDir f); [|reflexivity].
    destruct (Assets.fs f); reflexivity.
Qed.

(** X3. The reader invariant: in a store where every reader reads the
    data of its own file from a position that is not negative (and every
    data slice has a length that fits an [int]), [Open], [Read], [Seek] and
    [Close] leave every reader so; in particular no sequence of these
    calls makes a read position negative or moves a reader to other data. *)
Theorem handle_operations_keep_readers
    (fsys : Assets.FileSystem) (path : string) (p : positive) (n : nat)
    (offset whence : Z) (st : gmap positive Assets.File) :
  Assets.wf_store st ->
  Assets.wf_store (Assets.Open fsys path st).1 /\
  Assets.wf_store (Assets.Read p n st).1 /\
  Assets.wf_store (Assets.Seek p offset whence st).1 /\
  Assets.wf_store (Assets.Close p st).1.
Proof.
  intros Hwf. split; [|split; [|split]].
  - unfold Assets.Open. destruct (Assets.Files fsys !! path) as [fi|]; [|exact Hwf].
    destruct (st !! fi) as [obj|] eqn:Hfi; [|exact Hwf].
    destruct (Assets.IsDir obj); simpl; [exact Hwf|].
    apply (wf_store_insert st fi obj); [exact Hwf|exact Hfi|reflexivity|].
    unfold Assets.wf_File. simpl. split; [reflexivity|lia].
  - unfold Assets.Read. destruct (st !! p) as [f|] eqn:Hp; [|exact Hwf].
    destruct (Hwf p f Hp) as [Hf Hmax].
    destruct (ensure_buf_wf f Hf) as [Hs Hi].
    pose proof (Reader_Read_wf (Assets.ensure_buf f) n Hi) as Hr.
    rewrite Hs in Hr. specialize (Hr Hmax).
    destruct (Reader_Read (Assets.ensure_buf f) n) as [r res]. simpl in *.
    apply (wf_store_insert st p f); [exact Hwf|exact Hp|reflexivity|].
    unfold Assets.wf_File. simpl. exact Hr.
  - unfold Assets.Seek. destruct (st !! p) as [f|] eqn:Hp; [|exact Hwf].
    destruct (Hwf p f Hp) as [Hf Hmax].
    destruct (ensure_buf_wf f Hf) as [Hs Hi].
    pose proof (Reader_Seek_wf (Assets.ensure_buf f) offset whence Hi) as Hr.
    rewrite Hs in Hr.
    destruct (Reader_Seek (Assets.ensure_buf f) offset whence) as [r res]. simpl in *.
    apply (wf_store_insert st p f); [exact Hwf|exact Hp|reflexivity|].
    unfold Assets.wf_File. simpl. exact Hr.
  - unfold Assets.Close. destruct (st !! p) as [f|] eqn:Hp; [|exact Hwf].
    apply (wf_store_insert st p f); [exact Hwf|exact Hp|reflexivity|exact I].
Qed.

Lemma handle_operations_keep_readers_witness :
  Assets.wf_store (Assets.Open Assets.hi_fs "/b.txt" Assets.hi_store).1 /\
  Assets.wf_store (Assets.Read 1%positive 1 Assets.hi_store).1 /\
  Assets.wf_store (Assets.Seek 1%positive 1 SeekStart Assets.hi_store).1 /\
  Assets.wf_store (Assets.Close 1%positive Assets.hi_store).1.
Proof.
  apply (handle_operations_keep_readers Assets.hi_fs "/b.txt" 1%positive 1 1
           SeekStart Assets.hi_store).
  intros q f Hq. unfold Assets.hi_store in Hq.
  apply lookup_singleton_Some in Hq as [_ <-].
  split; [exact I|vm_compute; discriminate].
Defined.

Section SeekAndRead.
Import Assets.

(** What [Read] does to a file whose reader stands at position [i]. *)
Lemma Read_at (p : ptr) (n : nat) (st : Store) (f : File) (i : Z) :
  st !! p = Some f -> ensure_buf f = mkReader (Data f) i ->
  0 <= i -> len (Data f) <= max_int ->
  Read p n st
  = if len (Data f) <=? i
    then (<[p := set_buf f (Some (mkReader (Data f) i))]> st, Returns ([], Some EOF))
    else let chunk := take n (drop (Z.to_nat i) (Data f)) in
         (<[p := set_buf f (Some (mkReader (Data f) (i + len chunk)))]> st,
          Returns (chunk, None)).
Proof.
  intros Hp Hens Hi Hmax. unfold Read. rewrite Hp, Hens. unfold Reader_Read. simpl.
  destruct (Z.leb_spec (len (Data f)) i); [reflexivity|].
  set (chunk := take n (drop (Z.to_nat i) (Data f))).
  assert (0 <= len chunk <= len (Data f) - i).
  { unfold chunk, len in *. rewrite length_take, length_drop. lia. }
  unfold int_add. rewrite wrap64_id by (unfold min_int, max_int in *; lia).
  reflexivity.
Qed.

Lemma ensure_buf_eq (f : File) :
  wf_File f -> ensure_buf f = mkReader (Data f) (r_i (ensure_buf f)).
Proof.
  unfold wf_File, ensure_buf. destruct (buf f) as [[s i]|]; [|reflexivity].
  simpl. now intros [-> _].
Qed.

End SeekAndRead.

(** X4. Seeking and reading compose: after [Seek(i, io.SeekStart)] with
    [i >= 0], which succeeds and returns [i], reading the handle to the
    end yields the data from index [i] on (nothing when [i] is at or
    beyond the end), whatever the size of the buffer. *)
Theorem Seek_start_then_read_all
    (st : gmap positive Assets.File) (p : positive) (f : Assets.File)
    (i : Z) (n fuel : nat) :
  st !! p = Some f -> Assets.wf_File f ->
  len (Assets.Data f) <= max_int ->
  0 <= i -> (0 < n)%nat -> (length (Assets.Data f) < fuel)%nat ->
  exists st1 st2,
    Assets.Seek p i SeekStart st = (st1, Returns (i, None)) /\
    Assets.position p st1 = Some i /\
    Assets.read_all fuel n p st1 []
    = (st2, Some (Returns (drop (Z.to_nat i) (Assets.Data f), None))).
Proof.
  intros Hp Hwf Hmax Hi Hn Hfuel.
  destruct (ensure_buf_wf f Hwf) as [Hs _].
  set (g := Assets.set_buf f (Some (mkReader (Assets.Data f) i))).
  assert (Hseek : Assets.Seek p i SeekStart st = (<[p := g]> st, Returns (i, None))).
  { unfold Assets.Seek. rewrite Hp. unfold Reader_Seek. simpl.
    destruct (Z.ltb_spec i 0); [lia|]. unfold g. now rewrite Hs. }
  assert (Hg : (<[p := g]> st) !! p = Some g) by apply lookup_insert_eq.
  destruct (Z.le_gt_cases i (len (Assets.Data f))) as [Hin|Hout].
  - destruct (read_all_from p n Hn fuel (<[p := g]> st) g [] i) as [st2 Hst2];
      try (simpl; unfold len in *; lia); [exact Hg|reflexivity|].
    exists (<[p := g]> st), st2. split; [exact Hseek|].
    split; [|exact Hst2]. unfold Assets.position. now rewrite Hg.
  - destruct fuel as [|fuel]; [lia|]. eexists _, _. split; [exact Hseek|].
    split; [unfold Assets.position; now rewrite Hg|].
    simpl. rewrite (Read_at p n _ g i Hg eq_refl Hi Hmax). simpl.
    destruct (Z.leb_spec (len (Assets.Data f)) i); [|lia].
    rewrite decide_True by reflexivity.
    rewrite drop_ge by (unfold len in *; lia). reflexivity.
Qed.

Lemma Seek_start_then_read_all_witness :
  exists st1 st2,
    Assets.Seek 1%positive 1 SeekStart Assets.hi_store = (st1, Returns (1, None)) /\
    Assets.position 1%positive st1 = Some 1 /\
    Assets.read_all 3 1 1%positive st1 []
    = (st2, Some (Returns (drop (Z.to_nat 1) Assets.hi_bytes, None))).
Proof.
  apply (Seek_start_then_read_all Assets.hi_store 1%positive Assets.hi_file 1 1 3);
    [reflexivity | exact I | vm_compute; discriminate | lia | lia | simpl; lia].
Defined.

(** X5. The edges of [Seek]: a negative offset from the start is refused
    with the "negative position" error, a [whence] other than 0, 1, 2 with
    the "invalid whence" error, both returning 0 and leaving the read
    position where it was; [Seek(0, io.SeekEnd)] succeeds and returns the
    size of the file. *)
Theorem Seek_refusals_and_end
    (st : gmap positive Assets.File) (p : positive) (f : Assets.File) :
  st !! p = Some f -> Assets.wf_File f ->
  len (Assets.Data f) <= max_int ->
  (forall offset, offset < 0 ->
     exists st1,
       Assets.Seek p offset SeekStart st = (st1, Returns (0, Some ErrSeekNegative)) /\
       Assets.position p st1 = Assets.position p st) /\
  (forall offset whence, whence < 0 \/ 2 < whence ->
     exists st1,
       Assets.Seek p offset whence st = (st1, Returns (0, Some ErrSeekWhence)) /\
       Assets.position p st1 = Assets.position p st) /\
  (exists st1,
     Assets.Seek p 0 SeekEnd st = (st1, Returns (Assets.Size f, None)) /\
     Assets.position p st1 = Some (Assets.Size f)).
Proof.
  intros Hp Hwf Hmax. destruct (ensure_buf_wf f Hwf) as [Hs Hi].
  pose proof (len_nonneg (Assets.Data f)) as Hlen.
  assert (Hpos : forall r, Assets.position p (<[p := Assets.set_buf f (Some r)]> st)
                           = Some (r_i r)).
  { intros r. unfold Assets.position. now rewrite lookup_insert_eq. }
  assert (Hpos0 : Assets.position p st = Some (r_i (Assets.ensure_buf f))).
  { unfold Assets.position. now rewrite Hp. }
  split; [|split].
  - intros offset Hneg. eexists. unfold Assets.Seek. rewrite Hp.
    unfold Reader_Seek. simpl. destruct (Z.ltb_spec offset 0); [|lia].
    split; [reflexivity|]. now rewrite Hpos, Hpos0.
  - intros offset whence Hw. eexists. unfold Assets.Seek. rewrite Hp.
    unfold Reader_Seek, SeekStart, SeekCurrent, SeekEnd.
    destruct (Z.eqb_spec whence 0); [lia|].
    destruct (Z.eqb_spec whence 1); [lia|].
    destruct (Z.eqb_spec whence 2); [lia|].
    split; [reflexivity|]. now rewrite Hpos, Hpos0.
  - eexists. unfold Assets.Seek. rewrite Hp.
    unfold Reader_Seek, Assets.Size. simpl. rewrite Hs.
    unfold int_add. rewrite Z.add_0_r.
    rewrite wrap64_id by (unfold min_int, max_int in *; lia).
    destruct (Z.ltb_spec (len (Assets.Data f)) 0); [lia|].
    split; [reflexivity|]. now rewrite Hpos.
Qed.

Lemma Seek_refusals_and_end_witness :
  (forall offset, offset < 0 ->
     exists st1,
       Assets.Seek 1%positive offset SeekStart Assets.hi_store
       = (st1, Returns (0, Some ErrSeekNegative)) /\
       Assets.position 1%positive st1 = Assets.position 1%positive Assets.hi_store) /\
  (forall offset whence, whence < 0 \/ 2 < whence ->
     exists st1,
       Assets.Seek 1%positive offset whence Assets.hi_store
       = (st1, Returns (0, Some ErrSeekWhence)) /\
       Assets.position 1%positive st1 = Assets.position 1%positive Assets.hi_store) /\
  (exists st1,
     Assets.Seek 1%positive 0 SeekEnd Assets.hi_store
     = (st1, Returns (Assets.Size Assets.hi_file, None)) /\
     Assets.position 1%positive st1 = Some (Assets.Size Assets.hi_file)).
Proof.
  apply (Seek_refusals_and_end Assets.hi_store 1%positive Assets.hi_file);
    [reflexivity | exact I | vm_compute; discriminate].
Defined.

(** X6. One [Read] into a buffer of [n] bytes, with the reader at position
    [i]: before the end of the data it returns, without error, the next
    [min(n, len - i)] bytes of the data and advances the position by that
    number; at or beyond the end it returns no byte and [io.EOF] and the
    position stays. *)
Theorem Read_returns_next_bytes
    (st : gmap positive Assets.File) (p : positive) (f : Assets.File)
    (i : Z) (n : nat) :
  st !! p = Some f -> Assets.wf_File f ->
  len (Assets.Data f) <= max_int ->
  Assets.position p st = Some i ->
  exists st1,
    (i < len (Assets.Data f) ->
     let chunk := take n (drop (Z.to_nat i) (Assets.Data f)) in
     Assets.Read p n st = (st1, Returns (chunk, None)) /\
     len chunk = Z.min (Z.of_nat n) (len (Assets.Data f) - i) /\
     Assets.position p st1 = Some (i + len chunk)) /\
    (len (Assets.Data f) <= i ->
     Assets.Read p n st = (st1, Returns ([], Some EOF)) /\
     Assets.position p st1 = Some i).
Proof.
  intros Hp Hwf Hmax Hpos.
  destruct (ensure_buf_wf f Hwf) as [_ Hi].
  assert (Hri : r_i (Assets.ensure_buf f) = i).
  { unfold Assets.position in Hpos. rewrite Hp in Hpos. congruence. }
  pose proof (ensure_buf_eq f Hwf) as Hens. rewrite Hri in Hens, Hi.
  exists (Assets.Read p n st).1.
  rewrite (Read_at p n st f i Hp Hens Hi Hmax).
  destruct (Z.leb_spec (len (Assets.Data f)) i) as [Hend|Hmore]; simpl.
  - split; [lia|]. intros _. split; [reflexivity|].
    unfold Assets.position. now rewrite lookup_insert_eq.
  - split; [|lia]. intros _. split; [reflexivity|]. split.
    + unfold len in *. rewrite length_take, length_drop. lia.
    + unfold Assets.position. now rewrite lookup_insert_eq.
Qed.

Lemma Read_returns_next_bytes_witness :
  exists st1,
    (0 < len Assets.hi_bytes ->
     let chunk := take 1 (drop (Z.to_nat 0) Assets.hi_bytes) in
     Assets.Read 1%positive 1 Assets.hi_store = (st1, Returns (chunk, None)) /\
     len chunk = Z.min (Z.of_nat 1) (len Assets.hi_bytes - 0) /\
     Assets.position 1%positive st1 = Some (0 + len chunk)) /\
    (len Assets.hi_bytes <= 0 ->
     Assets.Read 1%positive 1 Assets.hi_store = (st1, Returns ([], Some EOF)) /\
     Assets.position 1%positive st1 = Some 0).
Proof.
  apply (Read_returns_next_bytes Assets.hi_store 1%positive Assets.hi_file 0 1);
    [reflexivity | exact I | vm_compute; discriminate | reflexivity].
Defined.

(** X7. [NewFile] allocates: the pointer it returns was not in use, the
    objects behind all other pointers are untouched, and the new handle
    has the given fields, stands at position 0 and reads the given data to
    its end; when the mode is a directory mode, its [Readdir] is the
    [readDir] of the file system it was created on, for the file's path. *)
Theorem NewFile_allocates_fresh_handle
    (fsys : Assets.FileSystem) (path : string) (filemode : Z) (mtime : Time)
    (data : list Byte.byte) (st : gmap positive Assets.File)
    (n fuel : nat) (index count : Z) :
  len data <= max_int -> (0 < n)%nat -> (length data < fuel)%nat ->
  let st1 := (Assets.NewFile fsys path filemode mtime data st).1 in
  let p := (Assets.NewFile fsys path filemode mtime data st).2 in
  st !! p = None /\
  (forall q, q <> p -> st1 !! q = st !! q) /\
  st1 !! p = Some (Assets.mkFile path filemode mtime data (Some fsys) None) /\
  Assets.position p st1 = Some 0 /\
  (exists st2, Assets.read_all fuel n p st1 [] = (st2, Some (Returns (data, None)))) /\
  (FileMode_IsDir filemode = true ->
   Assets.Readdir p index count st1 = (st1, Assets.readDir fsys path index count)).
Proof.
  intros Hmax Hn Hfuel st1 p.
  set (obj := Assets.mkFile path filemode mtime data (Some fsys) None).
  assert (Hp : st1 !! p = Some obj) by apply lookup_insert_eq.
  split; [apply not_elem_of_dom, is_fresh|].
  split; [intros q Hq; unfold st1; simpl; now rewrite lookup_insert_ne|].
  split; [exact Hp|].
  split; [unfold Assets.position; now rewrite Hp|].
  split.
  - destruct (read_all_from p n Hn fuel st1 obj [] 0 Hp eq_refl) as [st2 Hst2];
      try (simpl; unfold len in *; lia).
    now exists st2.
  - intros Hdir. unfold Assets.Readdir. rewrite Hp.
    unfold Assets.IsDir. simpl. now rewrite Hdir.
Qed.

Lemma NewFile_allocates_fresh_handle_witness :
  let st1 := (Assets.NewFile Assets.dir_fs "/" (ModeDir + 493) (mkTime 0 0) []
                             Assets.dir_store).1 in
  let p := (Assets.NewFile Assets.dir_fs "/" (ModeDir + 493) (mkTime 0 0) []
                           Assets.dir_store).2 in
  Assets.dir_store !! p = None /\
  (forall q, q <> p -> st1 !! q = Assets.dir_store !! q) /\
  st1 !! p = Some (Assets.mkFile "/" (ModeDir + 493) (mkTime 0 0) []
                                 (Some Assets.dir_fs) None) /\
  Assets.position p st1 = Some 0 /\
  (exists st2, Assets.read_all 1 1 p st1 [] = (st2, Some (Returns ([], None)))) /\
  (FileMode_IsDir (ModeDir + 493) = true ->
   Assets.Readdir p 0 1 st1 = (st1, Assets.readDir Assets.dir_fs "/" 0 1)).
Proof.
  apply (NewFile_allocates_fresh_handle Assets.dir_fs "/" (ModeDir + 493)
           (mkTime 0 0) [] Assets.dir_store 1 1 0 1);
    [vm_compute; discriminate | lia | simpl; lia].
Defined.

(** X8. A directory entry as the emitted initialization builds it (the
    literal sets [Path], [FileMode] and [MTime] only) is a directory
    without data and without back reference: [Readdir] on it dereferences
    the nil [fs] and panics, whatever the arguments. *)
Theorem emitted_directory_Readdir_panics
    (blobs : gmap string (list Byte.byte)) (prefix : string)
    (vnames : gmap string string) (k : string) (v : Gen.FileInfo)
    (st : gmap positive Assets.File) (p : positive) (index count : Z) :
  Gen.fi_IsDir v = true ->
  st !! p = Some (Gen.init_File blobs (Gen.entry_lit prefix vnames k v)) ->
  Assets.IsDir (Gen.init_File blobs (Gen.entry_lit prefix vnames k v)) = true /\
  Assets.Size (Gen.init_File blobs (Gen.entry_lit prefix vnames k v)) = 0 /\
  Assets.Readdir p index count st = (st, Panics "nil pointer dereference").
Proof.
  intros Hdir Hp.
  assert (Hd : Assets.IsDir (Gen.init_File blobs (Gen.entry_lit prefix vnames k v)) = true)
    by exact Hdir.
  split; [exact Hd|]. split.
  - unfold Assets.Size, Gen.init_File, Gen.entry_lit. simpl. now rewrite Hdir.
  - unfold Assets.Readdir. rewrite Hp, Hd. reflexivity.
Qed.

Lemma emitted_directory_Readdir_panics_witness :
  let obj := Gen.init_File ∅ (Gen.entry_lit "a" ∅ "a/c" (Gen.node_info Gen.scenario_c)) in
  Assets.IsDir obj = true /\
  Assets.Size obj = 0 /\
  Assets.Readdir 1%positive 0 1 {[ 1%positive := obj ]}
  = ({[ 1%positive := obj ]}, Panics "nil pointer dereference").
Proof.
  apply (emitted_directory_Readdir_panics ∅ "a" ∅ "a/c"
           (Gen.node_info Gen.scenario_c)
           {[ 1%positive :=
                Gen.init_File ∅ (Gen.entry_lit "a" ∅ "a/c" (Gen.node_info Gen.scenario_c)) ]}
           1%positive 0 1);
    [reflexivity | reflexivity].
Defined.

(* ===================================================================== *)
(** * More on the walk                                                    *)
(* ===================================================================== *)

Section WalkMore.
Import Gen.

Lemma same_options_refl (x : Generator) : same_options x x.
Proof. repeat split. Qed.

Lemma same_options_trans (x y z : Generator) :
  same_options x y -> same_options y z -> same_options x z.
Proof.
  unfold same_options. intros (?&?&?&?) (?&?&?&?). repeat split; congruence.
Qed.


Lemma keeps_refl (x : Generator) : keeps x x.
Proof. split; [apply same_options_refl|auto]. Qed.

Lemma keeps_trans (x y z : Generator) : keeps x y -> keeps y z -> keeps x z.
Proof.
  intros (Ho1 & Hf1 & Hd1 & Ha1) (Ho2 & Hf2 & Hd2 & Ha2).
  split; [exact (same_options_trans x y z Ho1 Ho2)|].
  split; [auto|]. split; [auto|]. intros Ha. apply Ha2, Ha1, Ha.
Qed.

Lemma keeps_registered (x : Generator) (p : string) (info : FileInfo) :
  keeps x (registered x p info) /\ allocated (registered x p info) /\
  p ∈ dom (files_of (registered x p info)).
Proof.
  assert (Ha : allocated (registered x p info)) by (split; eexists; reflexivity).
  split; [|split; [exact Ha|]].
  - split; [repeat split|]. split; [|split; [auto|auto]].
    intros q Hq. rewrite files_of_registered, dom_insert_L. set_solver.
  - rewrite files_of_registered, dom_insert_L. set_solver.
Qed.

Lemma keeps_set_dirs_insert (x : Generator) (k : string) (l : list string) :
  keeps x (set_dirs x (<[k := l]> (dirs_of x))).
Proof.
  split; [repeat split|]. split; [auto|]. split.
  - intros q Hq. rewrite dirs_of_set_dirs, dom_insert_L. set_solver.
  - intros [_ Hf]. split; [eexists; reflexivity|exact Hf].
Qed.

Lemma addPath_range_keeps (p : string) (entries : list node) :
  Forall (fun c => forall x parent, keeps x (addPath x parent c).1) entries ->
  forall x, keeps x (addPath_range x p entries).1.
Proof.
  induction 1 as [|c cs Hc _ IH]; intros x; simpl; [apply keeps_refl|].
  specialize (Hc x p). destruct (addPath x p c) as [x1 [err|]]; [exact Hc|].
  eapply keeps_trans; [exact Hc|apply IH].
Qed.

(** [addPath] registers the path it is called for and keeps everything
    else, error or not. *)
Lemma addPath_keeps (n : node) :
  forall x parent,
    keeps x (addPath x parent n).1 /\
    allocated (addPath x parent n).1 /\
    Join parent (node_name n) ∈ dom (files_of (addPath x parent n).1).
Proof.
  induction n as [info oe entries re IH] using node_induction.
  intros x parent. rewrite addPath_eq. unfold node_name. simpl node_info.
  set (p := Join parent (fi_Name info)).
  destruct (keeps_registered x p info) as (Hk & Ha & Hp). simpl.
  destruct (fi_IsDir info).
  - destruct (readdir_error oe re); [now split|].
    set (x2 := set_dirs (registered x p info) (<[p:=[]]> (dirs_of (registered x p info)))).
    assert (Hk2 : keeps (registered x p info) x2) by apply keeps_set_dirs_insert.
    assert (Hr : keeps x2 (addPath_range x2 p entries).1).
    { apply addPath_range_keeps.
      eapply Forall_impl; [exact IH|]. intros c Hc y q. apply Hc. }
    destruct Hk2 as (Ho2 & Hf2 & Hd2 & Ha2), Hr as (Ho3 & Hf3 & Hd3 & Ha3).
    split; [|split; [auto|auto]].
    eapply keeps_trans; [exact Hk|].
    eapply keeps_trans; [split; [exact Ho2|auto]|split; [exact Ho3|auto]].
  - simpl. pose proof (keeps_set_dirs_insert (registered x p info) parent
                         (listing (registered x p info) parent ++ [fi_Name info]))
      as Hk2.
    split; [eapply keeps_trans; eauto|].
    destruct Hk2 as (_ & Hf2 & _ & Ha2). split; auto.
Qed.

Lemma addPath_range_error_of_tree (entries : list node) :
  Forall (fun c => forall x y parent parent',
              (addPath x parent c).2 = (addPath y parent' c).2) entries ->
  forall x y p p', (addPath_range x p entries).2 = (addPath_range y p' entries).2.
Proof.
  induction 1 as [|c cs Hc _ IH]; intros x y p p'; simpl; [reflexivity|].
  specialize (Hc x y p p').
  destruct (addPath x p c) as [x1 [e1|]], (addPath y p' c) as [y1 [e2|]];
    simpl in Hc; try discriminate; [exact Hc|apply IH].
Qed.

(** Whether a walk fails, and with which error, depends on the tree alone:
    not on what the generator holds, not on the path it is walked under. *)
Lemma addPath_error_of_tree (n : node) :
  forall x y parent parent', (addPath x parent n).2 = (addPath y parent' n).2.
Proof.
  induction n as [info oe entries re IH] using node_induction.
  intros x y parent parent'. rewrite !addPath_eq. simpl.
  destruct (fi_IsDir info); [|reflexivity].
  destruct (readdir_error oe re); [reflexivity|].
  now apply addPath_range_error_of_tree.
Qed.

Lemma files_effect_range (p : string) (entries : list node) :
  Forall files_effect entries ->
  forall x x',
    addPath_range x p entries = (x', None) ->
    (forall q, q ∉ (flat_map (walked_entries p) entries).*1 ->
               files_of x' !! q = files_of x !! q) /\
    (NoDup (flat_map (walked_entries p) entries).*1 ->
     forall q info, (q, info) ∈ flat_map (walked_entries p) entries ->
                    files_of x' !! q = Some info).
Proof.
  induction 1 as [|c cs Hc _ IH]; intros x x' Hrange; simpl in Hrange.
  - injection Hrange as <-. split; [reflexivity|].
    intros _ q info Hq. now apply elem_of_nil in Hq.
  - destruct (addPath x p c) as [x1 [err|]] eqn:Hadd; [discriminate|].
    destruct (Hc x p x1 Hadd) as [Hframe1 Hin1].
    destruct (IH x1 x' Hrange) as [Hframe2 Hin2].
    simpl. rewrite fmap_app. split.
    + intros q Hq. apply not_elem_of_app in Hq as [Hq1 Hq2].
      now rewrite Hframe2, Hframe1.
    + intros Hnd q info Hq. apply NoDup_app in Hnd as (Hnd1 & Hdisj & Hnd2).
      apply elem_of_app in Hq as [Hq|Hq].
      * rewrite Hframe2; [now apply Hin1|].
        apply Hdisj. apply list_elem_of_fmap. now exists (q, info).
      * now apply Hin2.
Qed.

Lemma files_effect_all (n : node) : files_effect n.
Proof.
  induction n as [info oe entries re IH] using node_induction.
  intros x parent x' Hadd. rewrite addPath_eq in Hadd. simpl in Hadd.
  simpl walked_entries. set (p := Join parent (fi_Name info)) in *.
  destruct (fi_IsDir info).
  - destruct (readdir_error oe re); [discriminate|].
    destruct (files_effect_range p entries IH _ _ Hadd) as [Hframe Hin].
    rewrite files_of_set_dirs, files_of_registered in Hframe.
    simpl. split.
    + intros q Hq. apply not_elem_of_cons in Hq as [Hne Hq].
      rewrite Hframe by exact Hq. now rewrite lookup_insert_ne.
    + intros Hnd q i Hq. apply NoDup_cons in Hnd as [Hp Hnd].
      apply elem_of_cons in Hq as [[= -> ->]|Hq]; [|now apply Hin].
      rewrite Hframe by exact Hp. apply lookup_insert_eq.
  - injection Hadd as <-. rewrite files_of_set_dirs, files_of_registered.
    simpl. split.
    + intros q Hq. apply not_elem_of_cons in Hq as [Hne _].
      now rewrite lookup_insert_ne.
    + intros _ q i Hq. apply list_elem_of_singleton in Hq as [= -> ->].
      apply lookup_insert_eq.
Qed.

(** The directories of a walk are among its entries. *)
Lemma walked_dirs_sublist (n : node) :
  forall parent,
    (walked_dirs parent n).*1 `sublist_of` (walked_entries parent n).*1.
Proof.
  induction n as [info oe entries re IH] using node_induction.
  intros parent. simpl. set (p := Join parent (fi_Name info)).
  destruct (fi_IsDir info); simpl; [|apply sublist_nil_l].
  apply sublist_skip.
  induction IH as [|c cs Hc _ IHcs]; simpl; [constructor|].
  rewrite !fmap_app. now apply sublist_app.
Qed.

Lemma allocated_maps (x : Generator) :
  allocated x ->
  x = mkGenerator (PackageName x) (VariableName x) (Compressed x) (StripPrefix x)
                  (Some (dirs_of x)) (Some (files_of x)).
Proof.
  destruct x as [a b c d dm fm]. intros [[m1 H1] [m2 H2]]. simpl in *.
  subst. reflexivity.
Qed.

End WalkMore.

(** X9. Whatever [Add] returns, error or not, it never writes the options
    of the generator and never removes a registered path or a listing: what
    was collected before stays (a failed call is not rolled back, nor does
    it damage earlier roots). When [os.Stat] fails nothing at all changes
    and its error is returned; when it succeeds the root path is
    registered and both maps are allocated, even if the walk then fails. *)
Theorem Add_keeps_what_is_registered
    (os_Stat : string -> error + Gen.node) (x : Gen.Generator) (p : string) :
  let x' := (Gen.Add os_Stat x p).1 in
  Gen.same_options x x' /\
  (forall q, q ∈ dom (Gen.files_of x) -> q ∈ dom (Gen.files_of x')) /\
  (forall q, q ∈ dom (Gen.dirs_of x) -> q ∈ dom (Gen.dirs_of x')) /\
  (forall e, os_Stat (Clean p) = inl e -> Gen.Add os_Stat x p = (x, Some e)) /\
  (forall n, os_Stat (Clean p) = inr n ->
             Join (Dir (Clean p)) (Gen.node_name n) ∈ dom (Gen.files_of x') /\
             Gen.allocated x').
Proof.
  unfold Gen.Add. destruct (os_Stat (Clean p)) as [e|n] eqn:Hstat; simpl.
  - split; [apply same_options_refl|]. split; [auto|]. split; [auto|].
    split; [now intros e' [= <-]|discriminate].
  - destruct (addPath_keeps n x (Dir (Clean p))) as ((Ho & Hf & Hd & _) & Ha & Hp).
    split; [exact Ho|]. split; [exact Hf|]. split; [exact Hd|].
    split; [discriminate|]. intros n' [= <-]. now split.
Qed.

(** X10. After a successful [Add] of a tree whose nodes get pairwise
    distinct paths, the entries map holds, under the path of every node of
    the tree, the [os.FileInfo] of that node, and every other key of the
    map is as it was before the call. *)
Theorem Add_stores_FileInfo
    (os_Stat : string -> error + Gen.node) (x0 x : Gen.Generator)
    (p0 : string) (n : Gen.node) :
  os_Stat (Clean p0) = inr n ->
  Gen.Add os_Stat x0 p0 = (x, None) ->
  NoDup (Gen.walked_entries (Dir (Clean p0)) n).*1 ->
  (forall q info, (q, info) ∈ Gen.walked_entries (Dir (Clean p0)) n ->
                  Gen.files_of x !! q = Some info) /\
  (forall q, q ∉ (Gen.walked_entries (Dir (Clean p0)) n).*1 ->
             Gen.files_of x !! q = Gen.files_of x0 !! q).
Proof.
  intros Hstat Hadd Hnd. unfold Gen.Add in Hadd. rewrite Hstat in Hadd.
  destruct (files_effect_all n x0 (Dir (Clean p0)) x Hadd) as [Hframe Hin].
  split; [now apply Hin|exact Hframe].
Qed.

Lemma Add_stores_FileInfo_witness :
  (forall q info, (q, info) ∈ Gen.walked_entries (Dir (Clean "a")) Gen.scenario_a ->
                  Gen.files_of Gen.scenario_collected !! q = Some info) /\
  (forall q, q ∉ (Gen.walked_entries (Dir (Clean "a")) Gen.scenario_a).*1 ->
             Gen.files_of Gen.scenario_collected !! q
             = Gen.files_of Gen.scenario_gen !! q).
Proof.
  apply (Add_stores_FileInfo Gen.scenario_Stat Gen.scenario_gen
           Gen.scenario_collected "a" Gen.scenario_a);
    [reflexivity | vm_compute; reflexivity
    | apply (bool_decide_unpack _); vm_compute; reflexivity].
Defined.

(** X11. [Add] of a path that is not a directory registers the path and
    appends its name to the listing of its parent directory, without
    registering the parent: a second [Add] of the same path appends the
    name a second time (the calls are not idempotent), and a parent that
    was not an entries key before is none after. *)
Theorem Add_file_twice_lists_twice
    (os_Stat : string -> error + Gen.node) (x : Gen.Generator)
    (p : string) (n : Gen.node) :
  os_Stat (Clean p) = inr n ->
  Gen.is_file n = true ->
  let parent := Dir (Clean p) in
  let key := Join parent (Gen.node_name n) in
  exists x1 x2,
    Gen.Add os_Stat x p = (x1, None) /\
    Gen.Add os_Stat x1 p = (x2, None) /\
    Gen.files_of x1 = <[key := Gen.node_info n]> (Gen.files_of x) /\
    Gen.files_of x2 = Gen.files_of x1 /\
    Gen.listing x1 parent = Gen.listing x parent ++ [Gen.node_name n] /\
    Gen.listing x2 parent
    = Gen.listing x parent ++ [Gen.node_name n; Gen.node_name n] /\
    (forall q, q <> parent -> Gen.dirs_of x2 !! q = Gen.dirs_of x !! q) /\
    (parent <> key -> parent ∉ dom (Gen.files_of x) ->
     parent ∉ dom (Gen.files_of x2)).
Proof.
  intros Hstat Hfile parent key.
  destruct n as [info oe entries re]. unfold Gen.is_file in Hfile.
  unfold Gen.node_name in *. simpl Gen.node_info in *.
  apply negb_true_iff in Hfile.
  assert (Hadd : forall y, Gen.Add os_Stat y p
                 = (Gen.set_dirs (Gen.registered y key info)
                      (<[parent := Gen.listing y parent ++ [Gen.fi_Name info]]>
                         (Gen.dirs_of y)), None)).
  { intros y. unfold Gen.Add. rewrite Hstat, addPath_eq. simpl.
    now rewrite Hfile. }
  eexists _, _. split; [apply Hadd|]. split; [apply Hadd|].
  repeat (rewrite files_of_set_dirs || rewrite files_of_registered).
  split; [reflexivity|]. split; [now rewrite insert_insert_eq|].
  unfold Gen.listing.
  repeat (rewrite dirs_of_set_dirs || rewrite lookup_insert_eq). simpl.
  split; [reflexivity|]. split; [now rewrite <- app_assoc|].
  split.
  - intros q Hq. now rewrite !lookup_insert_ne by congruence.
  - intros Hne Hnot. rewrite !dom_insert_L. set_solver.
Qed.

Lemma Add_file_twice_lists_twice_witness :
  let os_Stat := fun q : string =>
    if String.eqb q "a/b.txt" then inr Gen.scenario_b else inl ErrNotExist in
  exists x1 x2,
    Gen.Add os_Stat Gen.scenario_gen "a/b.txt" = (x1, None) /\
    Gen.Add os_Stat x1 "a/b.txt" = (x2, None) /\
    Gen.files_of x1
    = <[Join (Dir (Clean "a/b.txt")) (Gen.node_name Gen.scenario_b)
        := Gen.node_info Gen.scenario_b]> (Gen.files_of Gen.scenario_gen) /\
    Gen.files_of x2 = Gen.files_of x1 /\
    Gen.listing x1 (Dir (Clean "a/b.txt"))
    = Gen.listing Gen.scenario_gen (Dir (Clean "a/b.txt"))
      ++ [Gen.node_name Gen.scenario_b] /\
    Gen.listing x2 (Dir (Clean "a/b.txt"))
    = Gen.listing Gen.scenario_gen (Dir (Clean "a/b.txt"))
      ++ [Gen.node_name Gen.scenario_b; Gen.node_name Gen.scenario_b] /\
    (forall q, q <> Dir (Clean "a/b.txt") ->
               Gen.dirs_of x2 !! q = Gen.dirs_of Gen.scenario_gen !! q) /\
    (Dir (Clean "a/b.txt")
     <> Join (Dir (Clean "a/b.txt")) (Gen.node_name Gen.scenario_b) ->
     Dir (Clean "a/b.txt") ∉ dom (Gen.files_of Gen.scenario_gen) ->
     Dir (Clean "a/b.txt") ∉ dom (Gen.files_of x2)).
Proof.
  apply (Add_file_twice_lists_twice
           (fun q : string =>
              if String.eqb q "a/b.txt" then inr Gen.scenario_b else inl ErrNotExist)
           Gen.scenario_gen "a/b.txt" Gen.scenario_b);
    [reflexivity | reflexivity].
Defined.

(** X12. [Add] of a directory is idempotent: when a tree whose nodes get
    pairwise distinct paths has been added successfully, adding it again
    succeeds and leaves the generator exactly as it is (every listing of
    the tree is rebuilt to the same names, every entry is stored again
    with the same [os.FileInfo]). *)
Theorem Add_directory_again_changes_nothing
    (os_Stat : string -> error + Gen.node) (x0 x1 : Gen.Generator)
    (p0 : string) (n : Gen.node) :
  os_Stat (Clean p0) = inr n ->
  Gen.is_file n = false ->
  NoDup (Gen.walked_entries (Dir (Clean p0)) n).*1 ->
  Gen.Add os_Stat x0 p0 = (x1, None) ->
  Gen.Add os_Stat x1 p0 = (x1, None).
Proof.
  intros Hstat Hdir Hnd Hadd1. unfold Gen.Add in *. rewrite Hstat in *.
  set (parent := Dir (Clean p0)) in *.
  destruct (Gen.addPath x1 parent n) as [x2 e2] eqn:Hadd2.
  assert (He : e2 = None).
  { pose proof (addPath_error_of_tree n x1 x0 parent parent) as H.
    now rewrite Hadd2, Hadd1 in H. }
  subst e2. f_equal.
  assert (Hndd : NoDup (Gen.walked_dirs parent n).*1)
    by (eapply sublist_NoDup; [exact Hnd|apply walked_dirs_sublist]).
  destruct (walk_effect_all n x0 parent x1 Hadd1) as (_ & _ & Hd1).
  destruct (walk_effect_all n x1 parent x2 Hadd2) as (_ & _ & Hd2).
  destruct (Hd1 Hdir) as [_ Hlist1]. destruct (Hd2 Hdir) as [Hframe2 Hlist2].
  destruct (files_effect_all n x0 parent x1 Hadd1) as [_ Hin1].
  destruct (files_effect_all n x1 parent x2 Hadd2) as [Hfframe2 Hin2].
  assert (Hdirs : Gen.dirs_of x2 = Gen.dirs_of x1).
  { apply map_eq. intros q.
    destruct (decide (q ∈ (Gen.walked_dirs parent n).*1)) as [Hq|Hq].
    - apply list_elem_of_fmap in Hq as [[q' es] [-> Hq]]. simpl.
      now rewrite (Hlist2 Hndd q' es Hq), (Hlist1 Hndd q' es Hq).
    - now apply Hframe2. }
  assert (Hfiles : Gen.files_of x2 = Gen.files_of x1).
  { apply map_eq. intros q.
    destruct (decide (q ∈ (Gen.walked_entries parent n).*1)) as [Hq|Hq].
    - apply list_elem_of_fmap in Hq as [[q' info] [-> Hq]]. simpl.
      now rewrite (Hin2 Hnd q' info Hq), (Hin1 Hnd q' info Hq).
    - now apply Hfframe2. }
  pose proof (addPath_keeps n x0 parent) as (_ & Ha1 & _).
  pose proof (addPath_keeps n x1 parent) as ((Ho2 & _) & Ha2 & _).
  rewrite Hadd1 in Ha1. rewrite Hadd2 in Ha2, Ho2. simpl in *.
  rewrite (allocated_maps x2 Ha2), (allocated_maps x1 Ha1), Hdirs, Hfiles.
  destruct Ho2 as (-> & -> & -> & ->). reflexivity.
Qed.

Lemma Add_directory_again_changes_nothing_witness :
  Gen.Add Gen.scenario_Stat Gen.scenario_collected "a"
  = (Gen.scenario_collected, None).
Proof.
  apply (Add_directory_again_changes_nothing Gen.scenario_Stat Gen.scenario_gen
           Gen.scenario_collected "a" Gen.scenario_a);
    [reflexivity | reflexivity
    | apply (bool_decide_unpack _); vm_compute; reflexivity
    | vm_compute; reflexivity].
Defined.

(** X13. An error of [Readdir] is returned as it is and stops the walk
    where it occurs: when the entries of a directory are files followed by
    a subdirectory that opens but cannot be enumerated, [addPath] returns
    the error of that [Readdir], and what it returns (generator and error)
    does not depend on the entries enumerated after the subdirectory: they
    are never visited. *)
Theorem Readdir_error_stops_the_walk
    (x : Gen.Generator) (parent : string) (info cinfo : Gen.FileInfo)
    (pre post centries : list Gen.node) (e : error) :
  Gen.fi_IsDir info = true ->
  Gen.fi_IsDir cinfo = true ->
  Forall (fun c => Gen.is_file c = true) pre ->
  let failing := Gen.Node cinfo None centries (Some e) in
  (Gen.addPath x parent (Gen.Node info None (pre ++ failing :: post) None)).2
  = Some e /\
  Gen.addPath x parent (Gen.Node info None (pre ++ failing :: post) None)
  = Gen.addPath x parent (Gen.Node info None (pre ++ [failing]) None).
Proof.
  intros Hd Hcd Hpre failing.
  assert (Hstop : forall post',
    exists x2, Gen.addPath x parent (Gen.Node info None (pre ++ failing :: post') None)
               = (x2, Some e) /\
               forall post'', Gen.addPath x parent
                                (Gen.Node info None (pre ++ failing :: post'') None)
                              = (x2, Some e)).
  { intros post'. 
    assert (Hall : forall post'', exists x1 x2,
      Gen.addPath x parent (Gen.Node info None (pre ++ failing :: post'') None)
      = (x2, Some e) /\
      Gen.addPath_range
        (Gen.set_dirs (Gen.registered x (Join parent (Gen.fi_Name info)) info)
           (<[Join parent (Gen.fi_Name info) := []]>
              (Gen.dirs_of (Gen.registered x (Join parent (Gen.fi_Name info)) info))))
        (Join parent (Gen.fi_Name info)) pre = (x1, None) /\
      Gen.addPath x1 (Join parent (Gen.fi_Name info)) failing = (x2, Some e)).
    { intros post''. rewrite addPath_eq. simpl. rewrite Hd. simpl.
      match goal with |- context [Gen.addPath_range ?x0 ?q (pre ++ _)] =>
        pose proof (addPath_range_files_ok q pre Hpre x0) as Hok;
        destruct (Gen.addPath_range x0 q pre) as [x1 o] eqn:Hrange
      end.
      simpl in Hok. subst o.
      pose proof (addPath_Readdir_error x1 (Join parent (Gen.fi_Name info))
                    cinfo e centries Hcd) as Hfail.
      fold failing in Hfail.
      destruct (Gen.addPath x1 (Join parent (Gen.fi_Name info)) failing)
        as [x2 o] eqn:Hc. simpl in Hfail. subst o.
      exists x1, x2. split; [|now split].
      exact (addPath_range_stops _ _ pre post'' failing x1 x2 e Hrange Hc). }
    destruct (Hall post') as (x1 & x2 & H1 & Hr & Hc).
    exists x2. split; [exact H1|]. intros post''.
    destruct (Hall post'') as (x1' & x2' & H1' & Hr' & Hc').
    rewrite Hr in Hr'. injection Hr' as <-. rewrite Hc in Hc'.
    injection Hc' as <-. exact H1'. }
  destruct (Hstop post) as (x2 & H1 & Hany).
  split; [now rewrite H1|]. now rewrite H1, (Hany []).
Qed.

Lemma Readdir_error_stops_the_walk_witness :
  let failing := Gen.Node (Gen.node_info Gen.scenario_c) None [] (Some ErrPermission) in
  (Gen.addPath Gen.scenario_gen "." 
     (Gen.Node (Gen.node_info Gen.scenario_a) None
               ([Gen.scenario_b] ++ failing :: [Gen.scenario_b]) None)).2
  = Some ErrPermission /\
  Gen.addPath Gen.scenario_gen "."
    (Gen.Node (Gen.node_info Gen.scenario_a) None
              ([Gen.scenario_b] ++ failing :: [Gen.scenario_b]) None)
  = Gen.addPath Gen.scenario_gen "."
      (Gen.Node (Gen.node_info Gen.scenario_a) None ([Gen.scenario_b] ++ [failing]) None).
Proof.
  apply (Readdir_error_stops_the_walk Gen.scenario_gen "."
           (Gen.node_info Gen.scenario_a) (Gen.node_info Gen.scenario_c)
           [Gen.scenario_b] [Gen.scenario_b] [] ErrPermission);
    [reflexivity | reflexivity | repeat constructor].
Defined.

(* ===================================================================== *)
(** * More on the serializer                                              *)
(* ===================================================================== *)

Section WriteMore.
Import Gen.

Variable E : Env.

(** An error of the loop over the blobs is the read error of a regular
    file the loop met. *)
Lemma write_blobs_inl (compressed : bool) (variableName : string)
    (kvs : list (string * FileInfo)) :
  forall (vnames : gmap string string) (w : string) (e : error),
    write_blobs E compressed variableName kvs vnames w = inl e ->
    exists k v, (k, v) ∈ kvs /\ fi_IsDir v = false /\ read_file E k = inl e.
Proof.
  induction kvs as [|[k v] kvs IH]; intros vnames w e He; [discriminate|].
  simpl in He. destruct (fi_IsDir v) eqn:Hd.
  - destruct (IH _ _ _ He) as (k' & v' & Hin & Hr). exists k', v'.
    split; [now right|exact Hr].
  - destruct (read_file E k) as [e'|content] eqn:Hread.
    + injection He as <-. exists k, v. split; [left|now split].
    + destruct (IH _ _ _ He) as (k' & v' & Hin & Hr). exists k', v'.
      split; [now right|exact Hr].
Qed.

Lemma range_entry {V} (m : gmap string V) (kvs : list (string * V))
    (k : string) (v : V) :
  kvs ≡ₚ map_to_list m -> ((k, v) ∈ kvs <-> m !! k = Some v).
Proof. intros Hp. rewrite Hp. apply elem_of_map_to_list. Qed.

Lemma blob_vnames_lookup (variableName : string) (m : gmap string FileInfo)
    (k : string) (v : FileInfo) :
  m !! k = Some v ->
  blob_vnames E variableName m !! k
  = if fi_IsDir v then None else Some (blob_name E variableName k).
Proof.
  intros Hk. unfold blob_vnames. rewrite map_lookup_imap, Hk. reflexivity.
Qed.

(** Distinct paths with distinct blob names declare distinct variables. *)
Lemma blob_values_NoDup (compressed : bool) (variableName : string)
    (kvs : list (string * FileInfo)) :
  NoDup kvs.*1 ->
  (forall k1 k2, k1 ∈ kvs.*1 -> k2 ∈ kvs.*1 ->
                 blob_name E variableName k1 = blob_name E variableName k2 ->
                 k1 = k2) ->
  NoDup (omap (blob_value E compressed variableName) kvs).*1.
Proof.
  induction kvs as [|[k v] kvs IH]; intros Hnd Hinj; [constructor|].
  simpl in Hnd. apply NoDup_cons in Hnd as [Hk Hnd].
  assert (Hrest : NoDup (omap (blob_value E compressed variableName) kvs).*1).
  { apply IH; [exact Hnd|]. intros k1 k2 H1 H2. apply Hinj; now right. }
  simpl. destruct (blob_value E compressed variableName (k, v)) as [[nm d]|] eqn:Hv;
    [|exact Hrest].
  simpl. apply NoDup_cons. split; [|exact Hrest].
  intros Hin. apply list_elem_of_fmap in Hin as [[nm' d'] [Heq Hin]].
  simpl in Heq. subst nm'.
  apply list_elem_of_omap in Hin as [[k' v'] [Hin' Hv']].
  unfold blob_value in Hv, Hv'. simpl in *.
  remember (blob_name E variableName k) as bk eqn:Hbk.
  remember (blob_name E variableName k') as bk' eqn:Hbk'.
  destruct (fi_IsDir v); [discriminate|]. destruct (fi_IsDir v'); [discriminate|].
  destruct (read_file E k); [discriminate|].
  destruct (read_file E k'); [discriminate|].
  assert (Hname : bk' = bk) by congruence.
  assert (k' = k).
  { apply Hinj; [right|left|now rewrite <- Hbk, <- Hbk'].
    apply list_elem_of_fmap. now exists (k', v'). }
  subst k'. apply Hk. apply list_elem_of_fmap. now exists (k, v').
Qed.

End WriteMore.

(** X14. [Write] fails before formatting exactly when a registered
    regular file cannot be read: for every order of enumeration it builds
    its text if and only if every registered path that is not a directory
    can be read (directories are never opened), and when it fails the
    error it returns is the read error of some registered regular file,
    nothing is written and the generator is left as it was. *)
Theorem Write_succeeds_iff_files_readable
    (E : Gen.Env) (x : Gen.Generator) (s : Gen.Schedule) :
  Gen.valid_schedule x s ->
  ((exists w, Gen.Write_buffer E x s = inr w) <->
   (forall k v, Gen.files_of x !! k = Some v -> Gen.fi_IsDir v = false ->
                exists content, Gen.read_file E k = inr content)) /\
  (forall e, Gen.Write_buffer E x s = inl e ->
     Gen.Write E x s = (x, inl e) /\
     exists k v, Gen.files_of x !! k = Some v /\ Gen.fi_IsDir v = false /\
                 Gen.read_file E k = inl e).
Proof.
  intros Hv. pose proof Hv as (Hblobs & _ & _ & _). split; [split|].
  - intros [w Hw] k v Hk Hfile.
    pose proof (Write_buffer_inr_readable E x s w Hv Hw) as Hread.
    rewrite Forall_forall in Hread.
    destruct (Hread (k, v)) as [Hd|Hc];
      [now apply (range_entry _ _ _ _ Hblobs)|simpl in Hd; congruence|exact Hc].
  - intros Hall. eexists. apply Write_buffer_serialized; [exact Hv|].
    apply Forall_forall. intros [k v] Hin.
    apply (range_entry _ _ _ _ Hblobs) in Hin. unfold Gen.readable. simpl.
    destruct (Gen.fi_IsDir v) eqn:Hd; [now left|right; eauto].
  - intros e He. split; [unfold Gen.Write; now rewrite He|].
    unfold Gen.Write_buffer in He.
    destruct (Gen.fsFilesMap x) as [m|]; [|discriminate].
    destruct (Gen.write_blobs E (Gen.Compressed x) _ (Gen.range_blobs s) ∅ _)
      as [e'|[vn w]] eqn:Hb; [|discriminate].
    injection He as <-.
    destruct (write_blobs_inl E _ _ _ _ _ _ Hb) as (k & v & Hin & Hd & Hr).
    exists k, v. split; [now apply (range_entry _ _ _ _ Hblobs)|now split].
Qed.

Lemma Write_succeeds_iff_files_readable_witness :
  let x := Gen.scenario_collected in
  let s := Gen.default_schedule x in
  ((exists w, Gen.Write_buffer Gen.hi_env x s = inr w) <->
   (forall k v, Gen.files_of x !! k = Some v -> Gen.fi_IsDir v = false ->
                exists content, Gen.read_file Gen.hi_env k = inr content)) /\
  (forall e, Gen.Write_buffer Gen.hi_env x s = inl e ->
     Gen.Write Gen.hi_env x s = (x, inl e) /\
     exists k v, Gen.files_of x !! k = Some v /\ Gen.fi_IsDir v = false /\
                 Gen.read_file Gen.hi_env k = inl e).
Proof.
  apply (Write_succeeds_iff_files_readable Gen.hi_env Gen.scenario_collected
           (Gen.default_schedule Gen.scenario_collected)).
  repeat split; reflexivity.
Defined.

(** X15. The emitted text is closed: when [Write] builds its text, that
    text holds a literal for every registered path; the literal of a
    directory has no [Data] field, and the [Data] field of the literal of
    a regular file names the variable [__<VariableName><sha1 of the
    path>], which the text declares, initialized with the content read
    from that path (gzip-encoded when [Compressed] is set). The name
    depends on the path and the variable name only. *)
Theorem emitted_Data_names_declared_blob
    (E : Gen.Env) (x : Gen.Generator) (s : Gen.Schedule) (w : string)
    (k : string) (v : Gen.FileInfo) :
  Gen.valid_schedule x s ->
  Gen.Write_buffer E x s = inr w ->
  Gen.files_of x !! k = Some v ->
  let variableName := Gen.or_default (Gen.VariableName x) "Assets" in
  let vnames := Gen.blob_vnames E variableName (Gen.files_of x) in
  let lit := Gen.entry_lit (Gen.StripPrefix x) vnames k v in
  w = Gen.serialized E x s /\
  lit ∈ Gen.entry_lits (Gen.StripPrefix x) vnames (Gen.range_files s) /\
  (Gen.fi_IsDir v = true -> Gen.lit_Data lit = None) /\
  (Gen.fi_IsDir v = false ->
   exists content,
     Gen.read_file E k = inr content /\
     Gen.lit_Data lit = Some (Gen.blob_name E variableName k) /\
     Gen.blob_decl E (Gen.blob_name E variableName k)
                   (if Gen.Compressed x then Gen.gzip_bytes E content else content)
     ∈ Gen.blob_decls E (Gen.Compressed x) variableName (Gen.range_blobs s)).
Proof.
  intros Hv Hw Hk variableName vnames lit.
  pose proof Hv as (Hblobs & _ & _ & Hfiles).
  pose proof (Write_buffer_inr_readable E x s w Hv Hw) as Hread.
  pose proof (Write_buffer_serialized E x s Hv Hread) as Hs.
  split; [congruence|]. split.
  { unfold Gen.entry_lits. apply list_elem_of_fmap. exists (k, v).
    split; [reflexivity|now apply (range_entry _ _ _ _ Hfiles)]. }
  assert (Hdata : Gen.lit_Data lit
                  = if Gen.fi_IsDir v then None
                    else Some (Gen.blob_name E variableName k)).
  { unfold lit, Gen.entry_lit, vnames. simpl.
    rewrite (blob_vnames_lookup E variableName _ k v Hk).
    now destruct (Gen.fi_IsDir v). }
  split; [intros Hd; now rewrite Hdata, Hd|].
  intros Hd. rewrite Forall_forall in Hread.
  destruct (Hread (k, v)) as [Hd'|[content Hc]];
    [now apply (range_entry _ _ _ _ Hblobs)|simpl in Hd'; congruence|].
  simpl in Hc. exists content. split; [exact Hc|].
  split; [now rewrite Hdata, Hd|].
  unfold Gen.blob_decls. apply list_elem_of_omap. exists (k, v).
  split; [now apply (range_entry _ _ _ _ Hblobs)|].
  unfold Gen.blob_of. simpl. now rewrite Hd, Hc.
Qed.

Lemma emitted_Data_names_declared_blob_witness :
  let E := Gen.hi_env in
  let x := Gen.scenario_collected in
  let s := Gen.default_schedule x in
  let v := Gen.node_info Gen.scenario_b in
  let variableName := Gen.or_default (Gen.VariableName x) "Assets" in
  let vnames := Gen.blob_vnames E variableName (Gen.files_of x) in
  let lit := Gen.entry_lit (Gen.StripPrefix x) vnames "a/b.txt" v in
  Gen.serialized E x s = Gen.serialized E x s /\
  lit ∈ Gen.entry_lits (Gen.StripPrefix x) vnames (Gen.range_files s) /\
  (Gen.fi_IsDir v = true -> Gen.lit_Data lit = None) /\
  (Gen.fi_IsDir v = false ->
   exists content,
     Gen.read_file E "a/b.txt" = inr content /\
     Gen.lit_Data lit = Some (Gen.blob_name E variableName "a/b.txt") /\
     Gen.blob_decl E (Gen.blob_name E variableName "a/b.txt")
                   (if Gen.Compressed x then Gen.gzip_bytes E content else content)
     ∈ Gen.blob_decls E (Gen.Compressed x) variableName (Gen.range_blobs s)).
Proof.
  apply (emitted_Data_names_declared_blob Gen.hi_env Gen.scenario_collected
           (Gen.default_schedule Gen.scenario_collected)
           (Gen.serialized Gen.hi_env Gen.scenario_collected
              (Gen.default_schedule Gen.scenario_collected))
           "a/b.txt" (Gen.node_info Gen.scenario_b));
    [repeat split; reflexivity | vm_compute; reflexivity | vm_compute; reflexivity].
Defined.

(** X16. From the generator to a read: for a registered regular file
    whose content can be read, when no two registered paths get the same
    blob variable, the [File] that the emitted initialization builds for it
    has the stripped path as [Path], the captured mode, and as [Data] the
    content read at serialization time, gzip-encoded when [Compressed] is
    set; opened in a file system that maps the stripped path to it and read
    to the end, it yields exactly those bytes (the encoded ones when
    [Compressed] is set: the handle does not decode). *)
Theorem emitted_file_reads_back
    (E : Gen.Env) (x : Gen.Generator) (s : Gen.Schedule)
    (k : string) (v : Gen.FileInfo) (content : list Byte.byte)
    (fsys : Assets.FileSystem) (st : gmap positive Assets.File) (p : positive)
    (n fuel : nat) :
  Gen.valid_schedule x s ->
  Gen.blob_names_distinct E x ->
  Gen.files_of x !! k = Some v ->
  Gen.fi_IsDir v = false ->
  Gen.read_file E k = inr content ->
  let variableName := Gen.or_default (Gen.VariableName x) "Assets" in
  let data := if Gen.Compressed x then Gen.gzip_bytes E content else content in
  let obj :=
    Gen.init_File
      (Gen.declared_blobs E (Gen.Compressed x) variableName (Gen.range_blobs s))
      (Gen.entry_lit (Gen.StripPrefix x)
                     (Gen.blob_vnames E variableName (Gen.files_of x)) k v) in
  Assets.Path obj = Gen.file_key (Gen.StripPrefix x) k /\
  Assets.FileMode obj = Gen.fi_Mode v /\
  Assets.IsDir obj = false /\
  Assets.Data obj = data /\
  (len data <= max_int -> (0 < n)%nat -> (length data < fuel)%nat ->
   Assets.Files fsys !! Gen.file_key (Gen.StripPrefix x) k = Some p ->
   st !! p = Some obj ->
   exists st1 st2,
     Assets.Open fsys (Gen.file_key (Gen.StripPrefix x) k) st
     = (st1, Returns (Some p, None)) /\
     Assets.read_all fuel n p st1 [] = (st2, Some (Returns (data, None)))).
Proof.
  intros Hv Hinj Hk Hfile Hread variableName data obj.
  pose proof Hv as (Hblobs & _ & _ & _).
  assert (Hdata : Assets.Data obj = data).
  { unfold obj, Gen.init_File, Gen.entry_lit. simpl. rewrite Hfile. simpl.
    rewrite (blob_vnames_lookup E variableName _ k v Hk), Hfile. simpl.
    unfold Gen.declared_blobs.
    erewrite elem_of_list_to_map_1; [reflexivity| |].
    - apply blob_values_NoDup.
      + rewrite Hblobs. apply NoDup_fst_map_to_list.
      + intros k1 k2 H1 H2.
        apply Hinj; now apply (range_meets_dom _ _ _ Hblobs).
    - apply list_elem_of_omap. exists (k, v).
      split; [now apply (range_entry _ _ _ _ Hblobs)|].
      unfold Gen.blob_value. simpl. now rewrite Hfile, Hread. }
  assert (Hdir : Assets.IsDir obj = false) by exact Hfile.
  split; [reflexivity|]. split; [reflexivity|]. split; [exact Hdir|].
  split; [exact Hdata|].
  intros Hmax Hn Hfuel Hp Hst.
  set (fo := Assets.set_buf obj (Some (NewReader (Assets.Data obj)))).
  assert (Hfo : Assets.Data fo = data) by exact Hdata.
  destruct (read_all_from p n Hn fuel (<[p := fo]> st) fo [] 0) as [st2 Hst2];
    try (rewrite Hfo; unfold len in *; lia).
  { apply lookup_insert_eq. }
  { reflexivity. }
  exists (<[p := fo]> st), st2.
  split; [exact (Open_regular fsys st _ p obj Hp Hst Hdir)|].
  rewrite Hst2. simpl. do 4 f_equal. exact Hfo.
Qed.

Lemma emitted_file_reads_back_witness :
  let E := Gen.hi_env in
  let x := Gen.scenario_collected in
  let s := Gen.default_schedule x in
  let v := Gen.node_info Gen.scenario_b in
  let variableName := Gen.or_default (Gen.VariableName x) "Assets" in
  let data := if Gen.Compressed x then Gen.gzip_bytes E Assets.hi_bytes
              else Assets.hi_bytes in
  let obj :=
    Gen.init_File
      (Gen.declared_blobs E (Gen.Compressed x) variableName (Gen.range_blobs s))
      (Gen.entry_lit (Gen.StripPrefix x)
                     (Gen.blob_vnames E variableName (Gen.files_of x)) "a/b.txt" v) in
  Assets.Path obj = Gen.file_key (Gen.StripPrefix x) "a/b.txt" /\
  Assets.FileMode obj = Gen.fi_Mode v /\
  Assets.IsDir obj = false /\
  Assets.Data obj = data /\
  (len data <= max_int -> (0 < 1)%nat -> (length data < 3)%nat ->
   Assets.Files Assets.hi_fs !! Gen.file_key (Gen.StripPrefix x) "a/b.txt"
   = Some 1%positive ->
   ({[ 1%positive := obj ]} : gmap positive Assets.File) !! 1%positive = Some obj ->
   exists st1 st2,
     Assets.Open Assets.hi_fs (Gen.file_key (Gen.StripPrefix x) "a/b.txt")
                 {[ 1%positive := obj ]}
     = (st1, Returns (Some 1%positive, None)) /\
     Assets.read_all 3 1 1%positive st1 [] = (st2, Some (Returns (data, None)))).
Proof.
  apply (emitted_file_reads_back Gen.hi_env Gen.scenario_collected
           (Gen.default_schedule Gen.scenario_collected)
           "a/b.txt" (Gen.node_info Gen.scenario_b) Assets.hi_bytes
           Assets.hi_fs _ 1%positive 1 3);
    [repeat split; reflexivity | | vm_compute; reflexivity
    | reflexivity | reflexivity].
  intros k1 k2 _ _ H. vm_compute in H. congruence.
Defined.


(** X17. The shape of the emitted keys and names: stripping never yields
    the empty string (the root marker ["/"] stands for it); a path that
    consists of the prefix followed by a non-empty rest is emitted as that
    rest, cut byte-wise wherever the prefix ends and not at a path segment;
    a non-empty path that does not start with the prefix is emitted
    unchanged. The same holds for [Files] keys and for listed names, which
    are stripped by copies of the same code. *)
Theorem stripped_key_shape (prefix k rest : string) :
  (0 < len_string (Gen.dir_key prefix k) /\
   0 < len_string (Gen.file_key prefix k) /\
   0 < len_string (Gen.listed_name prefix k)) /\
  (0 < len_string rest ->
   Gen.dir_key prefix (prefix +:+ rest) = rest /\
   Gen.file_key prefix (prefix +:+ rest) = rest /\
   Gen.listed_name prefix (prefix +:+ rest) = rest) /\
  (HasPrefix k prefix = false -> 0 < len_string k ->
   Gen.dir_key prefix k = k /\ Gen.file_key prefix k = k /\
   Gen.listed_name prefix k = k).
Proof.
  split; [repeat split; apply stripped_nonempty|]. split.
  - intros Hrest.
    assert (H : Gen.dir_key prefix (prefix +:+ rest) = rest).
    { unfold Gen.dir_key. rewrite TrimPrefix_app.
      destruct (Z.eqb_spec (len_string rest) 0); [lia|reflexivity]. }
    repeat split; exact H.
  - intros Hno Hk.
    assert (H : Gen.dir_key prefix k = k).
    { unfold Gen.dir_key, TrimPrefix. rewrite Hno.
      destruct (Z.eqb_spec (len_string k) 0); [lia|reflexivity]. }
    repeat split; exact H.
Qed.

(* ===================================================================== *)
(** * Paths of a walk over a tree with ordinary names                     *)
(* ===================================================================== *)

Section SimplePaths.
Import Gen.

Lemma slash_free_head (c : ascii) (s : string) :
  has_slash (String c s) = false -> Ascii.eqb c slash = false /\ has_slash s = false.
Proof. simpl. apply orb_false_iff. Qed.

Lemma split_slash_no_slash (s : string) :
  has_slash s = false -> split_slash s = [s].
Proof.
  induction s as [|c s IH]; intros Hs; [reflexivity|].
  apply slash_free_head in Hs as [Hc Hs]. simpl. now rewrite Hc, (IH Hs).
Qed.

Lemma split_slash_app (s t : string) :
  has_slash s = false ->
  split_slash (s +:+ String slash t) = s :: split_slash t.
Proof.
  induction s as [|c s IH]; intros Hs.
  - reflexivity.
  - apply slash_free_head in Hs as [Hc Hs]. rewrite string_app_cons.
    simpl. now rewrite Hc, (IH Hs).
Qed.

Lemma concat_cons2 (x y : string) (l : list string) :
  String.concat "/" (x :: y :: l) = x +:+ String slash (String.concat "/" (y :: l)).
Proof. reflexivity. Qed.

(** Splitting at the slashes undoes joining slash-free names by slashes. *)
Lemma split_slash_concat (ns : list string) :
  ns <> [] -> Forall (fun s => has_slash s = false) ns ->
  split_slash (String.concat "/" ns) = ns.
Proof.
  induction ns as [|x [|y l] IH]; intros Hne Hall; [congruence| |].
  - apply Forall_inv in Hall. now apply split_slash_no_slash.
  - rewrite concat_cons2, split_slash_app by (now apply Forall_inv in Hall).
    f_equal. apply IH; [discriminate|now apply Forall_inv_tail in Hall].
Qed.

Lemma simple_slash_free (ns : list string) :
  Forall simple_name ns -> Forall (fun s => has_slash s = false) ns.
Proof. intros H. eapply Forall_impl; [exact H|]. now intros s (_ & _ & _ & Hs). Qed.

Lemma clean_step_simple (rooted : bool) (acc : list string) (e : string) :
  simple_name e -> clean_step rooted acc e = e :: acc.
Proof.
  intros (H1 & H2 & H3 & _). unfold clean_step.
  apply String.eqb_neq in H1, H2, H3. now rewrite H1, H2, H3.
Qed.

Lemma fold_clean_step_simple (rooted : bool) (ns : list string) :
  Forall simple_name ns ->
  forall acc, fold_left (clean_step rooted) ns acc = rev ns ++ acc.
Proof.
  induction 1 as [|e ns He _ IH]; intros acc; [reflexivity|].
  simpl. rewrite clean_step_simple by exact He. rewrite IH.
  now rewrite <- app_assoc.
Qed.

Lemma concat_head (ns : list string) :
  ns <> [] -> Forall simple_name ns ->
  exists c rest, String.concat "/" ns = String c rest /\ Ascii.eqb c slash = false.
Proof.
  destruct ns as [|x l]; [congruence|]. intros _ Hall.
  apply Forall_inv in Hall as (Hne & _ & _ & Hs).
  destruct x as [|c x]; [congruence|].
  apply slash_free_head in Hs as [Hc _].
  destruct l as [|y l]; [now exists c, x|].
  rewrite concat_cons2, string_app_cons. eauto.
Qed.

(** [path.Clean] leaves a relative path of ordinary names as it is. *)
Lemma Clean_concat (ns : list string) :
  ns <> [] -> Forall simple_name ns ->
  Clean (String.concat "/" ns) = String.concat "/" ns.
Proof.
  intros Hne Hall.
  destruct (concat_head ns Hne Hall) as (c & rest & Hp & Hc).
  unfold Clean. destruct (String.concat "/" ns) as [|a s] eqn:Hp'; [discriminate|].
  injection Hp as -> ->. rewrite Hc. rewrite <- Hp'.
  rewrite split_slash_concat by (auto using simple_slash_free).
  rewrite fold_clean_step_simple by exact Hall.
  rewrite app_nil_r, rev_involutive, Hp'. reflexivity.
Qed.

Lemma concat_snoc (ns : list string) (b : string) :
  ns <> [] ->
  String.concat "/" (ns ++ [b]) = String.concat "/" ns +:+ "/" +:+ b.
Proof.
  induction ns as [|x [|y l] IH]; intros Hne; [congruence|reflexivity|].
  change (String.concat "/" ((x :: y :: l) ++ [b]))
    with (x +:+ String slash (String.concat "/" ((y :: l) ++ [b]))).
  rewrite IH by discriminate. rewrite concat_cons2.
  rewrite !string_app_assoc. reflexivity.
Qed.

Lemma concat_nonempty (ns : list string) :
  ns <> [] -> Forall simple_name ns -> String.eqb (String.concat "/" ns) "" = false.
Proof.
  intros Hne Hall. destruct (concat_head ns Hne Hall) as (c & rest & -> & _).
  reflexivity.
Qed.

(** [path.Join] of the path of a directory and an ordinary name. *)
Lemma Join_parent_of (above : list string) (b : string) :
  Forall simple_name above -> simple_name b ->
  Join (parent_of above) b = parent_of (above ++ [b]).
Proof.
  intros Hall Hb. pose proof Hb as (Hbne & _ & _ & Hbs).
  assert (Hbe : String.eqb b "" = false) by now apply String.eqb_neq.
  destruct above as [|x l].
  - assert (Hsp : split_slash ("." +:+ String slash b) = ["."; b]).
    { rewrite split_slash_app by reflexivity.
      now rewrite split_slash_no_slash. }
    change (Join (parent_of []) b)
      with (if String.eqb b "" then Clean "." else Clean ("." +:+ String slash b)).
    rewrite Hbe.
    change (Clean ("." +:+ String slash b))
      with (let out := rev (fold_left (clean_step false)
                                      (split_slash ("." +:+ String slash b)) []) in
            let body := String.concat "/" out in
            if String.eqb body "" then "." else body).
    rewrite Hsp.
    change (fold_left (clean_step false) ["."; b] [])
      with (clean_step false [] b).
    rewrite clean_step_simple by exact Hb.
    change (parent_of ([] ++ [b])) with b. simpl. now rewrite Hbe.
  - assert (Hne : x :: l <> []) by discriminate.
    assert (Hp : parent_of (x :: l) = String.concat "/" (x :: l)) by reflexivity.
    assert (Hp' : parent_of ((x :: l) ++ [b]) = String.concat "/" ((x :: l) ++ [b])).
    { simpl. now destruct (l ++ [b]). }
    rewrite Hp, Hp'. unfold Join.
    rewrite concat_nonempty, Hbe by assumption.
    rewrite <- concat_snoc by exact Hne.
    apply Clean_concat; [now destruct l|].
    apply Forall_app. split; [exact Hall|now constructor].
Qed.

Lemma Split_no_slash (s : string) :
  has_slash s = false -> Split s = (EmptyString, s).
Proof.
  induction s as [|c s IH]; intros Hs; [reflexivity|].
  apply slash_free_head in Hs as [Hc Hs]. simpl. now rewrite (IH Hs), Hc.
Qed.

(** For an ordinary name [p], [Add(p)] walks the node under [.]. *)
Lemma Add_simple (os_Stat : string -> error + node) (x : Generator)
    (p : string) (n : node) :
  simple_name p -> os_Stat p = inr n -> Add os_Stat x p = addPath x "." n.
Proof.
  intros Hp Hstat. pose proof Hp as (_ & _ & _ & Hs).
  assert (Hc : Clean p = p).
  { apply (Clean_concat [p]); [discriminate|now constructor]. }
  unfold Add, Dir. rewrite Hc, Hstat, Split_no_slash by exact Hs. reflexivity.
Qed.

(** Every sequence of names of a walk starts with the names above and the
    name of the node walked. *)
Lemma walked_names_prefix (n : node) :
  forall above l, l ∈ walked_names above n ->
                  exists rest, l = above ++ node_name n :: rest.
Proof.
  induction n as [info oe entries re IH] using node_induction.
  intros above l Hl. unfold node_name. simpl in *.
  assert (Hhere : forall r, (above ++ [fi_Name info]) ++ r = above ++ fi_Name info :: r)
    by (intros r; now rewrite <- app_assoc).
  destruct (fi_IsDir info).
  - apply elem_of_cons in Hl as [->|Hl]; [now exists []|].
    induction IH as [|c cs Hc _ IHcs]; simpl in Hl; [now apply elem_of_nil in Hl|].
    apply elem_of_app in Hl as [Hl|Hl]; [|now apply IHcs].
    destruct (Hc _ _ Hl) as [rest ->]. rewrite Hhere. eauto.
  - apply list_elem_of_singleton in Hl as ->. now exists [].
Qed.

Lemma walked_names_simple (n : node) :
  well_named n ->
  forall above l, Forall simple_name above -> l ∈ walked_names above n ->
                  Forall simple_name l.
Proof.
  induction n as [info oe entries re IH] using node_induction.
  intros Hwn above l Habove Hl. inversion Hwn as [? ? ? ? Hname _ Hsub]; subst.
  simpl in Hl.
  assert (Hhere : Forall simple_name (above ++ [fi_Name info])).
  { apply Forall_app. split; [exact Habove|now constructor]. }
  destruct (fi_IsDir info).
  - apply elem_of_cons in Hl as [->|Hl]; [exact Hhere|].
    clear Hwn.
    induction IH as [|c cs Hc _ IHcs]; simpl in Hl; [now apply elem_of_nil in Hl|].
    apply Forall_cons_1 in Hsub as [Hwc Hsub].
    apply elem_of_app in Hl as [Hl|Hl];
      [exact (Hc Hwc _ _ Hhere Hl)|exact (IHcs Hl Hsub)].
  - now apply list_elem_of_singleton in Hl as ->.
Qed.

(** In a well-named tree no two nodes have the same sequence of names. *)
Lemma walked_names_NoDup (n : node) :
  well_named n -> forall above, NoDup (walked_names above n).
Proof.
  induction n as [info oe entries re IH] using node_induction.
  intros Hwn above. inversion Hwn as [? ? ? ? _ Hnames Hsub]; subst.
  simpl. set (here := above ++ [fi_Name info]).
  destruct (fi_IsDir info); [|apply NoDup_singleton].
  apply NoDup_cons. split.
  - intros Hin.
    assert (Hlong : forall cs l, l ∈ flat_map (walked_names here) cs ->
                                 (length here < length l)%nat).
    { induction cs as [|c cs IHcs]; intros l Hl; simpl in Hl;
        [now apply elem_of_nil in Hl|].
      apply elem_of_app in Hl as [Hl|Hl]; [|now apply IHcs].
      destruct (walked_names_prefix c _ _ Hl) as [rest ->].
      rewrite length_app. simpl. lia. }
    specialize (Hlong entries here Hin). lia.
  - clear Hwn. induction IH as [|c cs Hc _ IHcs]; simpl; [constructor|].
    apply Forall_cons_1 in Hsub as [Hwc Hsub].
    simpl in Hnames. apply NoDup_cons in Hnames as [Hfresh Hnames].
    apply NoDup_app. split; [now apply Hc|]. split; [|now apply IHcs].
    intros l Hl Hl'.
    destruct (walked_names_prefix c _ _ Hl) as [rest ->].
    assert (Hother : exists c', c' ∈ cs /\
                       exists rest', here ++ node_name c :: rest
                                     = here ++ node_name c' :: rest').
    { clear -Hl'. induction cs as [|c0 cs IHcs]; simpl in Hl';
        [now apply elem_of_nil in Hl'|].
      apply elem_of_app in Hl' as [Hl'|Hl'].
      - exists c0. split; [left|]. now apply (walked_names_prefix c0 _ _ Hl').
      - destruct (IHcs Hl') as (c' & Hc' & Hr). exists c'. split; [now right|exact Hr]. }
    destruct Hother as (c' & Hc' & rest' & Heq).
    apply app_inv_head in Heq. injection Heq as Hname _.
    apply Hfresh. rewrite Hname. now apply list_elem_of_fmap_2.
Qed.

(** The paths of a walk are the sequences of names joined by slashes. *)
Lemma walked_entries_names (n : node) :
  well_named n ->
  forall above, Forall simple_name above ->
    (walked_entries (parent_of above) n).*1
    = parent_of <$> walked_names above n.
Proof.
  induction n as [info oe entries re IH] using node_induction.
  intros Hwn above Habove. inversion Hwn as [? ? ? ? Hname _ Hsub]; subst.
  simpl. rewrite (Join_parent_of above (fi_Name info) Habove Hname).
  set (here := above ++ [fi_Name info]).
  assert (Hhere : Forall simple_name here).
  { apply Forall_app. split; [exact Habove|now constructor]. }
  destruct (fi_IsDir info); [|reflexivity].
  simpl. f_equal. clear Hwn.
  induction IH as [|c cs Hc _ IHcs]; simpl; [reflexivity|].
  apply Forall_cons_1 in Hsub as [Hwc Hsub].
  rewrite !fmap_app. f_equal; [exact (Hc Hwc here Hhere)|exact (IHcs Hsub)].
Qed.

Lemma parent_of_inj (l1 l2 : list string) :
  l1 <> [] -> l2 <> [] -> Forall simple_name l1 -> Forall simple_name l2 ->
  parent_of l1 = parent_of l2 -> l1 = l2.
Proof.
  intros H1 H2 Hs1 Hs2 Heq.
  assert (Hp : forall l, l <> [] -> parent_of l = String.concat "/" l)
    by (intros [|? ?]; [congruence|reflexivity]).
  rewrite (Hp l1 H1), (Hp l2 H2) in Heq.
  rewrite <- (split_slash_concat l1 H1), <- (split_slash_concat l2 H2)
    by auto using simple_slash_free.
  now rewrite Heq.
Qed.

End SimplePaths.

(** X18. On a tree as a real directory gives it (every name non-empty,
    other than [.] and [..] and free of slashes, the entries of a
    directory named apart), a walk started by [Add] of an ordinary name
    registers every node under the names from the root down to it joined
    by slashes, and no two nodes under the same path: the entries and the
    listings the walk stores never overwrite one another. *)
Theorem well_named_tree_paths_distinct (n : Gen.node) :
  Gen.well_named n ->
  (Gen.walked_entries "." n).*1 = Gen.parent_of <$> Gen.walked_names [] n /\
  NoDup (Gen.walked_entries "." n).*1 /\
  NoDup (Gen.walked_dirs "." n).*1 /\
  (forall os_Stat x p,
     Gen.simple_name p -> os_Stat p = inr n ->
     Gen.Add os_Stat x p = Gen.addPath x "." n).
Proof.
  intros Hwn.
  pose proof (walked_entries_names n Hwn [] (Forall_nil_2 _)) as Hpaths.
  change (Gen.parent_of []) with "." in Hpaths.
  assert (Hnd : NoDup (Gen.walked_entries "." n).*1).
  { rewrite Hpaths. apply NoDup_fmap_2_strong; [|now apply walked_names_NoDup].
    intros l1 l2 H1 H2.
    assert (Hne : forall l, l ∈ Gen.walked_names [] n -> l <> []).
    { intros l Hl. destruct (walked_names_prefix n _ _ Hl) as [rest ->].
      discriminate. }
    apply parent_of_inj; auto;
      eapply (walked_names_simple n Hwn []); eauto; constructor. }
  split; [exact Hpaths|]. split; [exact Hnd|]. split.
  - eapply sublist_NoDup; [exact Hnd|apply walked_dirs_sublist].
  - intros os_Stat x p Hp Hstat. now apply Add_simple.
Qed.

Lemma well_named_tree_paths_distinct_witness :
  (Gen.walked_entries "." Gen.scenario_a).*1
  = Gen.parent_of <$> Gen.walked_names [] Gen.scenario_a /\
  NoDup (Gen.walked_entries "." Gen.scenario_a).*1 /\
  NoDup (Gen.walked_dirs "." Gen.scenario_a).*1 /\
  (forall os_Stat x p,
     Gen.simple_name p -> os_Stat p = inr Gen.scenario_a ->
     Gen.Add os_Stat x p = Gen.addPath x "." Gen.scenario_a).
Proof.
  apply (well_named_tree_paths_distinct Gen.scenario_a).
  assert (Hsimple : forall s, (if decide (s <> "" /\ s <> "." /\ s <> ".."
                                          /\ Gen.has_slash s = false)
                               then true else false) = true ->
                              Gen.simple_name s).
  { intros s. destruct (decide _); [auto|discriminate]. }
  constructor; [apply Hsimple; vm_compute; reflexivity
               |apply (bool_decide_unpack _); vm_compute; reflexivity|].
  repeat constructor; try (apply Hsimple; vm_compute; reflexivity).
Defined.

(* ===================================================================== *)
(** * Listings and entries agree                                          *)
(* ===================================================================== *)

Section Resolve.
Import Gen.

Lemma Clean_nonempty (p : string) : Clean p <> EmptyString.
Proof.
  unfold Clean. destruct p as [|c p']; [discriminate|]. cbv zeta.
  destruct (Ascii.eqb c slash); [discriminate|].
  destruct (String.eqb _ "") eqn:E; [discriminate|].
  now apply String.eqb_neq in E.
Qed.

Lemma Join_nonempty (a b : string) : a <> EmptyString -> Join a b <> EmptyString.
Proof.
  intros Ha. unfold Join. apply String.eqb_neq in Ha. rewrite Ha.
  destruct (String.eqb b ""); apply Clean_nonempty.
Qed.

Lemma elem_of_listing (x : Generator) (d m : string) :
  m ∈ listing x d <-> exists names, dirs_of x !! d = Some names /\ m ∈ names.
Proof.
  unfold listing. destruct (dirs_of x !! d) as [names|]; simpl.
  - split; [eauto|now intros (? & [= <-] & ?)].
  - split; [now intros ?%elem_of_nil|now intros (? & [=] & _)].
Qed.

Lemma listed_resolve_registered (x : Generator) (p : string) (info : FileInfo) :
  listed_resolve x -> listed_resolve (registered x p info).
Proof.
  intros H d m Hm. rewrite listing_registered in Hm.
  rewrite files_of_registered. apply lookup_insert_is_Some'. right. now apply H.
Qed.

Lemma addPath_range_listed (p : string) (entries : list node) :
  Forall (fun c => forall x parent,
              listed_resolve x -> listed_resolve (addPath x parent c).1) entries ->
  forall x, listed_resolve x -> listed_resolve (addPath_range x p entries).1.
Proof.
  induction 1 as [|c cs Hc _ IH]; intros x Hx; simpl; [exact Hx|].
  specialize (Hc x p Hx). destruct (addPath x p c) as [x1 [err|]]; [exact Hc|].
  now apply IH.
Qed.

(** [addPath] keeps the listings resolvable: a name is appended to a
    listing only after its path has been stored. *)
Lemma addPath_listed (n : node) :
  forall x parent, listed_resolve x -> listed_resolve (addPath x parent n).1.
Proof.
  induction n as [info oe entries re IH] using node_induction.
  intros x parent Hx. rewrite addPath_eq. cbv zeta.
  set (p := Join parent (fi_Name info)).
  pose proof (listed_resolve_registered x p info Hx) as H1.
  destruct (fi_IsDir info).
  - destruct (readdir_error oe re); [exact H1|].
    apply addPath_range_listed; [exact IH|].
    intros d m Hm. rewrite files_of_set_dirs.
    apply elem_of_listing in Hm as (names & Hd & Hm).
    rewrite dirs_of_set_dirs in Hd.
    destruct (decide (p = d)) as [<-|Hne].
    + rewrite lookup_insert_eq in Hd. injection Hd as <-.
      now apply elem_of_nil in Hm.
    + rewrite lookup_insert_ne in Hd by exact Hne.
      apply H1, elem_of_listing. eauto.
  - simpl. intros d m Hm. rewrite files_of_set_dirs.
    apply elem_of_listing in Hm as (names & Hd & Hm).
    rewrite dirs_of_set_dirs in Hd.
    destruct (decide (parent = d)) as [<-|Hne].
    + rewrite lookup_insert_eq in Hd. injection Hd as <-.
      apply elem_of_app in Hm as [Hm|Hm]; [now apply H1|].
      apply list_elem_of_singleton in Hm as ->. fold p.
      rewrite files_of_registered, lookup_insert_eq. eauto.
    + rewrite lookup_insert_ne in Hd by exact Hne.
      apply H1, elem_of_listing. eauto.
Qed.

Lemma Add_listed (os_Stat : string -> error + node) (x : Generator) (p : string) :
  listed_resolve x -> listed_resolve (Add os_Stat x p).1.
Proof.
  intros Hx. unfold Add. destruct (os_Stat (Clean p)) as [err|n]; [exact Hx|].
  now apply addPath_listed.
Qed.

Lemma names_nonempty_registered (x : Generator) (p : string) (info : FileInfo) :
  names_nonempty x -> names_nonempty (registered x p info).
Proof. intros H d names Hd. rewrite dirs_of_registered in Hd. now apply H. Qed.

Lemma addPath_range_nonempty (p : string) (entries : list node) :
  p <> EmptyString ->
  Forall (fun c => well_named c -> forall x parent,
              parent <> EmptyString -> names_nonempty x ->
              names_nonempty (addPath x parent c).1) entries ->
  Forall well_named entries ->
  forall x, names_nonempty x -> names_nonempty (addPath_range x p entries).1.
Proof.
  intros Hp. induction 1 as [|c cs Hc _ IH]; intros Hwn x Hx; simpl; [exact Hx|].
  apply Forall_cons_1 in Hwn as [Hwc Hwn].
  specialize (Hc Hwc x p Hp Hx). destruct (addPath x p c) as [x1 [err|]]; [exact Hc|].
  now apply IH.
Qed.

(** Walking a well-named tree below a directory with a non-empty path
    stores no empty key and no empty name. *)
Lemma addPath_nonempty (n : node) :
  well_named n ->
  forall x parent, parent <> EmptyString -> names_nonempty x ->
                   names_nonempty (addPath x parent n).1.
Proof.
  induction n as [info oe entries re IH] using node_induction.
  intros Hwn x parent Hparent Hx. inversion Hwn as [? ? ? ? Hname _ Hsub]; subst.
  rewrite addPath_eq. cbv zeta.
  set (p := Join parent (fi_Name info)).
  assert (Hp : p <> EmptyString) by now apply Join_nonempty.
  pose proof (names_nonempty_registered x p info Hx) as H1.
  destruct (fi_IsDir info).
  - destruct (readdir_error oe re); [exact H1|].
    apply addPath_range_nonempty; [exact Hp|exact IH|exact Hsub|].
    intros d names Hd. rewrite dirs_of_set_dirs in Hd.
    destruct (decide (p = d)) as [<-|Hne].
    + rewrite lookup_insert_eq in Hd. injection Hd as <-. split; [exact Hp|constructor].
    + rewrite lookup_insert_ne in Hd by exact Hne. now apply H1.
  - simpl. intros d names Hd. rewrite dirs_of_set_dirs in Hd.
    destruct (decide (parent = d)) as [<-|Hne].
    + rewrite lookup_insert_eq in Hd. injection Hd as <-. split; [exact Hparent|].
      apply Forall_app. split; [|constructor; [apply Hname|constructor]].
      unfold listing. destruct (dirs_of (registered x p info) !! parent) as [old|] eqn:Hold;
        [exact (proj2 (H1 _ _ Hold))|constructor].
    + rewrite lookup_insert_ne in Hd by exact Hne. now apply H1.
Qed.

Lemma Add_nonempty (os_Stat : string -> error + node) (x : Generator)
    (p : string) (n : node) :
  os_Stat (Clean p) = inr n -> well_named n -> names_nonempty x ->
  names_nonempty (Add os_Stat x p).1.
Proof.
  intros Hstat Hwn Hx. unfold Add. rewrite Hstat.
  apply addPath_nonempty; [exact Hwn|apply Clean_nonempty|exact Hx].
Qed.

Lemma listed_resolve_empty (x : Generator) : dirs_of x = ∅ -> listed_resolve x.
Proof.
  intros He d m Hm. apply elem_of_listing in Hm as (names & Hd & _).
  rewrite He in Hd. now rewrite lookup_empty in Hd.
Qed.

Lemma names_nonempty_empty (x : Generator) : dirs_of x = ∅ -> names_nonempty x.
Proof. intros He d names Hd. rewrite He in Hd. now rewrite lookup_empty in Hd. Qed.

Lemma scenario_a_well_named : well_named scenario_a.
Proof.
  assert (Hsimple : forall s, (if decide (s <> "" /\ s <> "." /\ s <> ".."
                                          /\ has_slash s = false)
                               then true else false) = true ->
                              simple_name s).
  { intros s. destruct (decide _); [auto|discriminate]. }
  constructor; [apply Hsimple; vm_compute; reflexivity
               |apply (bool_decide_unpack _); vm_compute; reflexivity|].
  repeat constructor; try (apply Hsimple; vm_compute; reflexivity).
Qed.

(** ** Without [StripPrefix] the emitted strings are the stored ones *)

Lemma TrimPrefix_empty (k : string) : TrimPrefix k EmptyString = k.
Proof. now destruct k. Qed.

Lemma dir_key_empty (k : string) : k <> EmptyString -> dir_key EmptyString k = k.
Proof.
  intros Hk. unfold dir_key. rewrite TrimPrefix_empty.
  pose proof (len_string_pos k Hk).
  destruct (Z.eqb_spec (len_string k) 0); [lia|reflexivity].
Qed.

Lemma listed_names_empty (names : list string) :
  Forall (fun m => m <> EmptyString) names ->
  map (listed_name EmptyString) names = names.
Proof.
  induction 1 as [|m names Hm _ IH]; simpl; [reflexivity|].
  rewrite IH. f_equal. exact (dir_key_empty m Hm).
Qed.

(** Whatever [dirmap] holds under a key was put there for one of the pairs
    ranged over. *)
Lemma fold_dirmap_inv (prefix : string) (kvs : list (string * list string))
    (d : string) (names : list string) :
  forall m : gmap string (list string),
    fold_left (fun dirmap kv =>
                 <[dir_key prefix kv.1 := map (listed_name prefix) kv.2]> dirmap)
              kvs m !! d = Some names ->
    m !! d = Some names \/
    exists k v, (k, v) ∈ kvs /\ d = dir_key prefix k /\
                names = map (listed_name prefix) v.
Proof.
  induction kvs as [|[k v] kvs IH]; intros m Hd; simpl in Hd; [now left|].
  destruct (IH _ Hd) as [Hm|(k' & v' & Hin & -> & ->)].
  - destruct (decide (dir_key prefix k = d)) as [<-|Hne].
    + rewrite lookup_insert_eq in Hm. injection Hm as <-.
      right. exists k, v. split; [left|]. now split.
    + rewrite lookup_insert_ne in Hm by exact Hne. now left.
  - right. exists k', v'. split; [now right|]. now split.
Qed.

End Resolve.

(** X19. [Add] keeps the two maps of the collector consistent, whatever
    it walks and whether it ends in an error or not: if every name listed
    under a directory has an entry under the path joined from the two,
    this still holds afterwards, since [addPath] appends a name to a
    listing only after it has stored the entry. On a well-named tree [Add]
    moreover stores no empty directory key and no empty name. *)
Theorem Add_keeps_listings_resolvable
    (os_Stat : string -> error + Gen.node) (x : Gen.Generator) (p : string) :
  Gen.listed_resolve x ->
  Gen.listed_resolve (Gen.Add os_Stat x p).1 /\
  (forall n, os_Stat (Clean p) = inr n -> Gen.well_named n ->
             Gen.names_nonempty x -> Gen.names_nonempty (Gen.Add os_Stat x p).1).
Proof.
  intros Hx. split; [now apply Add_listed|].
  intros n Hstat Hwn Hne. now apply (Add_nonempty os_Stat x p n).
Qed.

Lemma Add_keeps_listings_resolvable_witness :
  Gen.listed_resolve Gen.plain_gen /\
  Gen.listed_resolve (Gen.Add Gen.scenario_Stat Gen.plain_gen "a").1 /\
  (forall n, Gen.scenario_Stat (Clean "a") = inr n -> Gen.well_named n ->
             Gen.names_nonempty Gen.plain_gen ->
             Gen.names_nonempty (Gen.Add Gen.scenario_Stat Gen.plain_gen "a").1).
Proof.
  assert (H : Gen.listed_resolve Gen.plain_gen)
    by (apply listed_resolve_empty; reflexivity).
  split; [exact H|].
  exact (Add_keeps_listings_resolvable Gen.scenario_Stat Gen.plain_gen "a" H).
Defined.

(** X20. Without [StripPrefix] the emitted maps agree: when the collector
    holds an entry for every listed name and no empty key or name, the
    emitted [Dirs] map is the directory map of the collector, key for key
    and name for name, and every name in a listing is resolved by [readDir]
    to an entry of the emitted [Files] map, the one of a registered path,
    so that [readDir] on a file system initialized from the text returns no
    nil element. *)
Theorem emitted_listings_resolve
    (x : Gen.Generator) (s : Gen.Schedule) (vnames : gmap string string)
    (fsys : Assets.FileSystem) :
  Gen.StripPrefix x = EmptyString ->
  Gen.listed_resolve x -> Gen.names_nonempty x -> Gen.valid_schedule x s ->
  Assets.Dirs fsys = Gen.build_dirmap (Gen.StripPrefix x) (Gen.range_dirs s) ->
  (forall l, l ∈ Gen.entry_lits (Gen.StripPrefix x) vnames (Gen.range_files s) ->
             is_Some (Assets.Files fsys !! Gen.lit_key l)) ->
  Assets.Dirs fsys = Gen.dirs_of x /\
  forall d names,
    Gen.dirs_of x !! d = Some names ->
    Assets.Dirs fsys !! d = Some names /\
    (forall m, m ∈ names ->
               Join d m ∈ dom (Gen.files_of x) /\
               is_Some (Assets.resolve fsys d m)) /\
    (forall index count,
       0 <= index <= len names -> 0 <= count -> index + count <= max_int ->
       exists ret, Assets.readDir fsys d index count = Returns (ret, None) /\
                   Forall is_Some ret).
Proof.
  intros Hprefix Hres Hne Hs Hdirs Hfiles.
  pose proof Hs as (_ & Hrd & _ & _).
  assert (Hsub : forall d names, Assets.Dirs fsys !! d = Some names ->
                                 Gen.dirs_of x !! d = Some names).
  { intros d names Hd. rewrite Hdirs, Hprefix in Hd. unfold Gen.build_dirmap in Hd.
    apply fold_dirmap_inv in Hd as [Hd|(k & v & Hin & -> & ->)];
      [now rewrite lookup_empty in Hd|].
    rewrite Hrd in Hin. apply elem_of_map_to_list in Hin.
    destruct (Hne _ _ Hin) as [Hk Hv].
    now rewrite dir_key_empty, listed_names_empty. }
  assert (Hinj : Gen.dir_keys_distinct x).
  { intros k1 k2 [v1 H1]%elem_of_dom [v2 H2]%elem_of_dom. rewrite Hprefix.
    rewrite !dir_key_empty; [auto|exact (proj1 (Hne _ _ H2))|exact (proj1 (Hne _ _ H1))]. }
  assert (Hsup : forall d names, Gen.dirs_of x !! d = Some names ->
                                 Assets.Dirs fsys !! d = Some names).
  { intros d names Hx. destruct (Hne _ _ Hx) as [Hdne Hnames].
    pose proof (dirmap_listing_emitted x s d names Hinj Hs Hx) as Hd.
    rewrite Hprefix in Hd.
    rewrite dir_key_empty, listed_names_empty in Hd by assumption.
    now rewrite Hdirs, Hprefix. }
  assert (Heq : Assets.Dirs fsys = Gen.dirs_of x).
  { apply map_eq. intros d.
    destruct (Gen.dirs_of x !! d) as [names|] eqn:Hx; [now apply Hsup|].
    destruct (Assets.Dirs fsys !! d) as [names|] eqn:Hd; [|reflexivity].
    apply Hsub in Hd. congruence. }
  split; [exact Heq|].
  intros d names Hx. pose proof (Hsup _ _ Hx) as Hd.
  destruct (Hne _ _ Hx) as [Hdne Hnames].
  assert (Hall : forall m, m ∈ names ->
                           Join d m ∈ dom (Gen.files_of x) /\
                           is_Some (Assets.resolve fsys d m)).
  { intros m Hm. unfold Assets.resolve.
    assert (Hk : Join d m ∈ dom (Gen.files_of x)).
    { apply elem_of_dom, Hres, elem_of_listing. eauto. }
    split; [exact Hk|].
    pose proof (entries_key_emitted x s vnames (Join d m) Hs Hk) as Hlit.
    apply list_elem_of_fmap in Hlit as (l & Hl & Hin).
    rewrite Hprefix in Hl.
    change (Gen.file_key "" (Join d m)) with (Gen.dir_key "" (Join d m)) in Hl.
    rewrite dir_key_empty in Hl by now apply Join_nonempty.
    rewrite Hl. now apply Hfiles. }
  split; [exact Hd|]. split; [exact Hall|].
  intros index count Hi Hc Hsum. eexists.
  split; [exact (readDir_in_range fsys d names index count Hd Hi Hc Hsum)|].
  apply Forall_forall. intros r Hr.
  apply list_elem_of_fmap in Hr as (m & -> & Hm).
  apply Hall. exact (subseteq_drop _ _ _ (subseteq_take _ _ _ Hm)).
Qed.

Lemma emitted_listings_resolve_witness :
  Gen.valid_schedule Gen.plain_collected (Gen.default_schedule Gen.plain_collected) /\
  Assets.Dirs Gen.plain_fs = Gen.dirs_of Gen.plain_collected /\
  forall d names,
    Gen.dirs_of Gen.plain_collected !! d = Some names ->
    Assets.Dirs Gen.plain_fs !! d = Some names /\
    (forall m, m ∈ names ->
               Join d m ∈ dom (Gen.files_of Gen.plain_collected) /\
               is_Some (Assets.resolve Gen.plain_fs d m)) /\
    (forall index count,
       0 <= index <= len names -> 0 <= count -> index + count <= max_int ->
       exists ret, Assets.readDir Gen.plain_fs d index count = Returns (ret, None) /\
                   Forall is_Some ret).
Proof.
  split; [apply default_schedule_valid|].
  apply (emitted_listings_resolve Gen.plain_collected
           (Gen.default_schedule Gen.plain_collected) ∅ Gen.plain_fs).
  - reflexivity.
  - apply Add_listed, listed_resolve_empty. reflexivity.
  - apply (Add_nonempty _ _ _ Gen.scenario_a);
      [reflexivity|apply scenario_a_well_named|].
    apply names_nonempty_empty. reflexivity.
  - apply default_schedule_valid.
  - reflexivity.
  - intros l Hl. apply (elem_of_dom (M:=gmap string)).
    unfold Gen.plain_fs, Assets.Files. rewrite dom_list_to_map_L.
    apply elem_of_list_to_set. rewrite <- list_fmap_compose.
    apply list_elem_of_fmap. exists l. split; [reflexivity|exact Hl].
Defined.

(* ===================================================================== *)
(** * The name of an emitted entry                                        *)
(* ===================================================================== *)

Section BaseName.
Import Gen.

Lemma app_nonempty (a m : string) :
  m <> EmptyString -> String.eqb (a +:+ m) "" = false.
Proof.
  intros Hm. destruct a as [|c a]; [|reflexivity].
  change (EmptyString +:+ m) with m. now apply String.eqb_neq.
Qed.

Lemma trim_no_slash (m : string) :
  has_slash m = false -> trim_trailing_slashes m = m.
Proof.
  induction m as [|c m IH]; intros Hm; [reflexivity|].
  apply slash_free_head in Hm as [Hc Hm]. simpl.
  now rewrite (IH Hm), Hc, andb_false_r.
Qed.

(** Only trailing slashes are trimmed. *)
Lemma trim_app (a m : string) :
  m <> EmptyString -> has_slash m = false ->
  trim_trailing_slashes (a +:+ m) = a +:+ m.
Proof.
  intros Hne Hm. induction a as [|c a IH].
  - change (EmptyString +:+ m) with m. now apply trim_no_slash.
  - rewrite string_app_cons. simpl. rewrite IH.
    now rewrite (app_nonempty a m Hne).
Qed.

(** [path.Split] cuts after the last slash. *)
Lemma Split_app_slash (a m : string) :
  has_slash m = false ->
  Split (a +:+ String slash m) = (a +:+ String slash EmptyString, m).
Proof.
  intros Hm. induction a as [|c a IH].
  - change (EmptyString +:+ String slash m) with (String slash m).
    simpl. now rewrite (Split_no_slash m Hm).
  - rewrite string_app_cons. simpl. rewrite IH.
    rewrite (app_nonempty a (String slash EmptyString)) by discriminate.
    reflexivity.
Qed.

Lemma Base_simple (m : string) : simple_name m -> Base m = m.
Proof.
  intros (Hne & _ & _ & Hm). unfold Base.
  apply String.eqb_neq in Hne. rewrite Hne.
  rewrite (trim_no_slash m Hm), (Split_no_slash m Hm). simpl. now rewrite Hne.
Qed.

(** [path.Base] of a path that ends in a slash and an ordinary name. *)
Lemma Base_app_slash (a m : string) :
  simple_name m -> Base (a +:+ String slash m) = m.
Proof.
  intros (Hne & _ & _ & Hm). unfold Base.
  rewrite (app_nonempty a (String slash m)) by discriminate.
  assert (Htrim : trim_trailing_slashes (a +:+ String slash m) = a +:+ String slash m).
  { change (String slash m) with (String slash EmptyString +:+ m).
    rewrite <- string_app_assoc. now apply trim_app. }
  rewrite Htrim, (Split_app_slash a m Hm). simpl.
  apply String.eqb_neq in Hne. now rewrite Hne.
Qed.

Lemma Base_parent_of (l : list string) (m : string) :
  simple_name m -> Base (parent_of (l ++ [m])) = m.
Proof.
  intros Hm. destruct l as [|x l]; [now apply Base_simple|].
  assert (Hp : parent_of ((x :: l) ++ [m]) = String.concat "/" ((x :: l) ++ [m])).
  { simpl. now destruct (l ++ [m]). }
  rewrite Hp, concat_snoc by discriminate.
  now apply Base_app_slash.
Qed.

(** Every path of a walk ends in the name of the node it is stored
    for. *)
Lemma walked_entries_shape (n : node) :
  well_named n ->
  forall above k v,
    Forall simple_name above -> (k, v) ∈ walked_entries (parent_of above) n ->
    simple_name (fi_Name v) /\ exists l, k = parent_of (l ++ [fi_Name v]).
Proof.
  induction n as [info oe entries re IH] using node_induction.
  intros Hwn above k v Habove Hin.
  inversion Hwn as [? ? ? ? Hname _ Hsub]; subst.
  simpl in Hin. rewrite (Join_parent_of above (fi_Name info) Habove Hname) in Hin.
  set (here := above ++ [fi_Name info]) in *.
  assert (Hhere : Forall simple_name here).
  { apply Forall_app. split; [exact Habove|now constructor]. }
  assert (Hhead : forall kv : string * FileInfo,
             kv = (parent_of here, info) ->
             simple_name (fi_Name kv.2) /\
             exists l, kv.1 = parent_of (l ++ [fi_Name kv.2])).
  { intros kv ->. split; [exact Hname|now exists above]. }
  destruct (fi_IsDir info).
  - apply elem_of_cons in Hin as [Heq|Hin]; [exact (Hhead _ Heq)|].
    clear Hwn Hhead.
    induction IH as [|c cs Hc _ IHcs]; simpl in Hin; [now apply elem_of_nil in Hin|].
    apply Forall_cons_1 in Hsub as [Hwc Hsub].
    apply elem_of_app in Hin as [Hin|Hin];
      [exact (Hc Hwc here k v Hhere Hin)|exact (IHcs Hin Hsub)].
  - apply list_elem_of_singleton in Hin. exact (Hhead _ Hin).
Qed.

End BaseName.

(** X21. The name survives the round trip: for every node of a well-named
    tree walked below the current directory, the [File] that the literal
    emitted without [StripPrefix] denotes has, as its [Name()], the name
    the node's [FileInfo] reported. The entry whose path is the
    [StripPrefix] itself is emitted under ["/"], and its [Name()] is
    ["/"]. *)
Theorem emitted_Name_round_trip
    (n : Gen.node) (blobs : gmap string (list Byte.byte))
    (vnames : gmap string string) (k : string) (v : Gen.FileInfo) :
  Gen.well_named n -> (k, v) ∈ Gen.walked_entries "." n ->
  Assets.Name (Gen.init_File blobs (Gen.entry_lit EmptyString vnames k v))
  = Gen.fi_Name v /\
  Assets.Name (Gen.init_File blobs (Gen.entry_lit k vnames k v)) = "/".
Proof.
  intros Hwn Hin.
  destruct (walked_entries_shape n Hwn [] k v (Forall_nil_2 _) Hin)
    as (Hname & l & Hk).
  split.
  - unfold Assets.Name. simpl.
    change (Gen.file_key "" k) with (Gen.dir_key "" k).
    assert (Hne : k <> EmptyString).
    { rewrite Hk. destruct l as [|x l]; [apply Hname|].
      assert (Hp : Gen.parent_of ((x :: l) ++ [Gen.fi_Name v])
                   = String.concat "/" ((x :: l) ++ [Gen.fi_Name v])).
      { simpl. now destruct (l ++ [Gen.fi_Name v]). }
      rewrite Hp, concat_snoc by discriminate.
      apply String.eqb_neq, app_nonempty. discriminate. }
    rewrite (dir_key_empty k Hne), Hk. now apply Base_parent_of.
  - unfold Assets.Name. simpl.
    change (Gen.file_key k k) with (Gen.dir_key k k).
    now rewrite dir_key_prefix.
Qed.

Lemma emitted_Name_round_trip_witness :
  ("a/b.txt", Gen.node_info Gen.scenario_b) ∈ Gen.walked_entries "." Gen.scenario_a /\
  Assets.Name (Gen.init_File ∅ (Gen.entry_lit EmptyString ∅ "a/b.txt"
                                              (Gen.node_info Gen.scenario_b)))
  = "b.txt" /\
  Assets.Name (Gen.init_File ∅ (Gen.entry_lit "a/b.txt" ∅ "a/b.txt"
                                              (Gen.node_info Gen.scenario_b)))
  = "/".
Proof.
  assert (Hin : ("a/b.txt", Gen.node_info Gen.scenario_b)
                ∈ Gen.walked_entries "." Gen.scenario_a).
  { assert (He : Gen.walked_entries "." Gen.scenario_a
                  = [("a", Gen.node_info Gen.scenario_a);
                     ("a/b.txt", Gen.node_info Gen.scenario_b);
                     ("a/c", Gen.node_info Gen.scenario_c)])
      by (vm_compute; reflexivity).
    rewrite He. apply elem_of_cons. right. apply elem_of_cons. now left. }
  split; [exact Hin|].
  exact (emitted_Name_round_trip Gen.scenario_a ∅ ∅ "a/b.txt"
           (Gen.node_info Gen.scenario_b) scenario_a_well_named Hin).
Defined.
